(** * The interactive text buffer of the CLI input field

    A shallow embedding of
    [packages/cli/src/ui/components/shared/text-buffer.ts]:
    the position mapper, the visual layouter, the reducer
    [textBufferReducer] and the callbacks of [useTextBuffer] that translate
    commands and keys into reducer actions.

    Modelling conventions.
    - A JavaScript string is the list of its code points ([str]); a code
      point is a [Z].  [toCodePoints] is therefore the identity and a
      one-code-point string [char] is the code point itself.
    - A JavaScript number is a [Z]: rows, columns and offsets are integers,
      possibly negative, as the reducer tests [startRow < 0] itself.
    - An array is a [list]; reads out of range give [None] (JavaScript's
      [undefined]), which the reducer turns into the empty string with
      [?? ''] at every read of a line.  A list holds a string at every
      index: it stands for an array without holes, and for an array with
      holes only as the reducer reads it (see [arrSet]). *)

From Stdlib Require Import String Ascii.
From Stdlib Require Import ZArith List Bool Lia.
Import ListNotations.
Open Scope Z_scope.

(** ** Strings and code points *)

Definition codepoint := Z.
Definition str := list codepoint.

Definition LF : codepoint := 10.
Definition CR : codepoint := 13.
Definition DEL : codepoint := 127.
Definition SPACE : codepoint := 32.
Definition QUOTE : codepoint := 39.
Definition AT : codepoint := 64.

Definition len {A} (l : list A) : Z := Z.of_nat (length l).

(** [s.length] of a JavaScript string: UTF-16 code units. *)
Definition unitLength (c : codepoint) : Z := if 65535 <? c then 2 else 1.

Fixpoint jsLength (s : str) : Z :=
  match s with
  | [] => 0
  | c :: s' => unitLength c + jsLength s'
  end.

Fixpoint str_eqb (a b : str) : bool :=
  match a, b with
  | [], [] => true
  | x :: a', y :: b' => (x =? y) && str_eqb a' b'
  | _, _ => false
  end.

Definition clamp (v min max : Z) : Z :=
  if v <? min then min else if max <? v then max else v.

(** *** [textUtils.ts] *)

(** Modelled from the spec: [toCodePoints] of [utils/textUtils.ts], which is
    not among the sources; "lazy sequence of single-code-point strings". *)
Definition toCodePoints (s : str) : list codepoint := s.

(** Modelled from the spec: [cpLen] of [utils/textUtils.ts]; "count of code
    points". *)
Definition cpLen (s : str) : Z := len s.

(** Modelled from the spec: [cpSlice] of [utils/textUtils.ts]; "substring by
    code-point indices, clamped to [0, cpLen]; end defaults to end". *)
Definition cpSlice (s : str) (start : Z) (stop : option Z) : str :=
  let st := clamp start 0 (cpLen s) in
  let en := match stop with
            | Some e => clamp e 0 (cpLen s)
            | None => cpLen s
            end in
  firstn (Z.to_nat (en - st)) (skipn (Z.to_nat st) s).

(** *** Arrays *)

(** [a[i]]: [None] stands for [undefined]. *)
Definition arrGet {A} (a : list A) (i : Z) : option A :=
  if i <? 0 then None else nth_error a (Z.to_nat i).

Fixpoint listSet {A} (pad : A) (a : list A) (n : nat) (v : A) : list A :=
  match n, a with
  | O, [] => [v]
  | O, _ :: a' => v :: a'
  | S n', [] => pad :: listSet pad [] n' v
  | S n', x :: a' => x :: listSet pad a' n' v
  end.

(** An index of a JavaScript array of strings holds a string, holds
    [undefined], or is a hole: an index below the length that was never
    written. *)
Inductive cell : Type :=
  | Hole
  | Undefined
  | Line (s : str).

(** [c ?? '']: how the reducer reads a line ([currentLine]). *)
Definition readCell (c : cell) : str :=
  match c with
  | Line s => s
  | Hole | Undefined => []
  end.

(** The array as the reducer reads it, index by index. *)
Definition readCells (a : list cell) : list str := map readCell a.

(** An array of strings proper: a string at every index. *)
Definition dense (a : list cell) : Prop :=
  Forall (fun c => exists s, c = Line s) a.

(** [a[i] = v] as JavaScript has it.  Inside the array the element is
    replaced.  Past the end the array grows to length [i + 1] and the
    indices in between are holes.  A negative index names a property that
    is no element: the elements and the length stay as they are. *)
Definition cellsSet (a : list cell) (i : Z) (v : str) : list cell :=
  if i <? 0 then a else listSet Hole a (Z.to_nat i) (Line v).

(** [[...a]]: the copy holds [undefined] where [a] has a hole. *)
Definition spreadCells (a : list cell) : list cell :=
  map (fun c => match c with
                | Hole => Undefined
                | Undefined | Line _ => c
                end) a.

(** [a[i] = v] on the array as the reducer reads it: [readCells] of
    [cellsSet] (lemma [arrSet_reads_cellsSet]).  The reducer reads a line
    as [a[r] ?? ''] only, copies an array with the spread and splices it,
    and none of these tells a hole or [undefined] from ['']; so the model
    of the reducer keeps its arrays as read, and a write past the end shows
    there as empty strings up to the new element.

    The controller is not so uniform.  [lines.join] reads a hole and
    [undefined] as [''] too, but the [forEach] of [calculateVisualLayout]
    skips a hole, [logLine.length] throws on [undefined], and the
    [replaceRange] callback hands [lines[endRow]] to [cpLen] as it is,
    without [?? ''].  The layouter and the callbacks are therefore
    modelled on dense arrays only.  On a
    dense array a write inside the array or right at its end leaves the
    array dense (lemma [cellsSet_dense]); the reducer writes at the cursor
    row, at the row above it, or at a start row it has checked, so an
    array with a hole takes a cursor row beyond the last line. *)
Definition arrSet (a : list str) (i : Z) (v : str) : list str :=
  if i <? 0 then a else listSet [] a (Z.to_nat i) v.

(** A relative index of [slice] and [splice]: negative counts from the end,
    and the result is clamped to the array. *)
Definition relIndex (n k : Z) : Z :=
  if k <? 0 then Z.max (n + k) 0 else Z.min k n.

(** [a.slice(start, stop)]. *)
Definition arrSlice {A} (a : list A) (start stop : Z) : list A :=
  let st := relIndex (len a) start in
  let en := relIndex (len a) stop in
  firstn (Z.to_nat (en - st)) (skipn (Z.to_nat st) a).

(** [a.splice(start, deleteCount, ...items)], the array after the call. *)
Definition splice {A} (a : list A) (start deleteCount : Z) (items : list A)
  : list A :=
  let st := relIndex (len a) start in
  let dc := Z.min (Z.max deleteCount 0) (len a - st) in
  firstn (Z.to_nat st) a ++ items ++ skipn (Z.to_nat (st + dc)) a.

(** [a.slice(1)], [a.slice(0, -1)], [a.slice(1, -1)] and the last element. *)
Definition sliceFrom1 {A} (a : list A) : list A := tl a.
Definition sliceButLast {A} (a : list A) : list A := removelast a.
Definition lastElem {A} (a : list A) : option A :=
  match a with
  | [] => None
  | x :: a' => Some (last a' x)
  end.

(** [s.split('\n')]: never empty, [''.split('\n')] is [['']]. *)
Fixpoint splitLF (s : str) : list str :=
  match s with
  | [] => [[]]
  | c :: s' =>
      if c =? LF then [] :: splitLF s'
      else match splitLF s' with
           | [] => [[c]]
           | l :: ls => (c :: l) :: ls
           end
  end.

(** [parts.join('\n')]. *)
Fixpoint joinLF (parts : list str) : str :=
  match parts with
  | [] => []
  | [l] => l
  | l :: ls => l ++ LF :: joinLF ls
  end.

(** [s.replace(/\r\n/g, '\n')]. *)
Fixpoint replaceCRLF (s : str) : str :=
  match s with
  | [] => []
  | c :: s' =>
      match s' with
      | d :: s'' =>
          if (c =? CR) && (d =? LF) then LF :: replaceCRLF s''
          else c :: replaceCRLF s'
      | [] => [c]
      end
  end.

(** [s.replace(/\r/g, '\n')]. *)
Definition replaceCR (s : str) : str :=
  map (fun c => if c =? CR then LF else c) s.

(** [s.replace(/\r\n?/g, '\n')]. *)
Fixpoint replaceCRLFopt (s : str) : str :=
  match s with
  | [] => []
  | c :: s' =>
      if c =? CR then
        match s' with
        | d :: s'' =>
            if d =? LF then LF :: replaceCRLFopt s''
            else LF :: replaceCRLFopt s'
        | [] => [LF]
        end
      else c :: replaceCRLFopt s'
  end.

(** The class [\s] of a JavaScript regular expression. *)
Definition isRegexSpace (c : codepoint) : bool :=
  ((9 <=? c) && (c <=? 13)) || (c =? 32) || (c =? 160) || (c =? 5760)
  || ((8192 <=? c) && (c <=? 8202)) || (c =? 8232) || (c =? 8233)
  || (c =? 8239) || (c =? 8287) || (c =? 12288) || (c =? 65279).

(** [isWordChar]: [!/[\s,.;!?]/.test(ch)], [false] on [undefined]. *)
Definition isWordChar (ch : option codepoint) : bool :=
  match ch with
  | None => false
  | Some c =>
      negb (isRegexSpace c || (c =? 44) || (c =? 46) || (c =? 59)
            || (c =? 33) || (c =? 63))
  end.

(** ** Position mapper *)

Definition Position := (Z * Z)%type.

(** The [while] loop of [calculateInitialCursorPosition]; [None] when the
    loop ends without returning. *)
Fixpoint initialCursorLoop (rest : list str) (nLines row remainingChars : Z)
  : option Position :=
  match rest with
  | [] => None
  | line :: rest' =>
      let lineLength := cpLen line in
      let totalCharsInLineAndNewline :=
        lineLength + (if row <? nLines - 1 then 1 else 0) in
      if remainingChars <=? lineLength then Some (row, remainingChars)
      else initialCursorLoop rest' nLines (row + 1)
             (remainingChars - totalCharsInLineAndNewline)
  end.

Definition calculateInitialCursorPosition (initialLines : list str)
  (offset : Z) : Position :=
  match initialCursorLoop initialLines (len initialLines) 0 offset with
  | Some p => p
  | None =>
      match lastElem initialLines with
      | Some l => (len initialLines - 1, cpLen l)
      | None => (0, 0)
      end
  end.

(** The [for] loop of [offsetToLogicalPos] from index [i] on, [rest] being
    the lines from [i]; [None] when the loop ends without returning. *)
Fixpoint offsetLoop (rest : list str) (nLines i currentOffset offset : Z)
  : option Position :=
  match rest with
  | [] => None
  | line :: rest' =>
      let lineLength := cpLen line in
      let lineLengthWithNewline :=
        lineLength + (if i <? nLines - 1 then 1 else 0) in
      if offset <=? currentOffset + lineLength then
        Some (i, offset - currentOffset)
      else if offset <=? currentOffset + lineLengthWithNewline then
        if (offset =? currentOffset + lineLengthWithNewline)
           && (i <? nLines - 1)
        then Some (i + 1, 0)
        else Some (i, lineLength)
      else offsetLoop rest' nLines (i + 1)
             (currentOffset + lineLengthWithNewline) offset
  end.

Definition offsetToLogicalPos (text : str) (offset : Z) : Position :=
  if offset =? 0 then (0, 0)
  else
    let lines := splitLF text in
    match offsetLoop lines (len lines) 0 0 offset with
    | Some p => p
    | None =>
        match lastElem lines with
        | Some l => (len lines - 1, cpLen l)
        | None => (0, 0)
        end
    end.

(** ** Visual layouter *)

Record VisualLayout := mkVisualLayout {
  visualLines : list str;
  visualCursor : Position;
  logicalToVisualMap : list (list Position);
  visualToLogicalMap : list Position
}.

(** The variables of one pass of the inner [for] loop of
    [calculateVisualLayout]. *)
Record Chunk := mkChunk {
  currentChunk : str;
  currentChunkVisualWidth : Z;
  numCodePointsInChunk : Z;
  lastWordBreakPoint : Z;
  numCodePointsAtLastWordBreak : Z
}.

Definition emptyChunk : Chunk := mkChunk [] 0 0 (-1) 0.

(** What the [forEach] over the logical lines has built so far;
    [accRowMap] is [logicalToVisualMap[logIndex]] of the line at hand. *)
Record LayoutAcc := mkLayoutAcc {
  accVisualLines : list str;
  accRowMap : list Position;
  accVisualToLogical : list Position;
  accVisualCursor : Position
}.

Section Layouter.

(** [stringWidth] of the [string-width] package, a dependency that is not
    part of the repository: the terminal cell width of a string.  The
    layouter only applies it to one-code-point strings. *)
Variable stringWidth : str -> Z.

(** The inner [for] loop from index [i] on; [rest] holds the code points of
    the line from [i].  The result is the state at the [break], or at the
    end of the line. *)
Fixpoint buildChunk (codePointsInLogLine : list codepoint)
  (currentPosInLogLine viewportWidth : Z)
  (rest : list codepoint) (i : Z) (st : Chunk) : Chunk :=
  match rest with
  | [] => st
  | char :: rest' =>
      let charVisualWidth := stringWidth [char] in
      if viewportWidth <? currentChunkVisualWidth st + charVisualWidth then
        if negb (lastWordBreakPoint st =? -1)
           && (0 <? numCodePointsAtLastWordBreak st)
           && (currentPosInLogLine + numCodePointsAtLastWordBreak st <? i)
        then
          mkChunk
            (arrSlice codePointsInLogLine currentPosInLogLine
               (currentPosInLogLine + numCodePointsAtLastWordBreak st))
            (currentChunkVisualWidth st)
            (numCodePointsAtLastWordBreak st)
            (lastWordBreakPoint st)
            (numCodePointsAtLastWordBreak st)
        else if (numCodePointsInChunk st =? 0)
                && (viewportWidth <? charVisualWidth)
        then
          mkChunk [char] (currentChunkVisualWidth st) 1
            (lastWordBreakPoint st) (numCodePointsAtLastWordBreak st)
        else st
      else
        let num := numCodePointsInChunk st + 1 in
        let st' :=
          if char =? SPACE then
            mkChunk (currentChunk st ++ [char])
              (currentChunkVisualWidth st + charVisualWidth) num i (num - 1)
          else
            mkChunk (currentChunk st ++ [char])
              (currentChunkVisualWidth st + charVisualWidth) num
              (lastWordBreakPoint st) (numCodePointsAtLastWordBreak st) in
        buildChunk codePointsInLogLine currentPosInLogLine viewportWidth
          rest' (i + 1) st'
  end.

(** [codePointsInLogLine[currentPosInLogLine]] as a chunk; the index is
    inside the line wherever the source reads it. *)
Definition charAt (codePoints : list codepoint) (i : Z) : str :=
  match arrGet codePoints i with
  | Some c => [c]
  | None => []
  end.

(** The two guards after the inner loop, which take one code point when the
    chunk is still empty. *)
Definition forceAdvance (codePoints : list codepoint) (currentPos : Z)
  (st : Chunk) : Chunk :=
  if (numCodePointsInChunk st =? 0) && (currentPos <? len codePoints) then
    mkChunk (charAt codePoints currentPos) (currentChunkVisualWidth st) 1
      (lastWordBreakPoint st) (numCodePointsAtLastWordBreak st)
  else st.

(** The cursor mapping made for each chunk. *)
Definition chunkCursor (logIndex : Z) (logicalCursor : Position)
  (currentPos num nVisual : Z) (cur : Position) : Position :=
  if logIndex =? fst logicalCursor then
    let cursorLogCol := snd logicalCursor in
    if (currentPos <=? cursorLogCol) && (cursorLogCol <? currentPos + num)
    then (nVisual - 1, cursorLogCol - currentPos)
    else if (cursorLogCol =? currentPos + num) && (0 <? num)
    then (nVisual - 1, num)
    else cur
  else cur.

(** The [while] loop over one non-empty logical line.  Each pass takes at
    least one code point; [fuel] bounds the number of passes and [None]
    means it was too small. *)
Fixpoint wrapLine (fuel : nat) (codePoints : list codepoint)
  (logIndex : Z) (logicalCursor : Position) (viewportWidth : Z)
  (currentPos : Z) (acc : LayoutAcc) : option LayoutAcc :=
  if currentPos <? len codePoints then
    match fuel with
    | O => None
    | S fuel' =>
        let st := buildChunk codePoints currentPos viewportWidth
                    (skipn (Z.to_nat currentPos) codePoints) currentPos
                    emptyChunk in
        let st := forceAdvance codePoints currentPos st in
        let st := forceAdvance codePoints currentPos st in
        let num := numCodePointsInChunk st in
        let vls := accVisualLines acc ++ [currentChunk st] in
        let acc' :=
          mkLayoutAcc vls
            (accRowMap acc ++ [(len (accVisualLines acc), currentPos)])
            (accVisualToLogical acc ++ [(logIndex, currentPos)])
            (chunkCursor logIndex logicalCursor currentPos num (len vls)
               (accVisualCursor acc)) in
        let logicalStartOfThisChunk := currentPos in
        let next := currentPos + num in
        let next :=
          if (logicalStartOfThisChunk + num <? len codePoints)
             && (next <? len codePoints)
             && match arrGet codePoints next with
                | Some c => c =? SPACE
                | None => false
                end
          then next + 1 else next in
        wrapLine fuel' codePoints logIndex logicalCursor viewportWidth
          next acc'
    end
  else Some acc.

(** The cursor update made after all chunks of a non-empty line. *)
Definition lineEndCursor (codePoints : list codepoint) (logIndex : Z)
  (logicalCursor : Position) (acc : LayoutAcc) : LayoutAcc :=
  if (logIndex =? fst logicalCursor)
     && (snd logicalCursor =? len codePoints)
  then
    let lastVisualLineIdx := len (accVisualLines acc) - 1 in
    match arrGet (accVisualLines acc) lastVisualLineIdx with
    | Some l =>
        if 0 <=? lastVisualLineIdx then
          mkLayoutAcc (accVisualLines acc) (accRowMap acc)
            (accVisualToLogical acc) (lastVisualLineIdx, cpLen l)
        else acc
    | None => acc
    end
  else acc.

(** The body of the [forEach]: one logical line.  The result carries the
    finished [logicalToVisualMap[logIndex]] in [accRowMap]. *)
Definition layoutLine (logLine : str) (logIndex : Z)
  (logicalCursor : Position) (viewportWidth : Z) (acc : LayoutAcc)
  : option LayoutAcc :=
  let acc := mkLayoutAcc (accVisualLines acc) [] (accVisualToLogical acc)
               (accVisualCursor acc) in
  if jsLength logLine =? 0 then
    let vls := accVisualLines acc ++ [[]] in
    Some (mkLayoutAcc vls
            (accRowMap acc ++ [(len (accVisualLines acc), 0)])
            (accVisualToLogical acc ++ [(logIndex, 0)])
            (if (logIndex =? fst logicalCursor) && (snd logicalCursor =? 0)
             then (len vls - 1, 0) else accVisualCursor acc))
  else
    let codePointsInLogLine := toCodePoints logLine in
    match wrapLine (length codePointsInLogLine) codePointsInLogLine logIndex
            logicalCursor viewportWidth 0 acc with
    | Some acc' =>
        Some (lineEndCursor codePointsInLogLine logIndex logicalCursor acc')
    | None => None
    end.

(** The [forEach] from index [logIndex] on; the second component is
    [logicalToVisualMap]. *)
Fixpoint layoutLines (rest : list str) (logIndex : Z)
  (logicalCursor : Position) (viewportWidth : Z)
  (acc : LayoutAcc) (l2v : list (list Position))
  : option (LayoutAcc * list (list Position)) :=
  match rest with
  | [] => Some (acc, l2v)
  | logLine :: rest' =>
      match layoutLine logLine logIndex logicalCursor viewportWidth acc with
      | Some acc' =>
          layoutLines rest' (logIndex + 1) logicalCursor viewportWidth
            acc' (l2v ++ [accRowMap acc'])
      | None => None
      end
  end.

(** [calculateVisualLayout]; [None] only if some [while] loop ran out of
    fuel, which [calculateVisualLayout_total] excludes. *)
Definition calculateVisualLayout (logicalLines : list str)
  (logicalCursor : Position) (viewportWidth : Z) : option VisualLayout :=
  match layoutLines logicalLines 0 logicalCursor viewportWidth
          (mkLayoutAcc [] [] [] (0, 0)) [] with
  | None => None
  | Some (acc, l2v) =>
      let vls := accVisualLines acc in
      let v2l := accVisualToLogical acc in
      let cur := accVisualCursor acc in
      if (len logicalLines =? 0)
         || ((len logicalLines =? 1)
             && match logicalLines with
                | l :: _ => str_eqb l []
                | [] => false
                end)
      then
        if len vls =? 0 then
          Some (mkVisualLayout (vls ++ [[]]) (0, 0)
                  (match l2v with
                   | [] => [[(0, 0)]]
                   | r :: l2v' => (r ++ [(0, 0)]) :: l2v'
                   end)
                  (v2l ++ [(0, 0)]))
        else Some (mkVisualLayout vls (0, 0) l2v v2l)
      else if (fst logicalCursor =? len logicalLines - 1)
              && (snd logicalCursor
                  =? match lastElem logicalLines with
                     | Some l => cpLen l
                     | None => 0
                     end)
              && (0 <? len vls)
      then
        Some (mkVisualLayout vls
                (len vls - 1,
                 match lastElem vls with
                 | Some l => cpLen l
                 | None => 0
                 end)
                l2v v2l)
      else Some (mkVisualLayout vls cur l2v v2l)
  end.

End Layouter.

(** ** Edit engine *)

Inductive Direction :=
| DirLeft | DirRight | DirUp | DirDown
| DirWordLeft | DirWordRight | DirHome | DirEnd.

Inductive UpdateOperation :=
| OpInsert (payload : str)
| OpBackspace.

Record UndoHistoryEntry := mkEntry {
  entryLines : list str;
  entryCursorRow : Z;
  entryCursorCol : Z
}.

Record TextBufferState := mkState {
  lines : list str;
  cursorRow : Z;
  cursorCol : Z;
  preferredCol : option Z;
  undoStack : list UndoHistoryEntry;
  redoStack : list UndoHistoryEntry;
  clipboard : option str;
  selectionAnchor : option Position
}.

Definition historyLimit : Z := 100.

Inductive TextBufferAction :=
| SET_TEXT (payload : str) (pushToUndo : option bool)
| APPLY_OPERATIONS (payload : list UpdateOperation)
| MOVE (dir : Direction) (visualLayout : VisualLayout)
| DELETE
| DELETE_WORD_LEFT
| DELETE_WORD_RIGHT
| KILL_LINE_RIGHT
| KILL_LINE_LEFT
| UNDO
| REDO
| REPLACE_RANGE (startRow startCol endRow endCol : Z) (text : str)
| MOVE_TO_OFFSET (text : str) (offset : Z)
| COPY
| PASTE
| START_SELECTION.

(** Object spreads [{ ...s, field: v }]. *)
Definition setLines (s : TextBufferState) (v : list str) :=
  mkState v (cursorRow s) (cursorCol s) (preferredCol s) (undoStack s)
    (redoStack s) (clipboard s) (selectionAnchor s).
Definition setCursor (s : TextBufferState) (r c : Z) :=
  mkState (lines s) r c (preferredCol s) (undoStack s) (redoStack s)
    (clipboard s) (selectionAnchor s).
Definition setCursorCol (s : TextBufferState) (c : Z) :=
  setCursor s (cursorRow s) c.
Definition setPreferredCol (s : TextBufferState) (v : option Z) :=
  mkState (lines s) (cursorRow s) (cursorCol s) v (undoStack s)
    (redoStack s) (clipboard s) (selectionAnchor s).
Definition setStacks (s : TextBufferState)
  (u r : list UndoHistoryEntry) :=
  mkState (lines s) (cursorRow s) (cursorCol s) (preferredCol s) u r
    (clipboard s) (selectionAnchor s).
Definition setClipboard (s : TextBufferState) (v : option str) :=
  mkState (lines s) (cursorRow s) (cursorCol s) (preferredCol s)
    (undoStack s) (redoStack s) v (selectionAnchor s).
Definition setSelectionAnchor (s : TextBufferState) (v : option Position) :=
  mkState (lines s) (cursorRow s) (cursorCol s) (preferredCol s)
    (undoStack s) (redoStack s) (clipboard s) v.

(** [{ ...s, ...entry }]: the three fields of a history entry overwrite
    those of the state. *)
Definition restoreEntry (s : TextBufferState) (e : UndoHistoryEntry) :=
  setCursor (setLines s (entryLines e)) (entryCursorRow e)
    (entryCursorCol e).

Definition snapshotOf (s : TextBufferState) : UndoHistoryEntry :=
  mkEntry (lines s) (cursorRow s) (cursorCol s).

Definition pushUndo (currentState : TextBufferState) : TextBufferState :=
  let snapshot := snapshotOf currentState in
  let newStack := undoStack currentState ++ [snapshot] in
  let newStack :=
    if historyLimit <? len newStack then tl newStack else newStack in
  setStacks currentState newStack [].

(** [lines[r] ?? '']. *)
Definition lineAt (ls : list str) (r : Z) : str :=
  match arrGet ls r with
  | Some l => l
  | None => []
  end.

(** The expansion loop of APPLY_OPERATIONS over the code points of one
    insert payload: the operations pushed, in order, and [currentText] at
    the end. *)
Fixpoint expandPayload (chars : list codepoint) (currentText : str)
  : list UpdateOperation * str :=
  match chars with
  | [] => ([], currentText)
  | char :: chars' =>
      if char =? DEL then
        let pushed :=
          if 0 <? jsLength currentText
          then [OpInsert currentText; OpBackspace] else [OpBackspace] in
        let (more, final) := expandPayload chars' [] in
        (pushed ++ more, final)
      else expandPayload chars' (currentText ++ [char])
  end.

Definition expandOp (op : UpdateOperation) : list UpdateOperation :=
  match op with
  | OpInsert payload =>
      let (pushed, currentText) := expandPayload (toCodePoints payload) [] in
      if 0 <? jsLength currentText
      then pushed ++ [OpInsert currentText] else pushed
  | OpBackspace => [op]
  end.

Definition expandOps (ops : list UpdateOperation) : list UpdateOperation :=
  flat_map expandOp ops.

(** The first loop of DELETE_WORD_LEFT: is there a word character among
    [arr[0 .. start-1]]?  [i] counts up to [start]. *)
Fixpoint anyWordChar (arr : list codepoint) (i : Z) (n : nat) : bool :=
  match n with
  | O => false
  | S n' => isWordChar (arrGet arr i) || anyWordChar arr (i + 1) n'
  end.

(** [while (start > 0 && p(arr[start - 1])) start--]. *)
Fixpoint scanLeft (p : option codepoint -> bool) (arr : list codepoint)
  (start : nat) : nat :=
  match start with
  | O => O
  | S n =>
      if p (arrGet arr (Z.of_nat n)) then scanLeft p arr n else start
  end.

(** [while (end < arr.length && p(arr[end])) end++], the number of steps
    made over [rest], the code points from [end] on. *)
Fixpoint scanRight (p : option codepoint -> bool) (rest : list codepoint)
  : Z :=
  match rest with
  | [] => 0
  | c :: rest' => if p (Some c) then 1 + scanRight p rest' else 0
  end.

Definition notWordChar (ch : option codepoint) : bool :=
  negb (isWordChar ch).

Section Engine.

(** [stripAnsi] of the [strip-ansi] package, a dependency that is not part
    of the repository: it removes the ANSI escape sequences of a string. *)
Variable stripAnsi : str -> str.

Definition isUnsafe (code : codepoint) : bool :=
  (code =? 127) || ((code <=? 31) && negb (code =? 13) && negb (code =? 10)).

(** The callback of the [filter] in [stripUnsafeCharacters]. *)
Definition keepChar (char : codepoint) : bool :=
  if 1 <? unitLength char then false else negb (isUnsafe char).

Definition stripUnsafeCharacters (s : str) : str :=
  let stripped := stripAnsi s in
  filter keepChar (toCodePoints (stripAnsi stripped)).

(** The text inserted at the cursor by the insert operation and by PASTE:
    the lines and the cursor after it. *)
Definition insertParts (newLines : list str) (row col : Z)
  (parts : list str) : list str * Z * Z :=
  let lineContent := lineAt newLines row in
  let before := cpSlice lineContent 0 (Some col) in
  let after := cpSlice lineContent col None in
  if 1 <? len parts then
    let newLines := arrSet newLines row (before ++ lineAt parts 0) in
    let remainingParts := sliceFrom1 parts in
    let lastPartOriginal :=
      match lastElem remainingParts with
      | Some l => l
      | None => []
      end in
    let remainingParts := sliceButLast remainingParts in
    let newLines := splice newLines (row + 1) 0 remainingParts in
    let newLines :=
      splice newLines (row + len parts - 1) 0 [lastPartOriginal ++ after] in
    (newLines, row + len parts - 1, cpLen lastPartOriginal)
  else
    (arrSet newLines row (before ++ lineAt parts 0 ++ after),
     row, cpLen before + cpLen (lineAt parts 0)).

(** One pass of the loop of APPLY_OPERATIONS over the expanded operations. *)
Definition applyOp (st : list str * Z * Z) (op : UpdateOperation)
  : list str * Z * Z :=
  let '(newLines, newCursorRow, newCursorCol) := st in
  match op with
  | OpInsert payload =>
      let s := stripUnsafeCharacters (replaceCR (replaceCRLF payload)) in
      insertParts newLines newCursorRow newCursorCol (splitLF s)
  | OpBackspace =>
      if (newCursorCol =? 0) && (newCursorRow =? 0) then st
      else if 0 <? newCursorCol then
        let lineContent := lineAt newLines newCursorRow in
        (arrSet newLines newCursorRow
           (cpSlice lineContent 0 (Some (newCursorCol - 1))
            ++ cpSlice lineContent newCursorCol None),
         newCursorRow, newCursorCol - 1)
      else if 0 <? newCursorRow then
        let prevLineContent := lineAt newLines (newCursorRow - 1) in
        let currentLineContentVal := lineAt newLines newCursorRow in
        let newCol := cpLen prevLineContent in
        let newLines :=
          arrSet newLines (newCursorRow - 1)
            (prevLineContent ++ currentLineContentVal) in
        (splice newLines newCursorRow 1 [], newCursorRow - 1, newCol)
      else st
  end.

(** The line join shared by DELETE, DELETE_WORD_RIGHT and KILL_LINE_RIGHT at
    the end of a line that is not the last. *)
Definition joinWithNext (state : TextBufferState) : TextBufferState :=
  let cursorRow := cursorRow state in
  let lineContent := lineAt (lines state) cursorRow in
  let nextState := pushUndo state in
  let nextLineContent := lineAt (lines state) (cursorRow + 1) in
  let newLines := lines nextState in
  let newLines := arrSet newLines cursorRow (lineContent ++ nextLineContent) in
  let newLines := splice newLines (cursorRow + 1) 1 [] in
  setPreferredCol (setLines nextState newLines) None.

(** The line merge of DELETE_WORD_LEFT at column 0. *)
Definition joinWithPrevious (state : TextBufferState) : TextBufferState :=
  let cursorRow := cursorRow state in
  let nextState := pushUndo state in
  let prevLineContent := lineAt (lines state) (cursorRow - 1) in
  let currentLineContentVal := lineAt (lines state) cursorRow in
  let newCol := cpLen prevLineContent in
  let newLines := lines nextState in
  let newLines :=
    arrSet newLines (cursorRow - 1)
      (prevLineContent ++ currentLineContentVal) in
  let newLines := splice newLines cursorRow 1 [] in
  setPreferredCol
    (setCursor (setLines nextState newLines) (cursorRow - 1) newCol) None.

(** [start] after the scan of DELETE_WORD_LEFT. *)
Definition wordStartLeft (arr : list codepoint) (cursorCol : Z) : Z :=
  let start := cursorCol in
  let onlySpaces := negb (anyWordChar arr 0 (Z.to_nat start)) in
  if onlySpaces && (0 <? start) then start - 1
  else if 0 <? start then
    Z.of_nat (scanLeft isWordChar arr
                (scanLeft notWordChar arr (Z.to_nat start)))
  else start.

(** One [while] loop of DELETE_WORD_RIGHT from [stop] on.  Left of the
    array [arr[stop]] is [undefined]. *)
Definition scanRightFrom (p : option codepoint -> bool)
  (arr : list codepoint) (stop : Z) : Z :=
  if stop <? 0 then
    if p None then scanRight p arr else stop
  else stop + scanRight p (skipn (Z.to_nat stop) arr).

Definition wordEndRight (arr : list codepoint) (cursorCol : Z) : Z :=
  scanRightFrom isWordChar arr (scanRightFrom notWordChar arr cursorCol).

(** The lines [r .. r + n - 1], each read with [?? '']. *)
Fixpoint linesFrom (ls : list str) (r : Z) (n : nat) : list str :=
  match n with
  | O => []
  | S n' => lineAt ls r :: linesFrom ls (r + 1) n'
  end.

Definition moveCursor (state : TextBufferState) (dir : Direction)
  (visualLayout : VisualLayout) : TextBufferState :=
  let visualLines := visualLines visualLayout in
  let visualCursor := visualCursor visualLayout in
  let visualToLogicalMap := visualToLogicalMap visualLayout in
  let newVisualRow := fst visualCursor in
  let newVisualCol := snd visualCursor in
  let newPreferredCol := preferredCol state in
  let currentVisLineLen := cpLen (lineAt visualLines newVisualRow) in
  let '(newVisualRow, newVisualCol, newPreferredCol) :=
    match dir with
    | DirLeft =>
        if 0 <? newVisualCol then (newVisualRow, newVisualCol - 1, None)
        else if 0 <? newVisualRow then
          (newVisualRow - 1, cpLen (lineAt visualLines (newVisualRow - 1)),
           None)
        else (newVisualRow, newVisualCol, None)
    | DirRight =>
        if newVisualCol <? currentVisLineLen then
          (newVisualRow, newVisualCol + 1, None)
        else if newVisualRow <? len visualLines - 1 then
          (newVisualRow + 1, 0, None)
        else (newVisualRow, newVisualCol, None)
    | DirUp =>
        if 0 <? newVisualRow then
          let pc := match newPreferredCol with
                    | Some c => c
                    | None => newVisualCol
                    end in
          (newVisualRow - 1,
           clamp pc 0 (cpLen (lineAt visualLines (newVisualRow - 1))),
           Some pc)
        else (newVisualRow, newVisualCol, newPreferredCol)
    | DirDown =>
        if newVisualRow <? len visualLines - 1 then
          let pc := match newPreferredCol with
                    | Some c => c
                    | None => newVisualCol
                    end in
          (newVisualRow + 1,
           clamp pc 0 (cpLen (lineAt visualLines (newVisualRow + 1))),
           Some pc)
        else (newVisualRow, newVisualCol, newPreferredCol)
    | DirHome => (newVisualRow, 0, None)
    | DirEnd => (newVisualRow, currentVisLineLen, None)
    | DirWordLeft | DirWordRight =>
        (newVisualRow, newVisualCol, newPreferredCol)
    end in
  match arrGet visualToLogicalMap newVisualRow with
  | Some (logRow, logStartCol) =>
      setPreferredCol
        (setCursor state logRow
           (clamp (logStartCol + newVisualCol) 0
              (cpLen (lineAt (lines state) logRow))))
        newPreferredCol
  | None => state
  end.

Definition replaceRangeState (state : TextBufferState)
  (startRow startCol endRow endCol : Z) (text : str) : TextBufferState :=
  let currentLine := lineAt (lines state) in
  let currentLineLen := fun r => cpLen (currentLine r) in
  if (endRow <? startRow)
     || ((startRow =? endRow) && (endCol <? startCol))
     || (startRow <? 0)
     || (startCol <? 0)
     || (len (lines state) <=? endRow)
     || ((endRow <? len (lines state)) && (currentLineLen endRow <? endCol))
  then state
  else
    let nextState := pushUndo state in
    let newLines := lines nextState in
    let sCol := clamp startCol 0 (currentLineLen startRow) in
    let eCol := clamp endCol 0 (currentLineLen endRow) in
    let prefix := cpSlice (currentLine startRow) 0 (Some sCol) in
    let suffix := cpSlice (currentLine endRow) eCol None in
    let normalisedReplacement := replaceCR (replaceCRLF text) in
    let replacementParts := splitLF normalisedReplacement in
    let lastPart := match lastElem replacementParts with
                    | Some l => l
                    | None => []
                    end in
    let newLines :=
      if startRow =? endRow then
        arrSet newLines startRow (prefix ++ normalisedReplacement ++ suffix)
      else
        let firstLine := prefix ++ lineAt replacementParts 0 in
        if len replacementParts =? 1 then
          splice newLines startRow (endRow - startRow + 1)
            [firstLine ++ suffix]
        else
          let lastLine := lastPart ++ suffix in
          let middleLines := arrSlice replacementParts 1 (-1) in
          splice newLines startRow (endRow - startRow + 1)
            (firstLine :: middleLines ++ [lastLine]) in
    let finalCursorRow := startRow + len replacementParts - 1 in
    let finalCursorCol :=
      (if 1 <? len replacementParts then 0 else sCol) + cpLen lastPart in
    setPreferredCol
      (setCursor (setLines nextState newLines) finalCursorRow finalCursorCol)
      None.

Definition copySelection (state : TextBufferState) : TextBufferState :=
  match selectionAnchor state with
  | None => state
  | Some (ar, ac) =>
      let br := cursorRow state in
      let bc := cursorCol state in
      if (ar =? br) && (ac =? bc) then state
      else
        let currentLine := lineAt (lines state) in
        let topBefore := (ar <? br) || ((ar =? br) && (ac <? bc)) in
        let '(sr, sc, er, ec) :=
          if topBefore then (ar, ac, br, bc) else (br, bc, ar, ac) in
        let selectedTextVal :=
          if sr =? er then cpSlice (currentLine sr) sc (Some ec)
          else
            joinLF (cpSlice (currentLine sr) sc None
                    :: linesFrom (lines state) (sr + 1)
                         (Z.to_nat (er - (sr + 1)))
                    ++ [cpSlice (currentLine er) 0 (Some ec)]) in
        setClipboard state (Some selectedTextVal)
  end.

Definition textBufferReducer (state : TextBufferState)
  (action : TextBufferAction) : TextBufferState :=
  let currentLine := lineAt (lines state) in
  let currentLineLen := fun r => cpLen (currentLine r) in
  match action with
  | SET_TEXT payload pushToUndo =>
      let nextState :=
        match pushToUndo with
        | Some false => state
        | _ => pushUndo state
        end in
      let newContentLines := splitLF (replaceCRLFopt payload) in
      let lines := if len newContentLines =? 0 then [[]]
                   else newContentLines in
      let lastNewLineIndex := len lines - 1 in
      setPreferredCol
        (setCursor (setLines nextState lines) lastNewLineIndex
           (cpLen (lineAt lines lastNewLineIndex)))
        None

  | APPLY_OPERATIONS payload =>
      if len payload =? 0 then state
      else
        let expandedOps := expandOps payload in
        if len expandedOps =? 0 then state
        else
          let nextState := pushUndo state in
          let '(newLines, newCursorRow, newCursorCol) :=
            fold_left applyOp expandedOps
              (lines nextState, cursorRow nextState, cursorCol nextState) in
          setPreferredCol
            (setCursor (setLines nextState newLines)
               newCursorRow newCursorCol)
            None

  | MOVE dir visualLayout => moveCursor state dir visualLayout

  | DELETE =>
      let cursorRow := cursorRow state in
      let cursorCol := cursorCol state in
      let lineContent := currentLine cursorRow in
      if cursorCol <? currentLineLen cursorRow then
        let nextState := pushUndo state in
        let newLines :=
          arrSet (lines nextState) cursorRow
            (cpSlice lineContent 0 (Some cursorCol)
             ++ cpSlice lineContent (cursorCol + 1) None) in
        setPreferredCol (setLines nextState newLines) None
      else if cursorRow <? len (lines state) - 1 then joinWithNext state
      else state

  | DELETE_WORD_LEFT =>
      let cursorRow := cursorRow state in
      let cursorCol := cursorCol state in
      if (cursorCol =? 0) && (cursorRow =? 0) then state
      else if cursorCol =? 0 then joinWithPrevious state
      else
        let nextState := pushUndo state in
        let lineContent := currentLine cursorRow in
        let arr := toCodePoints lineContent in
        let start := wordStartLeft arr cursorCol in
        let newLines :=
          arrSet (lines nextState) cursorRow
            (cpSlice lineContent 0 (Some start)
             ++ cpSlice lineContent cursorCol None) in
        setPreferredCol (setCursorCol (setLines nextState newLines) start)
          None

  | DELETE_WORD_RIGHT =>
      let cursorRow := cursorRow state in
      let cursorCol := cursorCol state in
      let lineContent := currentLine cursorRow in
      let arr := toCodePoints lineContent in
      if (len arr <=? cursorCol) && (cursorRow =? len (lines state) - 1)
      then state
      else if len arr <=? cursorCol then joinWithNext state
      else
        let nextState := pushUndo state in
        let stop := wordEndRight arr cursorCol in
        let newLines :=
          arrSet (lines nextState) cursorRow
            (cpSlice lineContent 0 (Some cursorCol)
             ++ cpSlice lineContent stop None) in
        setPreferredCol (setLines nextState newLines) None

  | KILL_LINE_RIGHT =>
      let cursorRow := cursorRow state in
      let cursorCol := cursorCol state in
      let lineContent := currentLine cursorRow in
      if cursorCol <? currentLineLen cursorRow then
        let nextState := pushUndo state in
        let newLines :=
          arrSet (lines nextState) cursorRow
            (cpSlice lineContent 0 (Some cursorCol)) in
        setLines nextState newLines
      else if cursorRow <? len (lines state) - 1 then joinWithNext state
      else state

  | KILL_LINE_LEFT =>
      let cursorRow := cursorRow state in
      let cursorCol := cursorCol state in
      if 0 <? cursorCol then
        let nextState := pushUndo state in
        let lineContent := currentLine cursorRow in
        let newLines :=
          arrSet (lines nextState) cursorRow
            (cpSlice lineContent cursorCol None) in
        setPreferredCol (setCursorCol (setLines nextState newLines) 0) None
      else state

  | UNDO =>
      match lastElem (undoStack state) with
      | None => state
      | Some stateToRestore =>
          let currentSnapshot := snapshotOf state in
          setStacks (restoreEntry state stateToRestore)
            (sliceButLast (undoStack state))
            (redoStack state ++ [currentSnapshot])
      end

  | REDO =>
      match lastElem (redoStack state) with
      | None => state
      | Some stateToRestore =>
          let currentSnapshot := snapshotOf state in
          setStacks (restoreEntry state stateToRestore)
            (undoStack state ++ [currentSnapshot])
            (sliceButLast (redoStack state))
      end

  | PASTE =>
      match clipboard state with
      | None => state
      | Some clip =>
          let nextState := pushUndo state in
          let pasteContent :=
            stripUnsafeCharacters (replaceCR (replaceCRLF clip)) in
          let parts := splitLF pasteContent in
          let '(newLines, newCursorRow, newCursorCol) :=
            insertParts (lines nextState) (cursorRow nextState)
              (cursorCol nextState) parts in
          setPreferredCol
            (setCursor (setLines nextState newLines)
               newCursorRow newCursorCol)
            None
      end

  | REPLACE_RANGE startRow startCol endRow endCol text =>
      replaceRangeState state startRow startCol endRow endCol text

  | MOVE_TO_OFFSET text offset =>
      let (newRow, newCol) := offsetToLogicalPos text offset in
      setPreferredCol (setCursor state newRow newCol) None

  | COPY => copySelection state

  | START_SELECTION =>
      setSelectionAnchor state (Some (cursorRow state, cursorCol state))
  end.

End Engine.

(** ** Controller: the callbacks of [useTextBuffer]

    A callback is created in a render and closes over the values of that
    render: the state, [text], the cursor and the layout are constants in
    its body.  [dispatch] queues an action for the reducer; the next render
    sees the state after the queued actions.  A callback is therefore
    modelled by the list of actions it dispatches, together with its return
    value where it has one. *)

(** A string literal of the source as a list of code points. *)
Definition lit (s : String.string) : str :=
  map (fun a => Z.of_N (Ascii.N_of_ascii a)) (String.list_ascii_of_string s).

Record Key := mkKey {
  name : str;
  ctrl : bool;
  meta : bool;
  shift : bool;
  paste : bool;
  sequence : str
}.

(** [key.name === s]. *)
Definition keyNamed (key : Key) (s : String.string) : bool :=
  str_eqb (name key) (lit s).

(** The state of the next render: the reducer run over the queue. *)
Definition dispatchAll (stripAnsi : str -> str) (state : TextBufferState)
  (queue : list TextBufferAction) : TextBufferState :=
  fold_left (textBufferReducer stripAnsi) queue state.

Fixpoint trimStart (s : str) : str :=
  match s with
  | c :: s' => if isRegexSpace c then trimStart s' else s
  | [] => []
  end.

(** [s.trim()]. *)
Definition trim (s : str) : str := rev (trimStart (rev (trimStart s))).

Definition startsWithQuote (s : str) : bool :=
  match s with
  | c :: _ => c =? QUOTE
  | [] => false
  end.

Definition endsWithQuote (s : str) : bool :=
  match lastElem s with
  | Some c => c =? QUOTE
  | None => false
  end.

Section Controller.

Variable stripAnsi : str -> str.
Variable stringWidth : str -> Z.

(** The host's path predicate and [unescapePath] of the core package,
    neither of which is part of the sources. *)
Variable isValidPath : str -> bool.
Variable unescapePath : str -> str.

(** The render: its state and the width of the viewport. *)
Variable state : TextBufferState.
Variable viewportWidth : Z.

Definition text : str := joinLF (lines state).

Definition applyOperations (ops : list UpdateOperation)
  : list TextBufferAction :=
  [APPLY_OPERATIONS ops].

(** [insert].  After [stripUnsafeCharacters] every code point of [ch] is
    one UTF-16 unit, so [ch.slice(1, -1)] cuts code points. *)
Definition insert (ch : str) : list TextBufferAction :=
  if existsb (fun c => (c =? LF) || (c =? CR)) ch then
    applyOperations [OpInsert ch]
  else
    let ch := stripUnsafeCharacters stripAnsi ch in
    let minLengthToInferAsDragDrop := 3 in
    let ch :=
      if minLengthToInferAsDragDrop <=? jsLength ch then
        let potentialPath :=
          if (2 <? jsLength ch) && startsWithQuote ch && endsWithQuote ch
          then arrSlice ch 1 (-1) else ch in
        let potentialPath := trim potentialPath in
        if isValidPath (unescapePath potentialPath)
        then AT :: potentialPath else ch
      else ch in
    applyOperations [OpInsert ch].

Definition newline : list TextBufferAction :=
  applyOperations [OpInsert [LF]].

Definition backspace : list TextBufferAction :=
  if (cursorCol state =? 0) && (cursorRow state =? 0) then []
  else applyOperations [OpBackspace].

Definition del : list TextBufferAction := [DELETE].

(** [move]: the layout of the render goes into the action. *)
Definition move (dir : Direction) : list TextBufferAction :=
  match calculateVisualLayout stringWidth (lines state)
          (cursorRow state, cursorCol state) viewportWidth with
  | Some visualLayout => [MOVE dir visualLayout]
  | None => []
  end.

Definition undo : list TextBufferAction * bool :=
  ([UNDO], 0 <? len (undoStack state)).

Definition redo : list TextBufferAction * bool :=
  ([REDO], 0 <? len (redoStack state)).

Definition setText (newText : str) : list TextBufferAction :=
  [SET_TEXT newText None].

Definition replaceRange (startRow startCol endRow endCol : Z) (text : str)
  : list TextBufferAction * bool :=
  if (endRow <? startRow)
     || ((startRow =? endRow) && (endCol <? startCol))
     || (startRow <? 0)
     || (startCol <? 0)
     || (len (lines state) <=? endRow)
     || ((endRow <? len (lines state))
         && (cpLen (lineAt (lines state) endRow) <? endCol))
  then ([], false)
  else ([REPLACE_RANGE startRow startCol endRow endCol text], true).

Definition replaceRangeByOffset (startOffset endOffset : Z)
  (replacementText : str) : list TextBufferAction * bool :=
  let (startRow, startCol) := offsetToLogicalPos text startOffset in
  let (endRow, endCol) := offsetToLogicalPos text endOffset in
  replaceRange startRow startCol endRow endCol replacementText.

Definition moveToOffset (offset : Z) : list TextBufferAction :=
  [MOVE_TO_OFFSET text offset].

Definition deleteWordLeft : list TextBufferAction := [DELETE_WORD_LEFT].
Definition deleteWordRight : list TextBufferAction := [DELETE_WORD_RIGHT].
Definition killLineRight : list TextBufferAction := [KILL_LINE_RIGHT].
Definition killLineLeft : list TextBufferAction := [KILL_LINE_LEFT].

(** [handleInput]: the actions dispatched and the value returned.
    [text], [cursorRow] and [cursorCol] are the constants of the render;
    the calls in between dispatch and do not assign them, so the
    comparisons at the end see the values [beforeText] and [beforeCursor]
    were taken from. *)
Definition handleInput (key : Key) : list TextBufferAction * bool :=
  let cursorRow := cursorRow state in
  let cursorCol := cursorCol state in
  let input := sequence key in
  let beforeText := text in
  let beforeCursor := (cursorRow, cursorCol) in
  if keyNamed key "escape" then ([], false)
  else
    let dispatched :=
      if keyNamed key "return" || str_eqb input [CR] || str_eqb input [LF]
      then newline
      else if keyNamed key "left" && negb (meta key) && negb (ctrl key)
      then move DirLeft
      else if keyNamed key "right" && negb (meta key) && negb (ctrl key)
      then move DirRight
      else if keyNamed key "up" then move DirUp
      else if keyNamed key "down" then move DirDown
      else if keyNamed key "home" then move DirHome
      else if keyNamed key "end" then move DirEnd
      else if keyNamed key "backspace" || str_eqb input [DEL] then backspace
      else if keyNamed key "delete" || (ctrl key && keyNamed key "d") then del
      else if (0 <? jsLength input) && negb (ctrl key) && negb (meta key)
      then insert input
      else [] in
    let textChanged := negb (str_eqb text beforeText) in
    let cursorChanged :=
      negb (cursorRow =? fst beforeCursor)
      || negb (cursorCol =? snd beforeCursor) in
    (dispatched, textChanged || cursorChanged).

End Controller.

(** The state the hook starts from. *)
Definition initialState (initialText : str) (initialCursorOffset : Z)
  : TextBufferState :=
  let lines := splitLF initialText in
  let lines := if len lines =? 0 then [[]] else lines in
  let (initialCursorRow, initialCursorCol) :=
    calculateInitialCursorPosition lines initialCursorOffset in
  mkState lines initialCursorRow initialCursorCol None [] [] None None.

(** ** Controller: the view, the clipboard, the editor and sessions *)



Definition startSelection : list TextBufferAction := [START_SELECTION].

(** The scroll effect of [useTextBuffer]: [visualScrollRow] after the
    effect ran once. *)
Definition updateVisualScroll (visualCursor : Position)
  (visualScrollRow height : Z) : Z :=
  let newVisualScrollRow :=
    if fst visualCursor <? visualScrollRow then fst visualCursor
    else if visualScrollRow + height <=? fst visualCursor
    then fst visualCursor - height + 1
    else visualScrollRow in
  newVisualScrollRow.

(** [renderedVisualLines]:
    [visualLines.slice(visualScrollRow, visualScrollRow + viewport.height)]. *)
Definition renderedVisualLines (visualLines : list str)
  (visualScrollRow height : Z) : list str :=
  arrSlice visualLines visualScrollRow (visualScrollRow + height).


(** A session of the hook: the renders in order, each with the width of
    its viewport and the key it handles; the state of a render is the
    state after the actions the render before dispatched. *)
Definition session (stripAnsi : str -> str) (stringWidth : str -> Z)
  (isValidPath : str -> bool) (unescapePath : str -> str)
  (renders : list (Z * Key)) (s : TextBufferState) : TextBufferState :=
  fold_left
    (fun s render =>
       dispatchAll stripAnsi s
         (fst (handleInput stripAnsi stringWidth isValidPath unescapePath s
                 (fst render) (snd render))))
    renders s.

(** ** Notions the properties are stated with *)

(** A position of the buffer: a row of [ls] and a column within the code
    points of that row. *)
Definition validPosition (ls : list str) (p : Position) : Prop :=
  0 <= fst p < len ls /\ 0 <= snd p <= cpLen (lineAt ls (fst p)).

(** The invariant of the data model: at least one line, and the cursor is
    a position. *)
Definition wellFormed (s : TextBufferState) : Prop :=
  lines s <> [] /\ validPosition (lines s) (cursorRow s, cursorCol s).

(** The actions that take a snapshot before they edit: every edit but a
    SET_TEXT dispatched with [pushToUndo: false]. *)
Definition takesSnapshot (a : TextBufferAction) : bool :=
  match a with
  | SET_TEXT _ (Some false) => false
  | SET_TEXT _ _ | APPLY_OPERATIONS _ | DELETE | DELETE_WORD_LEFT
  | DELETE_WORD_RIGHT | KILL_LINE_RIGHT | KILL_LINE_LEFT | PASTE
  | REPLACE_RANGE _ _ _ _ _ => true
  | MOVE _ _ | UNDO | REDO | MOVE_TO_OFFSET _ _ | COPY | START_SELECTION =>
      false
  end.

(** The edits the specification calls mutating, whatever their payload. *)
Definition isMutating (a : TextBufferAction) : bool :=
  match a with
  | SET_TEXT _ _ | APPLY_OPERATIONS _ | DELETE | DELETE_WORD_LEFT
  | DELETE_WORD_RIGHT | KILL_LINE_RIGHT | KILL_LINE_LEFT | PASTE
  | REPLACE_RANGE _ _ _ _ _ => true
  | MOVE _ _ | UNDO | REDO | MOVE_TO_OFFSET _ _ | COPY | START_SELECTION =>
      false
  end.

(** The checks REPLACE_RANGE makes, as the reducer writes them. *)
Definition rangeRejected (ls : list str) (startRow startCol endRow endCol : Z)
  : Prop :=
  endRow < startRow \/ (startRow = endRow /\ endCol < startCol)
  \/ startRow < 0 \/ startCol < 0 \/ len ls <= endRow
  \/ cpLen (lineAt ls endRow) < endCol.

(** Every ANSI escape sequence starts with ESC or with the one-byte CSI. *)
Definition hasEscape (s : str) : bool :=
  existsb (fun c => (c =? 27) || (c =? 155)) s.

(** What the proofs assume of [stripAnsi]: a string with no ESC and
    no one-byte CSI holds no escape sequence and comes back as it is. *)
Definition keepsPlainText (stripAnsi : str -> str) : Prop :=
  forall s, hasEscape s = false -> stripAnsi s = s.

(** The visual width of the specification: the sum of the cell widths of
    the code points. *)
Definition visualWidth (stringWidth : str -> Z) (s : str) : Z :=
  fold_right (fun c acc => stringWidth [c] + acc) 0 s.

(** A visual line fits a viewport when it is no wider, or when it is one
    code point that is wider by itself. *)
Definition fitsViewport (stringWidth : str -> Z) (viewportWidth : Z)
  (v : str) : Prop :=
  visualWidth stringWidth v <= viewportWidth
  \/ exists c, v = [c] /\ viewportWidth < stringWidth [c].

(** What the inner loop of the layouter keeps true of its variables while
    it runs over line [codePoints] from [pos]: the chunk is the code points
    read so far, its counters agree with it, it is no wider than the
    viewport, and the word break lies inside it. *)
Definition chunkInv (stringWidth : str -> Z) (viewportWidth : Z)
  (codePoints : list codepoint) (pos : Z) (rest : list codepoint) (i : Z)
  (st : Chunk) : Prop :=
  skipn (Z.to_nat pos) codePoints = currentChunk st ++ rest
  /\ i = pos + numCodePointsInChunk st
  /\ numCodePointsInChunk st = len (currentChunk st)
  /\ currentChunkVisualWidth st = visualWidth stringWidth (currentChunk st)
  /\ currentChunkVisualWidth st <= viewportWidth
  /\ 0 <= numCodePointsAtLastWordBreak st <= numCodePointsInChunk st.

(** The offset at which line [i] of [ls] starts: the lines before it, each
    with its separator. *)
Fixpoint lineStart (ls : list str) (i : nat) {struct i} : Z :=
  match i, ls with
  | S i', l :: ls' => cpLen l + 1 + lineStart ls' i'
  | _, _ => 0
  end.

(** *** Stand-ins for the dependencies, to run the model on *)

(** Drops the CSI sequences [ESC [ ... final byte] and keeps the rest;
    [inSeq] tells whether a sequence is open. *)
Fixpoint stripCsiFrom (inSeq : bool) (s : str) : str :=
  match s with
  | [] => []
  | c :: s' =>
      if inSeq then
        stripCsiFrom (negb ((64 <=? c) && (c <=? 126))) s'
      else
        match s' with
        | d :: s'' =>
            if (c =? 27) && (d =? 91) then stripCsiFrom true s''
            else c :: stripCsiFrom false s'
        | [] => [c]
        end
  end.

Definition stripCsi (s : str) : str := stripCsiFrom false s.

(** Two cells for the East Asian wide ranges, none for the combining
    marks, one otherwise. *)
Definition cellOf (c : codepoint) : Z :=
  if ((4352 <=? c) && (c <=? 4447)) || ((11904 <=? c) && (c <=? 42191))
     || ((44032 <=? c) && (c <=? 55203)) || ((63744 <=? c) && (c <=? 64255))
     || ((65280 <=? c) && (c <=? 65376))
  then 2
  else if (768 <=? c) && (c <=? 879) then 0
  else 1.

Definition cellWidth (s : str) : Z :=
  fold_right (fun c acc => cellOf c + acc) 0 s.

Definition noPath (p : str) : bool := false.
Definition samePath (p : str) : str := p.

(** An operation whose text, once its line ends are normalised, holds no
    escape sequence. *)
Definition plainOp (op : UpdateOperation) : bool :=
  match op with
  | OpInsert payload => negb (hasEscape (replaceCR (replaceCRLF payload)))
  | OpBackspace => true
  end.


(** A line of the buffer holds no line break. *)
Definition noLineBreak (l : str) : Prop := ~ In LF l.

(** Lines and a cursor that make a buffer of the data model: no line holds
    a line break, and the cursor is a position. *)
Definition bufferOk (ls : list str) (row col : Z) : Prop :=
  Forall noLineBreak ls
  /\ 0 <= row < len ls /\ 0 <= col <= cpLen (lineAt ls row).

Definition entryOk (e : UndoHistoryEntry) : Prop :=
  bufferOk (entryLines e) (entryCursorRow e) (entryCursorCol e).

(** The invariant of the engine: the buffer and every snapshot of the
    history are buffers of the data model. *)
Definition stateOk (s : TextBufferState) : Prop :=
  bufferOk (lines s) (cursorRow s) (cursorCol s)
  /\ Forall entryOk (undoStack s) /\ Forall entryOk (redoStack s).

(** The payloads the controller builds, and for REPLACE_RANGE on one row a
    replacement without line break. *)
Definition sanePayload (s : TextBufferState) (a : TextBufferAction) : Prop :=
  match a with
  | MOVE _ visualLayout =>
      exists stringWidth cursor viewportWidth,
        calculateVisualLayout stringWidth (lines s) cursor viewportWidth
        = Some visualLayout
  | MOVE_TO_OFFSET text offset => text = joinLF (lines s) /\ 0 <= offset
  | REPLACE_RANGE startRow _ endRow _ text =>
      startRow = endRow -> noLineBreak (replaceCR (replaceCRLF text))
  | _ => True
  end.

(** Every visual line of a layout belongs to a row below [n]. *)
Definition rowsBelow (n : Z) (v2l : list Position) : Prop :=
  Forall (fun p => 0 <= fst p < n) v2l.

(** The states the hook can be in: the state it starts from, for an
    offset that is not negative, and the state after an action with a
    payload as [sanePayload] has it. *)
Inductive reachable (stripAnsi : str -> str) : TextBufferState -> Prop :=
| reachable_initial (initialText : str) (initialCursorOffset : Z) :
    0 <= initialCursorOffset ->
    reachable stripAnsi (initialState initialText initialCursorOffset)
| reachable_step (s : TextBufferState) (a : TextBufferAction) :
    reachable stripAnsi s ->
    sanePayload s a ->
    reachable stripAnsi (textBufferReducer stripAnsi s a).

(** A queue of at most one action, with a payload as [sanePayload] has
    it. *)
Definition queueSane (s : TextBufferState) (queue : list TextBufferAction)
  : Prop :=
  queue = [] \/ exists a, queue = [a] /\ sanePayload s a.

(** ** Notions of the further properties *)

(** The history holds at most [historyLimit] snapshots, both stacks
    together. *)
Definition historyBounded (s : TextBufferState) : Prop :=
  len (undoStack s) + len (redoStack s) <= historyLimit.

(** What an action leaves of the two stacks: they stay, a snapshot was
    pushed, or one snapshot moved from one stack to the other. *)
Definition historyStep (s r : TextBufferState) : Prop :=
  (undoStack r = undoStack s /\ redoStack r = redoStack s)
  \/ (undoStack r = undoStack (pushUndo s) /\ redoStack r = [])
  \/ (undoStack s <> []
      /\ undoStack r = sliceButLast (undoStack s)
      /\ redoStack r = redoStack s ++ [snapshotOf s])
  \/ (redoStack s <> []
      /\ undoStack r = undoStack s ++ [snapshotOf s]
      /\ redoStack r = sliceButLast (redoStack s)).

(** A line as SET_TEXT leaves it: neither a line feed nor a carriage
    return. *)
Definition noLineEnd (l : str) : Prop := ~ In LF l /\ ~ In CR l.

(** The text in front of a position of the lines and the text behind it:
    the buffer read as one string, cut at the position. *)
Definition textBefore (ls : list str) (row col : Z) : str :=
  joinLF (firstn (Z.to_nat row) ls ++ [cpSlice (lineAt ls row) 0 (Some col)]).

Definition textAfter (ls : list str) (row col : Z) : str :=
  joinLF (cpSlice (lineAt ls row) col None :: skipn (S (Z.to_nat row)) ls).

Definition textBeforeCursor (s : TextBufferState) : str :=
  textBefore (lines s) (cursorRow s) (cursorCol s).

Definition textAfterCursor (s : TextBufferState) : str :=
  textAfter (lines s) (cursorRow s) (cursorCol s).


(** The state read as a cut: the rows above the cursor, the line of the
    cursor in two halves, the rows below. *)
Definition cutAs (s : TextBufferState) (A : list str) (b a : str)
  (B : list str) : Prop :=
  lines s = A ++ (b ++ a) :: B /\ cursorRow s = len A
  /\ cursorCol s = cpLen b.

(** What the inner loop of the layouter keeps true of its chunk whatever
    the widths are: the chunk is the code points read so far, its counter
    is its length, and the word break lies inside it. *)
Definition chunkShape (codePoints : list codepoint) (pos : Z)
  (rest : list codepoint) (i : Z) (st : Chunk) : Prop :=
  skipn (Z.to_nat pos) codePoints = currentChunk st ++ rest
  /\ i = pos + numCodePointsInChunk st
  /\ numCodePointsInChunk st = len (currentChunk st)
  /\ 0 <= numCodePointsAtLastWordBreak st <= numCodePointsInChunk st.

(** A chunk as the layouter pushes it: as many code points of the line
    from [pos] on as the chunk counts. *)
Definition chunkOf (codePoints : list codepoint) (pos : Z) (st : Chunk)
  : Prop :=
  numCodePointsInChunk st = len (currentChunk st)
  /\ currentChunk st
     = firstn (length (currentChunk st)) (skipn (Z.to_nat pos) codePoints).

(** A visual line and its entry of [visualToLogicalMap]: the visual line
    is the part of the logical line of the entry that starts at the
    column of the entry. *)
Definition sliceOfLine (ls : list str) (vl : str) (p : Position) : Prop :=
  0 <= snd p
  /\ vl = cpSlice (lineAt ls (fst p)) (snd p) (Some (snd p + cpLen vl)).

(** The visual cursor while the layout is built: still where it started,
    or on a visual line made so far. *)
Definition cursorInLines (vls : list str) (cur : Position) : Prop :=
  cur = (0, 0) \/ validPosition vls cur.

(** * Properties *)

(** ** Lists and the history *)

Lemma lastElem_app {A} (l : list A) (x : A) : lastElem (l ++ [x]) = Some x.
Proof.
  destruct l as [|y l]; simpl; [reflexivity|].
  f_equal. apply last_last.
Qed.

Lemma last_cons {A} (l : list A) (x d : A) : last (x :: l) d = last l x.
Proof.
  revert x d. induction l as [|y l IH]; intros x d; [reflexivity|].
  change (last (x :: y :: l) d) with (last (y :: l) d).
  rewrite (IH y d), (IH y x). reflexivity.
Qed.

Lemma lastElem_cons {A} (l : list A) (x y : A) :
  lastElem (x :: y :: l) = lastElem (y :: l).
Proof.
  unfold lastElem. f_equal. apply last_cons.
Qed.

Lemma lastElem_last {A} (l : list A) (x d : A) :
  lastElem l = Some x -> last l d = x.
Proof.
  destruct l as [|y l]; [discriminate|].
  simpl lastElem. intro H. injection H as <-. apply last_cons.
Qed.

Lemma Forall_snoc {A} (P : A -> Prop) (l : list A) (x : A) :
  Forall P l -> P x -> Forall P (l ++ [x]).
Proof.
  intros Hl Hx. apply Forall_app. split; [exact Hl|].
  constructor; [exact Hx | constructor].
Qed.

Lemma len_app {A} (l1 l2 : list A) : len (l1 ++ l2) = len l1 + len l2.
Proof. unfold len. rewrite length_app. lia. Qed.

Lemma len_nonneg {A} (l : list A) : 0 <= len l.
Proof. unfold len. lia. Qed.

(** The snapshot just pushed is on top of the undo stack, also when the
    oldest entry was dropped. *)
Lemma pushUndo_top (s : TextBufferState) :
  lastElem (undoStack (pushUndo s)) = Some (snapshotOf s).
Proof.
  unfold pushUndo. simpl.
  destruct (historyLimit <? len (undoStack s ++ [snapshotOf s])) eqn:E.
  - destruct (undoStack s) as [|e u]; simpl.
    + exfalso. apply Z.ltb_lt in E. unfold historyLimit, len in E.
      simpl in E. lia.
    + apply lastElem_app.
  - apply lastElem_app.
Qed.

Lemma pushUndo_lines s : lines (pushUndo s) = lines s.
Proof. reflexivity. Qed.

Lemma pushUndo_redo s : redoStack (pushUndo s) = [].
Proof. reflexivity. Qed.

Section EngineProperties.

Variable stripAnsi : str -> str.

Local Abbreviation reduce := (textBufferReducer stripAnsi).







(** C10: UNDO and REDO leave the clipboard and the selection anchor as they
    are; a history entry has no field for them, so the values they had when
    the snapshot was taken do not come back. *)
Theorem undo_redo_keep_clipboard_and_anchor (s : TextBufferState) :
  clipboard (reduce s UNDO) = clipboard s
  /\ selectionAnchor (reduce s UNDO) = selectionAnchor s
  /\ clipboard (reduce s REDO) = clipboard s
  /\ selectionAnchor (reduce s REDO) = selectionAnchor s.
Proof.
  simpl.
  destruct (lastElem (undoStack s)), (lastElem (redoStack s)); simpl;
    repeat split; reflexivity.
Qed.

(** The fields UNDO and REDO write come from the entry alone. *)
Lemma restoreEntry_frame (s : TextBufferState) (e : UndoHistoryEntry) :
  clipboard (restoreEntry s e) = clipboard s
  /\ selectionAnchor (restoreEntry s e) = selectionAnchor s
  /\ preferredCol (restoreEntry s e) = preferredCol s.
Proof. repeat split; reflexivity. Qed.

(** C6, as the code has it: with the cursor at row 0, column 0,
    APPLY_OPERATIONS with the single operation backspace leaves the lines
    and the cursor as they are, and the clipboard and the selection anchor
    too, but it is an undo step: the snapshot of the state is pushed on the
    undo stack, the redo stack is emptied and the preferred column is
    reset.  The no-op without any change of state is the [backspace]
    command of the controller: with the cursor at (0, 0) it returns
    without dispatching, so the state after the command is the state
    before it. *)
Theorem backspace_at_origin_is_an_undo_step (s : TextBufferState) :
  cursorRow s = 0 -> cursorCol s = 0 ->
  let r := reduce s (APPLY_OPERATIONS [OpBackspace]) in
  (lines r = lines s /\ cursorRow r = 0 /\ cursorCol r = 0
   /\ undoStack r = undoStack (pushUndo s)
   /\ lastElem (undoStack r) = Some (snapshotOf s)
   /\ redoStack r = []
   /\ preferredCol r = None
   /\ clipboard r = clipboard s /\ selectionAnchor r = selectionAnchor s)
  /\ backspace s = []
  /\ dispatchAll stripAnsi s (backspace s) = s.
Proof.
  intros Hr Hc.
  assert (Hb : backspace s = []).
  { unfold backspace. rewrite Hr, Hc. reflexivity. }
  split; [|split; [exact Hb | rewrite Hb; reflexivity]].
  simpl. rewrite Hr, Hc. simpl.
  repeat split; try reflexivity. apply pushUndo_top.
Qed.

(** KILL_LINE_RIGHT inside a line cuts the line at the cursor and keeps
    the preferred column the state had. *)
Lemma killLineRight_inside_line (s : TextBufferState) :
  cursorCol s < cpLen (lineAt (lines s) (cursorRow s)) ->
  let r := reduce s KILL_LINE_RIGHT in
  lines r
  = arrSet (lines s) (cursorRow s)
      (cpSlice (lineAt (lines s) (cursorRow s)) 0 (Some (cursorCol s)))
  /\ preferredCol r = preferredCol s.
Proof.
  intro H. apply Z.ltb_lt in H. simpl. rewrite H. simpl. auto.
Qed.

(** REPLACE_RANGE returns the state it got when one of its checks fails. *)
Lemma replaceRange_rejected (s : TextBufferState)
  (startRow startCol endRow endCol : Z) (text : str) :
  rangeRejected (lines s) startRow startCol endRow endCol ->
  reduce s (REPLACE_RANGE startRow startCol endRow endCol text) = s.
Proof.
  intro H. simpl. unfold replaceRangeState.
  destruct (endRow <? startRow) eqn:E1; [reflexivity|].
  destruct (startRow =? endRow) eqn:E2;
    destruct (endCol <? startCol) eqn:E3; simpl; try reflexivity;
    destruct (startRow <? 0) eqn:E4; simpl; try reflexivity;
    destruct (startCol <? 0) eqn:E5; simpl; try reflexivity;
    destruct (len (lines s) <=? endRow) eqn:E6; simpl; try reflexivity;
    destruct (endRow <? len (lines s)) eqn:E7; simpl; try reflexivity;
    destruct (cpLen (lineAt (lines s) endRow) <? endCol) eqn:E8; simpl;
    try reflexivity; exfalso;
    unfold rangeRejected in H;
    rewrite ?Z.ltb_lt, ?Z.ltb_ge, ?Z.leb_le, ?Z.leb_gt, ?Z.eqb_eq,
      ?Z.eqb_neq in *; lia.
Qed.

Lemma clamp_above (v hi : Z) : 0 <= hi -> hi <= v -> clamp v 0 hi = hi.
Proof.
  intros H0 H. unfold clamp.
  destruct (v <? 0) eqn:E1; [apply Z.ltb_lt in E1; lia|].
  destruct (hi <? v) eqn:E2; [reflexivity|].
  apply Z.ltb_ge in E2. lia.
Qed.

(** REPLACE_RANGE does not check the start column against its line: past
    the end of the line it is clamped to the end. *)
Lemma replaceRange_clamps_start (s : TextBufferState)
  (startRow startCol endRow endCol : Z) (text : str) :
  ~ rangeRejected (lines s) startRow startCol endRow endCol ->
  cpLen (lineAt (lines s) startRow) < startCol ->
  startRow < endRow
  /\ reduce s (REPLACE_RANGE startRow startCol endRow endCol text)
     = reduce s (REPLACE_RANGE startRow (cpLen (lineAt (lines s) startRow))
                   endRow endCol text)
  /\ undoStack (reduce s (REPLACE_RANGE startRow startCol endRow endCol text))
     = undoStack (pushUndo s).
Proof.
  intros Hok Hcol. unfold rangeRejected in Hok.
  assert (Hlen : 0 <= cpLen (lineAt (lines s) startRow))
    by apply len_nonneg.
  assert (Hlt : startRow < endRow).
  { destruct (Z.eq_dec startRow endRow) as [E|E]; [subst endRow|]; lia. }
  split; [assumption|].
  simpl. unfold replaceRangeState.
  replace (endRow <? startRow) with false by (symmetry; apply Z.ltb_ge; lia).
  replace (startRow =? endRow) with false by (symmetry; apply Z.eqb_neq; lia).
  replace (startRow <? 0) with false by (symmetry; apply Z.ltb_ge; lia).
  replace (startCol <? 0) with false by (symmetry; apply Z.ltb_ge; lia).
  replace (cpLen (lineAt (lines s) startRow) <? 0) with false
    by (symmetry; apply Z.ltb_ge; lia).
  replace (len (lines s) <=? endRow) with false
    by (symmetry; apply Z.leb_gt; lia).
  replace (cpLen (lineAt (lines s) endRow) <? endCol) with false
    by (symmetry; apply Z.ltb_ge; lia).
  rewrite andb_false_r. simpl.
  rewrite (clamp_above startCol) by lia.
  rewrite (clamp_above (cpLen (lineAt (lines s) startRow))) by lia.
  split; reflexivity.
Qed.

(** C3, as the code has it: REPLACE_RANGE checks that the start is not
    after the end, that the start row and the start column are not
    negative, that the end row is a row and that the end column is within
    its line; when a check fails the state comes back unchanged.  The start
    column is not checked against its line: when it is past the end of the
    line and the checks pass, the range spans several rows and is replaced
    with the start column clamped to the end of its line. *)
Theorem replaceRange_validation (s : TextBufferState)
  (startRow startCol endRow endCol : Z) (text : str) :
  let a := REPLACE_RANGE startRow startCol endRow endCol text in
  (rangeRejected (lines s) startRow startCol endRow endCol ->
   reduce s a = s)
  /\ (~ rangeRejected (lines s) startRow startCol endRow endCol ->
      cpLen (lineAt (lines s) startRow) < startCol ->
      startRow < endRow
      /\ reduce s a
         = reduce s (REPLACE_RANGE startRow
                       (cpLen (lineAt (lines s) startRow))
                       endRow endCol text)
      /\ undoStack (reduce s a) = undoStack (pushUndo s)).
Proof.
  split.
  - apply replaceRange_rejected.
  - apply replaceRange_clamps_start.
Qed.

End EngineProperties.

(** ** The engine on concrete buffers *)



(** C3 as stated fails: on the buffer ["a"; "b"] the range from (0, 5) to
    (1, 0) has its start column past the end of line 0 and everything else
    in bounds, and REPLACE_RANGE edits the buffer. *)
Lemma replaceRange_start_column_past_line :
  let s := initialState [97; 10; 98] 0 in
  let r := textBufferReducer stripCsi s (REPLACE_RANGE 0 5 1 0 (lit "x")) in
  lines s = [lit "a"; lit "b"]
  /\ cpLen (lineAt (lines s) 0) < 5
  /\ r <> s
  /\ lines r = [lit "axb"].
Proof.
  vm_compute. repeat split; intro H; discriminate H.
Qed.

Lemma replaceRange_validation_witness :
  let s := initialState [97; 10; 98] 0 in
  (rangeRejected (lines s) 0 1 0 0
   /\ textBufferReducer stripCsi s (REPLACE_RANGE 0 1 0 0 (lit "x")) = s)
  /\ (~ rangeRejected (lines s) 0 5 1 0
      /\ cpLen (lineAt (lines s) 0) < 5
      /\ textBufferReducer stripCsi s (REPLACE_RANGE 0 5 1 0 (lit "x"))
         = textBufferReducer stripCsi s (REPLACE_RANGE 0 1 1 0 (lit "x"))).
Proof.
  intro s.
  assert (Hrej : rangeRejected (lines s) 0 1 0 0).
  { right. left. split; [reflexivity | vm_compute; reflexivity]. }
  assert (Hok : ~ rangeRejected (lines s) 0 5 1 0).
  { unfold rangeRejected. vm_compute.
    intros [H | [[H _] | [H | [H | [H | H]]]]];
      try discriminate H; apply H; reflexivity. }
  assert (Hcol : cpLen (lineAt (lines s) 0) < 5) by (vm_compute; reflexivity).
  destruct (replaceRange_validation stripCsi s 0 1 0 0 (lit "x")) as [A _].
  destruct (replaceRange_validation stripCsi s 0 5 1 0 (lit "x")) as [_ B].
  split.
  - split; [exact Hrej | exact (A Hrej)].
  - split; [exact Hok|]. split; [exact Hcol|].
    exact (proj1 (proj2 (B Hok Hcol))).
Defined.

(** C6 as stated fails: on the empty buffer, and on the buffer an undone
    insert leaves, backspace at (0, 0) through APPLY_OPERATIONS grows the
    undo stack and empties the redo stack. *)
Lemma backspace_at_origin_touches_history :
  let s0 := initialState [] 0 in
  let s1 := dispatchAll stripCsi s0
              [APPLY_OPERATIONS [OpInsert (lit "a")]; UNDO] in
  let r := textBufferReducer stripCsi s1 (APPLY_OPERATIONS [OpBackspace]) in
  cursorRow s1 = 0 /\ cursorCol s1 = 0
  /\ undoStack r <> undoStack s1
  /\ redoStack s1 <> [] /\ redoStack r = [].
Proof.
  vm_compute. repeat split; intro H; discriminate H.
Qed.

Lemma backspace_at_origin_is_an_undo_step_witness :
  let s := initialState [] 0 in
  let r := textBufferReducer stripCsi s (APPLY_OPERATIONS [OpBackspace]) in
  cursorRow s = 0 /\ cursorCol s = 0
  /\ lines r = lines s
  /\ lastElem (undoStack r) = Some (snapshotOf s)
  /\ redoStack r = []
  /\ backspace s = []
  /\ dispatchAll stripCsi s (backspace s) = s.
Proof.
  intros s r.
  assert (Hr : cursorRow s = 0) by reflexivity.
  assert (Hc : cursorCol s = 0) by reflexivity.
  destruct (backspace_at_origin_is_an_undo_step stripCsi s Hr Hc)
    as ((A & _ & _ & _ & B & C & _) & D & E).
  repeat split; assumption.
Defined.

(** C1 on the code: on the empty buffer the command
    [replaceRange(0, 0, 0, 0, "a\nb")] is accepted; the reducer stores the
    replacement with its line break in the one line of the buffer and puts
    the cursor on row 1, which is no row. *)
Theorem replaceRange_multiline_in_one_row_breaks_cursor :
  let s0 := initialState [] 0 in
  let call := replaceRange s0 0 0 0 0 [97; 10; 98] in
  let r := dispatchAll stripCsi s0 (fst call) in
  wellFormed s0
  /\ snd call = true
  /\ lines r = [[97; 10; 98]]
  /\ cursorRow r = 1 /\ cursorCol r = 1
  /\ ~ wellFormed r.
Proof.
  cbv zeta. split.
  - split; [discriminate|]. vm_compute. repeat split; discriminate.
  - repeat split; try reflexivity.
    intros [_ [[_ H] _]]. vm_compute in H. discriminate H.
Qed.

(** C7 on the code: on the buffer ["abc"; "abc"] with the cursor at (1, 1)
    the key up moves to (0, 1) and remembers column 1; KILL_LINE_RIGHT then
    cuts line 0 at the cursor and the preferred column is still 1. *)
Theorem killLineRight_keeps_preferred_column :
  let s0 := initialState [97; 98; 99; 10; 97; 98; 99] 5 in
  let s1 := dispatchAll stripCsi s0 (move cellWidth s0 80 DirUp) in
  let s2 := dispatchAll stripCsi s1 killLineRight in
  (cursorRow s0, cursorCol s0) = (1, 1)
  /\ (cursorRow s1, cursorCol s1) = (0, 1)
  /\ preferredCol s1 = Some 1
  /\ cursorCol s1 < cpLen (lineAt (lines s1) (cursorRow s1))
  /\ lines s2 = [lit "a"; lit "abc"]
  /\ preferredCol s2 = Some 1
  /\ preferredCol s2 <> None.
Proof.
  vm_compute. repeat split; intro H; discriminate H.
Qed.

(** [handleInput] compares the text and the cursor of its render with
    themselves: it never returns [true]. *)
Lemma handleInput_returns_false (stripAnsi : str -> str)
  (stringWidth : str -> Z) (isValidPath : str -> bool)
  (unescapePath : str -> str) (s : TextBufferState) (viewportWidth : Z)
  (key : Key) :
  snd (handleInput stripAnsi stringWidth isValidPath unescapePath s
         viewportWidth key) = false.
Proof.
  assert (Hrefl : forall a, str_eqb a a = true).
  { induction a as [|c a IH]; simpl; [reflexivity|].
    rewrite Z.eqb_refl. exact IH. }
  unfold handleInput.
  destruct (keyNamed key "escape"); simpl; [reflexivity|].
  rewrite Hrefl, !Z.eqb_refl. reflexivity.
Qed.

(** C5 on the code: on the empty buffer the key [a] makes [handleInput]
    dispatch an insert, after which the text is "a", and the value returned
    is [false]. *)
Theorem handleInput_false_on_printable_key :
  let s0 := initialState [] 0 in
  let key := mkKey (lit "a") false false false false (lit "a") in
  let call := handleInput stripCsi cellWidth noPath samePath s0 80 key in
  let s1 := dispatchAll stripCsi s0 (fst call) in
  text s0 = [] /\ text s1 = lit "a"
  /\ (cursorRow s0, cursorCol s0) = (0, 0)
  /\ (cursorRow s1, cursorCol s1) = (0, 1)
  /\ snd call = false.
Proof.
  vm_compute. repeat split.
Qed.

(** ** Inserting text *)

Lemma stripCsiFrom_plain (s : str) :
  hasEscape s = false -> stripCsiFrom false s = s.
Proof.
  induction s as [|c s IH]; simpl; [reflexivity|].
  intro H. apply orb_false_elim in H. destruct H as [Hc Hs].
  apply orb_false_elim in Hc. destruct Hc as [Hesc _].
  rewrite Hesc. simpl.
  destruct s as [|d s']; [reflexivity|].
  f_equal. apply IH. exact Hs.
Qed.

Lemma stripCsi_keepsPlainText : keepsPlainText stripCsi.
Proof. intros s H. apply stripCsiFrom_plain. exact H. Qed.

Section PlainText.

Variable stripAnsi : str -> str.
Hypothesis stripAnsi_plain : keepsPlainText stripAnsi.

Lemma stripUnsafeCharacters_plain (s : str) :
  hasEscape s = false ->
  stripUnsafeCharacters stripAnsi s = filter keepChar s.
Proof.
  intro H. unfold stripUnsafeCharacters, toCodePoints.
  rewrite (stripAnsi_plain s H). rewrite (stripAnsi_plain s H).
  reflexivity.
Qed.

End PlainText.

Section PlainOperations.

Variables stripAnsi stripAnsi' : str -> str.
Hypothesis stripAnsi_plain : keepsPlainText stripAnsi.
Hypothesis stripAnsi'_plain : keepsPlainText stripAnsi'.

Lemma applyOp_plain (st : list str * Z * Z) (op : UpdateOperation) :
  plainOp op = true -> applyOp stripAnsi st op = applyOp stripAnsi' st op.
Proof.
  destruct op as [payload|]; [|reflexivity].
  simpl. intro H. apply negb_true_iff in H.
  destruct st as [[ls r] c]. simpl.
  rewrite (stripUnsafeCharacters_plain stripAnsi stripAnsi_plain) by exact H.
  rewrite (stripUnsafeCharacters_plain stripAnsi' stripAnsi'_plain)
    by exact H.
  reflexivity.
Qed.

Lemma applyOps_plain (ops : list UpdateOperation) :
  forallb plainOp ops = true ->
  forall st, fold_left (applyOp stripAnsi) ops st
             = fold_left (applyOp stripAnsi') ops st.
Proof.
  induction ops as [|op ops IH]; simpl; intros H st; [reflexivity|].
  apply andb_true_iff in H. destruct H as [Hop Hops].
  rewrite (applyOp_plain st op Hop). apply IH. exact Hops.
Qed.

(** On operations without escape sequences APPLY_OPERATIONS does not depend
    on which [stripAnsi] it runs with. *)
Lemma applyOperations_plain (s : TextBufferState)
  (ops : list UpdateOperation) :
  forallb plainOp (expandOps ops) = true ->
  textBufferReducer stripAnsi s (APPLY_OPERATIONS ops)
  = textBufferReducer stripAnsi' s (APPLY_OPERATIONS ops).
Proof.
  intro H. simpl.
  rewrite (applyOps_plain (expandOps ops) H). reflexivity.
Qed.

End PlainOperations.

Section InsertCommand.

Variable stripAnsi : str -> str.
Hypothesis stripAnsi_plain : keepsPlainText stripAnsi.
Variable isValidPath : str -> bool.
Variable unescapePath : str -> str.

(** The command [insert] strips the code point 0x7F from its argument
    before it dispatches. *)
Lemma insert_strips_delete :
  insert stripAnsi isValidPath unescapePath [97; 127; 98]
  = [APPLY_OPERATIONS [OpInsert [97; 98]]].
Proof.
  unfold insert. simpl existsb. cbv iota.
  rewrite (stripUnsafeCharacters_plain stripAnsi stripAnsi_plain)
    by reflexivity.
  reflexivity.
Qed.

(** C4, as the code has it: on the empty buffer with the cursor at (0, 0),
    the operation insert "a\x7Fb" given to APPLY_OPERATIONS leaves the line
    "b" with the cursor at (0, 1); the command [insert] given the same
    string strips 0x7F first and leaves the line "ab" with the cursor at
    (0, 2).  In both cases one UNDO gives back the empty buffer with the
    cursor at (0, 0). *)
Theorem insert_with_delete_codepoint :
  let s0 := initialState [] 0 in
  let viaOps :=
    dispatchAll stripAnsi s0 (applyOperations [OpInsert [97; 127; 98]]) in
  let viaInsert :=
    dispatchAll stripAnsi s0
      (insert stripAnsi isValidPath unescapePath [97; 127; 98]) in
  let undone := fun s => textBufferReducer stripAnsi s UNDO in
  (lines viaOps = [lit "b"]
   /\ (cursorRow viaOps, cursorCol viaOps) = (0, 1)
   /\ lines (undone viaOps) = [[]]
   /\ (cursorRow (undone viaOps), cursorCol (undone viaOps)) = (0, 0))
  /\ (lines viaInsert = [lit "ab"]
      /\ (cursorRow viaInsert, cursorCol viaInsert) = (0, 2)
      /\ lines (undone viaInsert) = [[]]
      /\ (cursorRow (undone viaInsert), cursorCol (undone viaInsert))
         = (0, 0)).
Proof.
  intros s0 viaOps viaInsert undone.
  assert (E1 : viaOps
               = textBufferReducer stripCsi s0
                   (APPLY_OPERATIONS [OpInsert [97; 127; 98]])).
  { unfold viaOps, dispatchAll, applyOperations. cbn [fold_left].
    apply (applyOperations_plain stripAnsi stripCsi stripAnsi_plain
             stripCsi_keepsPlainText).
    reflexivity. }
  assert (E2 : viaInsert
               = textBufferReducer stripCsi s0
                   (APPLY_OPERATIONS [OpInsert [97; 98]])).
  { unfold viaInsert. rewrite insert_strips_delete.
    unfold dispatchAll. cbn [fold_left].
    apply (applyOperations_plain stripAnsi stripCsi stripAnsi_plain
             stripCsi_keepsPlainText).
    reflexivity. }
  unfold undone. rewrite E1, E2.
  split; repeat split; reflexivity.
Qed.

End InsertCommand.

(** C4 as stated fails: the command [insert] given "a\x7Fb" on the empty
    buffer does not leave the line "b" nor the cursor at (0, 1). *)
Lemma insert_command_keeps_text_before_delete :
  let s0 := initialState [] 0 in
  let r := dispatchAll stripCsi s0
             (insert stripCsi noPath samePath [97; 127; 98]) in
  noPath [97; 127; 98] = false /\ noPath (lit "ab") = false
  /\ lines r <> [lit "b"]
  /\ (cursorRow r, cursorCol r) <> (0, 1).
Proof.
  vm_compute. repeat split; intro H; discriminate H.
Qed.

Lemma insert_with_delete_codepoint_witness :
  keepsPlainText stripCsi
  /\ lines (dispatchAll stripCsi (initialState [] 0)
              (applyOperations [OpInsert [97; 127; 98]])) = [lit "b"]
  /\ lines (dispatchAll stripCsi (initialState [] 0)
              (insert stripCsi noPath samePath [97; 127; 98])) = [lit "ab"].
Proof.
  split; [exact stripCsi_keepsPlainText|].
  destruct (insert_with_delete_codepoint stripCsi stripCsi_keepsPlainText
              noPath samePath)
    as [[A _] [B _]].
  split; [exact A | exact B].
Defined.

(** ** Position mapper *)

Lemma lineStart_nonneg (ls : list str) (i : nat) : 0 <= lineStart ls i.
Proof.
  revert ls. induction i as [|i IH]; intros [|l ls]; simpl; try lia.
  specialize (IH ls). pose proof (len_nonneg l). unfold cpLen. lia.
Qed.

(** Only line 0 starts at offset 0. *)
Lemma lineStart_zero (ls : list str) (i : nat) (line : str) :
  nth_error ls i = Some line -> lineStart ls i = 0 -> i = O.
Proof.
  destruct i as [|i]; [reflexivity|].
  destruct ls as [|l ls]; simpl; [discriminate|].
  intros _ H. pose proof (lineStart_nonneg ls i).
  pose proof (len_nonneg l). unfold cpLen in H. lia.
Qed.

Lemma lineStart_succ (ls : list str) (i : nat) (line : str) :
  nth_error ls i = Some line ->
  lineStart ls (S i) = lineStart ls i + cpLen line + 1.
Proof.
  revert ls. induction i as [|i IH]; intros [|l ls] H; try discriminate H.
  - simpl in *. injection H as ->. destruct ls; simpl; lia.
  - change (lineStart (l :: ls) (S (S i)))
      with (cpLen l + 1 + lineStart ls (S i)).
    rewrite (IH ls H). simpl. lia.
Qed.

Lemma nth_error_len {A} (ls : list A) (i : nat) (x : A) :
  nth_error ls i = Some x -> Z.of_nat i < len ls.
Proof.
  intro H. assert (nth_error ls i <> None) by congruence.
  apply nth_error_Some in H0. unfold len. lia.
Qed.

(** The loop returns in the pass of the line whose body holds the offset,
    or one pass earlier when the offset is the start of that line. *)
Lemma offsetLoop_body (i : nat) :
  forall (ls : list str) (line : str) (n j cur off : Z),
    nth_error ls i = Some line ->
    n = j + len ls ->
    cur + lineStart ls i <= off <= cur + lineStart ls i + cpLen line ->
    offsetLoop ls n j cur off
    = Some (j + Z.of_nat i, off - (cur + lineStart ls i)).
Proof.
  induction i as [|i IH]; intros [|p rest] line n j cur off Hnth Hn Hoff;
    try discriminate Hnth.
  - simpl in Hnth. injection Hnth as ->. simpl in *.
    replace (off <=? cur + cpLen line) with true
      by (symmetry; apply Z.leb_le; lia).
    f_equal. f_equal; lia.
  - simpl in Hnth.
    pose proof (nth_error_len rest i line Hnth) as Hrest.
    pose proof (lineStart_nonneg rest i) as Hstart.
    change (lineStart (p :: rest) (S i))
      with (cpLen p + 1 + lineStart rest i) in *.
    assert (Hlen : len (p :: rest) = 1 + len rest)
      by (unfold len; simpl length; lia).
    simpl offsetLoop.
    replace (j <? n - 1) with true by (symmetry; apply Z.ltb_lt; lia).
    replace (off <=? cur + cpLen p) with false
      by (symmetry; apply Z.leb_gt; lia).
    destruct (off <=? cur + (cpLen p + 1)) eqn:E.
    + apply Z.leb_le in E.
      assert (H0 : lineStart rest i = 0) by lia.
      pose proof (lineStart_zero rest i line Hnth H0) as ->.
      replace (off =? cur + (cpLen p + 1)) with true
        by (symmetry; apply Z.eqb_eq; lia).
      simpl. f_equal. f_equal; lia.
    + apply Z.leb_gt in E.
      rewrite (IH rest line n (j + 1) (cur + (cpLen p + 1)) off Hnth)
        by lia.
      f_equal. f_equal; lia.
Qed.

(** Past the end of the text the loop runs through without returning. *)
Lemma offsetLoop_beyond (ls : list str) :
  forall (n j cur off : Z),
    n = j + len ls ->
    cur + cpLen (joinLF ls) < off ->
    offsetLoop ls n j cur off = None.
Proof.
  induction ls as [|l ls IH]; intros n j cur off Hn Hoff; [reflexivity|].
  assert (Hlen : len (l :: ls) = 1 + len ls)
    by (unfold len; simpl length; lia).
  pose proof (len_nonneg l) as Hl. unfold cpLen in *.
  destruct ls as [|l2 ls].
  - simpl in *. unfold len in Hn. simpl in Hn.
    replace (j <? n - 1) with false by (symmetry; apply Z.ltb_ge; lia).
    rewrite Z.add_0_r. unfold cpLen.
    replace (off <=? cur + len l) with false
      by (symmetry; apply Z.leb_gt; lia).
    reflexivity.
  - change (joinLF (l :: l2 :: ls)) with (l ++ LF :: joinLF (l2 :: ls))
      in Hoff.
    rewrite len_app in Hoff.
    assert (Hcons : len (LF :: joinLF (l2 :: ls))
                    = 1 + len (joinLF (l2 :: ls)))
      by (unfold len; simpl length; lia).
    pose proof (len_nonneg (joinLF (l2 :: ls))) as Hj.
    pose proof (len_nonneg (l2 :: ls)) as Hls.
    assert (Hlen2 : len (l2 :: ls) = 1 + len ls)
      by (unfold len; simpl length; lia).
    pose proof (len_nonneg ls) as Hls'.
    cbn [offsetLoop]. unfold cpLen.
    replace (j <? n - 1) with true by (symmetry; apply Z.ltb_lt; lia).
    replace (off <=? cur + len l) with false
      by (symmetry; apply Z.leb_gt; lia).
    replace (off <=? cur + (len l + 1)) with false
      by (symmetry; apply Z.leb_gt; lia).
    apply IH; lia.
Qed.

Lemma splitLF_nonempty (s : str) : splitLF s <> [].
Proof.
  destruct s as [|c s]; simpl; [discriminate|].
  destruct (c =? LF); [discriminate|].
  destruct (splitLF s); discriminate.
Qed.

(** Joining the lines of a text gives the text back. *)
Lemma joinLF_splitLF (s : str) : joinLF (splitLF s) = s.
Proof.
  induction s as [|c s IH]; [reflexivity|].
  simpl. destruct (c =? LF) eqn:E.
  - apply Z.eqb_eq in E. subst c.
    pose proof (splitLF_nonempty s) as Hne.
    destruct (splitLF s) as [|l ls]; [contradiction|].
    change (joinLF ([] :: l :: ls)) with ([] ++ LF :: joinLF (l :: ls)).
    rewrite IH. reflexivity.
  - pose proof (splitLF_nonempty s) as Hne.
    destruct (splitLF s) as [|l ls]; [contradiction|].
    destruct ls as [|l2 ls]; simpl in *; rewrite <- IH; reflexivity.
Qed.

(** The text ends where its last line ends. *)
Lemma last_line_end (ls : list str) (i : nat) (line : str) :
  nth_error ls i = Some line ->
  Z.of_nat i = len ls - 1 ->
  cpLen (joinLF ls) = lineStart ls i + cpLen line
  /\ lastElem ls = Some line.
Proof.
  revert ls. induction i as [|i IH]; intros [|l ls] Hnth Hi;
    try discriminate Hnth.
  - simpl in Hnth. injection Hnth as ->.
    destruct ls as [|l2 ls].
    + split; [|reflexivity]. cbn [joinLF lineStart]. lia.
    + unfold len in Hi. simpl length in Hi. lia.
  - simpl in Hnth.
    assert (Hlen : len (l :: ls) = 1 + len ls)
      by (unfold len; simpl length; lia).
    destruct (IH ls Hnth ltac:(lia)) as [Hjoin Hlast].
    destruct ls as [|l2 ls]; [discriminate Hlast|].
    split.
    + change (joinLF (l :: l2 :: ls)) with (l ++ LF :: joinLF (l2 :: ls)).
      change (lineStart (l :: l2 :: ls) (S i))
        with (cpLen l + 1 + lineStart (l2 :: ls) i).
      unfold cpLen in *. rewrite len_app.
      assert (Hc : len (LF :: joinLF (l2 :: ls))
                   = 1 + len (joinLF (l2 :: ls)))
        by (unfold len; simpl length; lia).
      lia.
    + rewrite lastElem_cons. exact Hlast.
Qed.

Lemma offsetToLogicalPos_in_body (text : str) (offset : Z) (i : nat)
  (line : str) :
  nth_error (splitLF text) i = Some line ->
  lineStart (splitLF text) i <= offset
    <= lineStart (splitLF text) i + cpLen line ->
  offsetToLogicalPos text offset
  = (Z.of_nat i, offset - lineStart (splitLF text) i).
Proof.
  intros Hnth Hoff. unfold offsetToLogicalPos.
  destruct (offset =? 0) eqn:E.
  - apply Z.eqb_eq in E. subst offset.
    pose proof (lineStart_nonneg (splitLF text) i) as H0.
    assert (Hs : lineStart (splitLF text) i = 0) by lia.
    pose proof (lineStart_zero _ _ _ Hnth Hs) as Hi. subst i.
    reflexivity.
  - rewrite (offsetLoop_body i (splitLF text) line (len (splitLF text)) 0 0
               offset Hnth) by lia.
    f_equal; lia.
Qed.

Lemma offsetToLogicalPos_beyond (text : str) (offset : Z) :
  cpLen text < offset ->
  offsetToLogicalPos text offset
  = (len (splitLF text) - 1, cpLen (last (splitLF text) [])).
Proof.
  intro H. unfold offsetToLogicalPos.
  pose proof (len_nonneg text) as Hl. unfold cpLen in H.
  replace (offset =? 0) with false by (symmetry; apply Z.eqb_neq; lia).
  rewrite offsetLoop_beyond.
  - pose proof (splitLF_nonempty text) as Hne.
    destruct (splitLF text) as [|l ls]; [contradiction|].
    simpl lastElem. cbv iota beta. f_equal. f_equal.
    symmetry. apply last_cons.
  - lia.
  - rewrite joinLF_splitLF. unfold cpLen. lia.
Qed.

(** C8: [offsetToLogicalPos] follows the piecewise definition of the
    position mapper.  With the text split into lines at the line breaks:
    offset 0 is (0, 0); an offset in the body of line [i], at most the
    length of the line past its start, is row [i] at the column counted
    from the start of the line; the offset one past the end of line [i],
    on its separator, is (i + 1, 0) when [i] is not the last line and the
    end of line [i] when it is; an offset past the whole text is the end of
    the last line. *)
Theorem offsetToLogicalPos_piecewise (text : str) (offset : Z) :
  0 <= offset ->
  let ls := splitLF text in
  (offset = 0 -> offsetToLogicalPos text offset = (0, 0))
  /\ (forall i line,
        nth_error ls i = Some line ->
        lineStart ls i <= offset <= lineStart ls i + cpLen line ->
        offsetToLogicalPos text offset
        = (Z.of_nat i, offset - lineStart ls i))
  /\ (forall i line,
        nth_error ls i = Some line ->
        offset = lineStart ls i + cpLen line + 1 ->
        offsetToLogicalPos text offset
        = if Z.of_nat i <? len ls - 1 then (Z.of_nat i + 1, 0)
          else (Z.of_nat i, cpLen line))
  /\ (cpLen text < offset ->
      offsetToLogicalPos text offset
      = (len ls - 1, cpLen (last ls []))).
Proof.
  intros _ ls0. set (ls := splitLF text) in *. subst ls0. repeat split.
  - intros ->. reflexivity.
  - intros i line. apply offsetToLogicalPos_in_body.
  - intros i line Hnth Hoff.
    pose proof (nth_error_len ls i line Hnth) as Hi.
    pose proof (lineStart_succ ls i line Hnth) as Hsucc.
    destruct (Z.of_nat i <? len ls - 1) eqn:E.
    + apply Z.ltb_lt in E.
      destruct (nth_error ls (S i)) as [next|] eqn:Hnext.
      * pose proof (len_nonneg next) as Hn.
        rewrite (offsetToLogicalPos_in_body text offset (S i) next Hnext).
        -- fold ls. f_equal; lia.
        -- fold ls. unfold cpLen in *. lia.
      * apply nth_error_None in Hnext. unfold len in E. lia.
    + apply Z.ltb_ge in E.
      destruct (last_line_end ls i line Hnth ltac:(lia)) as [Hend Hlast].
      assert (Htext : joinLF ls = text) by apply joinLF_splitLF.
      rewrite Htext in Hend.
      rewrite offsetToLogicalPos_beyond by lia.
      fold ls. rewrite (lastElem_last ls line [] Hlast).
      f_equal. lia.
  - apply offsetToLogicalPos_beyond.
Qed.

Lemma offsetToLogicalPos_piecewise_witness :
  let text := [97; 98; 10; 99; 100] in
  splitLF text = [lit "ab"; lit "cd"]
  /\ offsetToLogicalPos text 0 = (0, 0)
  /\ offsetToLogicalPos text 4 = (1, 1)
  /\ offsetToLogicalPos text 3 = (1, 0)
  /\ offsetToLogicalPos text 6 = (1, 2)
  /\ offsetToLogicalPos text 9 = (1, 2).
Proof.
  intro text.
  assert (H0 : 0 <= 0) by lia.
  assert (H4 : 0 <= 4) by lia.
  assert (H3 : 0 <= 3) by lia.
  assert (H6 : 0 <= 6) by lia.
  assert (H9 : 0 <= 9) by lia.
  destruct (offsetToLogicalPos_piecewise text 0 H0) as (A & _).
  destruct (offsetToLogicalPos_piecewise text 4 H4) as (_ & B & _).
  destruct (offsetToLogicalPos_piecewise text 3 H3) as (_ & _ & C & _).
  destruct (offsetToLogicalPos_piecewise text 6 H6) as (_ & _ & C' & _).
  destruct (offsetToLogicalPos_piecewise text 9 H9) as (_ & _ & _ & D).
  split; [reflexivity|].
  split; [exact (A eq_refl)|].
  split.
  { apply (B 1%nat (lit "cd") eq_refl).
    vm_compute. split; intro H; discriminate H. }
  split; [exact (C 0%nat (lit "ab") eq_refl eq_refl)|].
  split; [exact (C' 1%nat (lit "cd") eq_refl eq_refl)|].
  apply D. vm_compute. reflexivity.
Defined.

(** ** Visual layouter *)

(** *** Every [while] loop of the layouter ends *)

Section LayouterTotal.

Variable stringWidth : str -> Z.

Lemma buildChunk_num_nonneg (codePoints : list codepoint)
  (pos viewportWidth : Z) (rest : list codepoint) :
  forall (i : Z) (st : Chunk),
    0 <= numCodePointsInChunk st ->
    0 <= numCodePointsInChunk
           (buildChunk stringWidth codePoints pos viewportWidth rest i st).
Proof.
  induction rest as [|char rest IH]; intros i st H; simpl; [exact H|].
  destruct (viewportWidth <? currentChunkVisualWidth st + stringWidth [char]).
  - destruct (negb (lastWordBreakPoint st =? -1)
              && (0 <? numCodePointsAtLastWordBreak st)
              && (pos + numCodePointsAtLastWordBreak st <? i)) eqn:E.
    + simpl. apply andb_true_iff in E. destruct E as [E _].
      apply andb_true_iff in E. destruct E as [_ E].
      apply Z.ltb_lt in E. lia.
    + destruct ((numCodePointsInChunk st =? 0)
                && (viewportWidth <? stringWidth [char]));
        simpl; [lia | exact H].
  - apply IH. destruct (char =? SPACE); simpl; lia.
Qed.

Lemma forceAdvance_num (codePoints : list codepoint) (pos : Z)
  (st : Chunk) :
  0 <= numCodePointsInChunk st ->
  pos < len codePoints ->
  1 <= numCodePointsInChunk (forceAdvance codePoints pos st).
Proof.
  intros H Hpos. unfold forceAdvance.
  destruct (numCodePointsInChunk st =? 0) eqn:E; simpl.
  - replace (pos <? len codePoints) with true
      by (symmetry; apply Z.ltb_lt; lia).
    simpl. lia.
  - apply Z.eqb_neq in E. lia.
Qed.

Lemma forceAdvance_num_nonneg (codePoints : list codepoint) (pos : Z)
  (st : Chunk) :
  1 <= numCodePointsInChunk st ->
  1 <= numCodePointsInChunk (forceAdvance codePoints pos st).
Proof.
  intro H. unfold forceAdvance.
  destruct ((numCodePointsInChunk st =? 0) && (pos <? len codePoints));
    simpl; lia.
Qed.

(** A pass of the loop over a line takes at least one code point, so as
    many passes as the line has code points left are enough. *)
Lemma wrapLine_total (codePoints : list codepoint) (logIndex : Z)
  (logicalCursor : Position) (viewportWidth : Z) (fuel : nat) :
  forall (pos : Z) (acc : LayoutAcc),
    len codePoints - pos <= Z.of_nat fuel ->
    exists acc',
      wrapLine stringWidth fuel codePoints logIndex logicalCursor
        viewportWidth pos acc = Some acc'.
Proof.
  induction fuel as [|fuel IH]; intros pos acc Hfuel.
  - simpl. replace (pos <? len codePoints) with false
      by (symmetry; apply Z.ltb_ge; lia).
    eexists. reflexivity.
  - cbn [wrapLine]. destruct (pos <? len codePoints) eqn:E;
      [|eexists; reflexivity].
    apply Z.ltb_lt in E.
    set (st0 := buildChunk stringWidth codePoints pos viewportWidth
                  (skipn (Z.to_nat pos) codePoints) pos emptyChunk).
    assert (H0 : 0 <= numCodePointsInChunk st0)
      by (apply buildChunk_num_nonneg; simpl; lia).
    pose proof (forceAdvance_num codePoints pos st0 H0 E) as H1.
    pose proof (forceAdvance_num_nonneg codePoints pos _ H1) as H2.
    set (st := forceAdvance codePoints pos
                 (forceAdvance codePoints pos st0)) in *.
    apply IH.
    match goal with
    | |- context [if ?c then _ else _] => destruct c
    end; lia.
Qed.

Lemma layoutLine_total (logLine : str) (logIndex : Z)
  (logicalCursor : Position) (viewportWidth : Z) (acc : LayoutAcc) :
  exists acc',
    layoutLine stringWidth logLine logIndex logicalCursor viewportWidth acc
    = Some acc'.
Proof.
  unfold layoutLine. destruct (jsLength logLine =? 0).
  - eexists. reflexivity.
  - unfold toCodePoints.
    edestruct (wrapLine_total logLine logIndex logicalCursor viewportWidth
                 (length logLine) 0) as [acc' H];
      [unfold len; lia|].
    rewrite H. eexists. reflexivity.
Qed.

Lemma layoutLines_total (rest : list str) :
  forall (logIndex : Z) (logicalCursor : Position) (viewportWidth : Z)
         (acc : LayoutAcc) (l2v : list (list Position)),
  exists r,
    layoutLines stringWidth rest logIndex logicalCursor viewportWidth acc l2v
    = Some r.
Proof.
  induction rest as [|logLine rest IH]; intros; simpl.
  - eexists. reflexivity.
  - destruct (layoutLine_total logLine logIndex logicalCursor viewportWidth
                acc) as [acc' H].
    rewrite H. apply IH.
Qed.

(** [calculateVisualLayout] returns a layout for every array of strings,
    every cursor and every width. *)
Lemma calculateVisualLayout_total (logicalLines : list str)
  (logicalCursor : Position) (viewportWidth : Z) :
  exists layout,
    calculateVisualLayout stringWidth logicalLines logicalCursor
      viewportWidth = Some layout.
Proof.
  unfold calculateVisualLayout.
  destruct (layoutLines_total logicalLines 0 logicalCursor viewportWidth
              (mkLayoutAcc [] [] [] (0, 0)) []) as [[acc l2v] H].
  rewrite H.
  repeat match goal with
    | |- context [if ?c then _ else _] => destruct c
    end; eexists; reflexivity.
Qed.

End LayouterTotal.

(** *** No visual line is wider than the viewport *)

Section LayouterWidth.

Variable stringWidth : str -> Z.
Hypothesis stringWidth_nonneg : forall c, 0 <= stringWidth [c].

Variable viewportWidth : Z.
Hypothesis viewport_positive : 1 <= viewportWidth.

Local Abbreviation width := (visualWidth stringWidth).
Local Abbreviation fits := (fitsViewport stringWidth viewportWidth).

Lemma visualWidth_app (a b : str) : width (a ++ b) = width a + width b.
Proof.
  induction a as [|c a IH]; simpl; [reflexivity|]. rewrite IH. lia.
Qed.

Lemma visualWidth_nonneg (a : str) : 0 <= width a.
Proof.
  induction a as [|c a IH]; simpl; [lia|].
  pose proof (stringWidth_nonneg c). lia.
Qed.

Lemma visualWidth_firstn (k : nat) (a : str) : width (firstn k a) <= width a.
Proof.
  rewrite <- (firstn_skipn k a) at 2. rewrite visualWidth_app.
  pose proof (visualWidth_nonneg (skipn k a)). lia.
Qed.

Lemma fits_empty : fits [].
Proof. left. simpl. lia. Qed.

(** One code point alone always fits: it is no wider than the viewport, or
    it is the exception. *)
Lemma fits_single (c : codepoint) : fits [c].
Proof.
  destruct (Z_le_gt_dec (stringWidth [c]) viewportWidth) as [H|H].
  - left. simpl. lia.
  - right. exists c. split; [reflexivity | lia].
Qed.

Lemma chunkInv_start (codePoints : list codepoint) (pos : Z) :
  chunkInv stringWidth viewportWidth codePoints pos
    (skipn (Z.to_nat pos) codePoints) pos emptyChunk.
Proof.
  unfold chunkInv, emptyChunk, len. simpl. repeat split; lia.
Qed.

(** The chunk at a word break is a prefix of the chunk read so far. *)
Lemma slice_at_word_break (codePoints : list codepoint) (pos : Z)
  (char : codepoint) (rest : list codepoint) (i : Z) (st : Chunk) :
  0 <= pos ->
  chunkInv stringWidth viewportWidth codePoints pos (char :: rest) i st ->
  arrSlice codePoints pos (pos + numCodePointsAtLastWordBreak st)
  = firstn (Z.to_nat (numCodePointsAtLastWordBreak st)) (currentChunk st).
Proof.
  intros Hpos (Hskip & Hi & Hnum & _ & _ & Hbreak).
  assert (Hlen : len codePoints - pos
                 = len (currentChunk st) + 1 + len rest).
  { assert (H : length (skipn (Z.to_nat pos) codePoints)
                = length (currentChunk st ++ char :: rest))
      by (rewrite Hskip; reflexivity).
    rewrite length_skipn, length_app in H. simpl in H.
    unfold len. lia. }
  pose proof (len_nonneg rest) as Hrest.
  unfold arrSlice, relIndex.
  replace (pos <? 0) with false by (symmetry; apply Z.ltb_ge; lia).
  replace (pos + numCodePointsAtLastWordBreak st <? 0) with false
    by (symmetry; apply Z.ltb_ge; lia).
  rewrite !Z.min_l by lia.
  replace (pos + numCodePointsAtLastWordBreak st - pos)
    with (numCodePointsAtLastWordBreak st) by lia.
  rewrite Hskip. rewrite firstn_app.
  replace (Z.to_nat (numCodePointsAtLastWordBreak st)
           - length (currentChunk st))%nat with O
    by (unfold len in *; lia).
  simpl. apply app_nil_r.
Qed.

(** The chunk the inner loop ends with fits the viewport. *)
Lemma buildChunk_fits (codePoints : list codepoint) (pos : Z)
  (rest : list codepoint) :
  forall (i : Z) (st : Chunk),
    0 <= pos ->
    chunkInv stringWidth viewportWidth codePoints pos rest i st ->
    fits (currentChunk
            (buildChunk stringWidth codePoints pos viewportWidth rest i st)).
Proof.
  induction rest as [|char rest IH]; intros i st Hpos Hinv.
  - simpl. destruct Hinv as (_ & _ & _ & Hw & Hle & _). left. lia.
  - pose proof Hinv as (Hskip & Hi & Hnum & Hw & Hle & Hbreak).
    cbn [buildChunk].
    destruct (viewportWidth
              <? currentChunkVisualWidth st + stringWidth [char]) eqn:E.
    + destruct (negb (lastWordBreakPoint st =? -1)
                && (0 <? numCodePointsAtLastWordBreak st)
                && (pos + numCodePointsAtLastWordBreak st <? i)).
      * cbn [currentChunk].
        rewrite (slice_at_word_break codePoints pos char rest i st Hpos Hinv).
        left.
        pose proof (visualWidth_firstn
                      (Z.to_nat (numCodePointsAtLastWordBreak st))
                      (currentChunk st)).
        lia.
      * destruct ((numCodePointsInChunk st =? 0)
                  && (viewportWidth <? stringWidth [char])).
        -- apply fits_single.
        -- left. lia.
    + apply Z.ltb_ge in E.
      apply IH; [exact Hpos|].
      pose proof (len_nonneg (currentChunk st)) as Hc.
      assert (Hlen : len (currentChunk st ++ [char])
                     = len (currentChunk st) + 1)
        by (rewrite len_app; reflexivity).
      assert (Hwidth : width (currentChunk st ++ [char])
                       = width (currentChunk st) + stringWidth [char])
        by (rewrite visualWidth_app; simpl; lia).
      destruct (char =? SPACE); unfold chunkInv; cbn [currentChunk
        currentChunkVisualWidth numCodePointsInChunk
        numCodePointsAtLastWordBreak];
        rewrite <- app_assoc; simpl app;
        repeat split; try assumption; lia.
Qed.

Lemma forceAdvance_fits (codePoints : list codepoint) (pos : Z)
  (st : Chunk) :
  fits (currentChunk st) ->
  fits (currentChunk (forceAdvance codePoints pos st)).
Proof.
  intro H. unfold forceAdvance.
  destruct ((numCodePointsInChunk st =? 0) && (pos <? len codePoints));
    [|exact H].
  cbn [currentChunk]. unfold charAt.
  destruct (arrGet codePoints pos); [apply fits_single | apply fits_empty].
Qed.

(** The loop over a line only adds visual lines that fit. *)
Lemma wrapLine_fits (codePoints : list codepoint) (logIndex : Z)
  (logicalCursor : Position) (fuel : nat) :
  forall (pos : Z) (acc acc' : LayoutAcc),
    0 <= pos ->
    Forall fits (accVisualLines acc) ->
    wrapLine stringWidth fuel codePoints logIndex logicalCursor
      viewportWidth pos acc = Some acc' ->
    Forall fits (accVisualLines acc').
Proof.
  induction fuel as [|fuel IH]; intros pos acc acc' Hpos Hacc Hrun.
  - simpl in Hrun. destruct (pos <? len codePoints); [discriminate|].
    injection Hrun as <-. exact Hacc.
  - cbn [wrapLine] in Hrun.
    destruct (pos <? len codePoints) eqn:E;
      [|injection Hrun as <-; exact Hacc].
    apply Z.ltb_lt in E.
    set (st0 := buildChunk stringWidth codePoints pos viewportWidth
                  (skipn (Z.to_nat pos) codePoints) pos emptyChunk) in *.
    assert (Hfit0 : fits (currentChunk st0))
      by (apply buildChunk_fits; [exact Hpos | apply chunkInv_start]).
    assert (H0 : 0 <= numCodePointsInChunk st0)
      by (apply buildChunk_num_nonneg; simpl; lia).
    pose proof (forceAdvance_num codePoints pos st0 H0 E) as H1.
    pose proof (forceAdvance_num_nonneg codePoints pos _ H1) as H2.
    pose proof (forceAdvance_fits codePoints pos _
                  (forceAdvance_fits codePoints pos _ Hfit0)) as Hfit.
    set (st := forceAdvance codePoints pos
                 (forceAdvance codePoints pos st0)) in *.
    eapply IH; [| |exact Hrun].
    + match goal with
      | |- context [if ?c then _ else _] => destruct c
      end; lia.
    + cbn [accVisualLines]. apply Forall_snoc; assumption.
Qed.

Lemma lineEndCursor_lines (codePoints : list codepoint) (logIndex : Z)
  (logicalCursor : Position) (acc : LayoutAcc) :
  accVisualLines (lineEndCursor codePoints logIndex logicalCursor acc)
  = accVisualLines acc.
Proof.
  unfold lineEndCursor.
  destruct ((logIndex =? fst logicalCursor)
            && (snd logicalCursor =? len codePoints)); [|reflexivity].
  destruct (arrGet (accVisualLines acc) (len (accVisualLines acc) - 1));
    [|reflexivity].
  destruct (0 <=? len (accVisualLines acc) - 1); reflexivity.
Qed.

Lemma layoutLine_fits (logLine : str) (logIndex : Z)
  (logicalCursor : Position) (acc acc' : LayoutAcc) :
  Forall fits (accVisualLines acc) ->
  layoutLine stringWidth logLine logIndex logicalCursor viewportWidth acc
  = Some acc' ->
  Forall fits (accVisualLines acc').
Proof.
  intros Hacc Hrun. unfold layoutLine in Hrun.
  destruct (jsLength logLine =? 0).
  - injection Hrun as <-. cbn [accVisualLines].
    apply Forall_snoc; [exact Hacc | apply fits_empty].
  - destruct (wrapLine stringWidth (length (toCodePoints logLine))
                (toCodePoints logLine) logIndex logicalCursor viewportWidth
                0 _) as [acc1|] eqn:Hwrap; [|discriminate].
    injection Hrun as <-. rewrite lineEndCursor_lines.
    eapply wrapLine_fits; [| |exact Hwrap]; [lia | exact Hacc].
Qed.

Lemma layoutLines_fits (rest : list str) :
  forall (logIndex : Z) (logicalCursor : Position) (acc acc' : LayoutAcc)
         (l2v l2v' : list (list Position)),
    Forall fits (accVisualLines acc) ->
    layoutLines stringWidth rest logIndex logicalCursor viewportWidth acc l2v
    = Some (acc', l2v') ->
    Forall fits (accVisualLines acc').
Proof.
  induction rest as [|logLine rest IH];
    intros logIndex logicalCursor acc acc' l2v l2v' Hacc Hrun.
  - simpl in Hrun. injection Hrun as <- _. exact Hacc.
  - simpl in Hrun.
    destruct (layoutLine stringWidth logLine logIndex logicalCursor
                viewportWidth acc) as [acc1|] eqn:Hline; [|discriminate].
    eapply IH; [|exact Hrun].
    eapply layoutLine_fits; [exact Hacc | exact Hline].
Qed.

Lemma calculateVisualLayout_fits (logicalLines : list str)
  (logicalCursor : Position) (layout : VisualLayout) :
  calculateVisualLayout stringWidth logicalLines logicalCursor viewportWidth
  = Some layout ->
  Forall fits (visualLines layout).
Proof.
  unfold calculateVisualLayout. intro Hrun.
  destruct (layoutLines stringWidth logicalLines 0 logicalCursor
              viewportWidth (mkLayoutAcc [] [] [] (0, 0)) [])
    as [[acc l2v]|] eqn:Hlines; [|discriminate].
  assert (Hacc : Forall fits (accVisualLines acc)).
  { eapply layoutLines_fits; [|exact Hlines]. constructor. }
  repeat match type of Hrun with
    | context [if ?c then _ else _] => destruct c
    end; injection Hrun as <-; cbn [visualLines];
    try exact Hacc.
  apply Forall_snoc; [exact Hacc | apply fits_empty].
Qed.

(** C9: for every list of logical lines, every logical cursor and every
    viewport width of at least 1, the layouter returns a layout, and every
    visual line of it is at most as wide as the viewport, except a visual
    line that is a single code point wider than the viewport. *)
Theorem visual_lines_fit_viewport (logicalLines : list str)
  (logicalCursor : Position) :
  exists layout,
    calculateVisualLayout stringWidth logicalLines logicalCursor
      viewportWidth = Some layout
    /\ forall v, In v (visualLines layout) ->
         visualWidth stringWidth v <= viewportWidth
         \/ exists c, v = [c] /\ viewportWidth < stringWidth [c].
Proof.
  destruct (calculateVisualLayout_total stringWidth logicalLines
              logicalCursor viewportWidth) as [layout H].
  exists layout. split; [exact H|].
  apply Forall_forall.
  exact (calculateVisualLayout_fits logicalLines logicalCursor layout H).
Qed.

End LayouterWidth.

Lemma cellWidth_nonneg (c : codepoint) : 0 <= cellWidth [c].
Proof.
  unfold cellWidth, cellOf. simpl.
  repeat match goal with
    | |- context [if ?b then _ else _] => destruct b
    end; lia.
Qed.

Lemma visual_lines_fit_viewport_witness :
  (forall c, 0 <= cellWidth [c])
  /\ 1 <= 4
  /\ exists layout,
       calculateVisualLayout cellWidth [[26085; 26412; 35486]] (0, 3) 4
       = Some layout
       /\ forall v, In v (visualLines layout) ->
            visualWidth cellWidth v <= 4
            \/ exists c, v = [c] /\ 4 < cellWidth [c].
Proof.
  assert (Hvw : 1 <= 4) by lia.
  split; [exact cellWidth_nonneg|].
  split; [exact Hvw|].
  exact (visual_lines_fit_viewport cellWidth cellWidth_nonneg 4 Hvw
           [[26085; 26412; 35486]] (0, 3)).
Defined.

(** ** The invariant of the data model

    Apart from REPLACE_RANGE on one row with a replacement of several
    lines, every action keeps the buffer a buffer of the data model, when
    its payload is as the controller builds it: the layout of a MOVE is the
    layout of the lines, the text of a MOVE_TO_OFFSET is the text of the
    buffer and its offset is not negative. *)

(** *** Arrays *)

Lemma len_cons {A} (x : A) (l : list A) : len (x :: l) = 1 + len l.
Proof. unfold len. simpl length. lia. Qed.

Lemma len_firstn {A} (l : list A) (n : Z) :
  0 <= n <= len l -> len (firstn (Z.to_nat n) l) = n.
Proof. unfold len. intro H. rewrite length_firstn. lia. Qed.

Lemma len_skipn {A} (l : list A) (n : Z) :
  0 <= n <= len l -> len (skipn (Z.to_nat n) l) = len l - n.
Proof. unfold len. intro H. rewrite length_skipn. lia. Qed.

Lemma relIndex_inside (n k : Z) : 0 <= k <= n -> relIndex n k = k.
Proof.
  intro H. unfold relIndex.
  replace (k <? 0) with false by (symmetry; apply Z.ltb_ge; lia).
  lia.
Qed.

Lemma listSet_length {A} (pad : A) (a : list A) (n : nat) (v : A) :
  (n < length a)%nat -> length (listSet pad a n v) = length a.
Proof.
  revert a. induction n as [|n IH]; intros [|x a] H; simpl in *; try lia.
  rewrite IH by lia. reflexivity.
Qed.

Lemma listSet_split {A} (pad : A) (a : list A) (n : nat) (v : A) :
  (n < length a)%nat ->
  listSet pad a n v = firstn n a ++ v :: skipn (S n) a.
Proof.
  revert a. induction n as [|n IH]; intros [|x a] H; simpl in *; try lia.
  - reflexivity.
  - rewrite IH by lia. reflexivity.
Qed.

Lemma listSet_map {A B} (f : A -> B) (pad : A) (a : list A) (n : nat)
  (v : A) :
  map f (listSet pad a n v) = listSet (f pad) (map f a) n (f v).
Proof.
  revert a. induction n as [|n IH]; intros [|x a]; simpl.
  - reflexivity.
  - reflexivity.
  - f_equal. exact (IH []).
  - f_equal. apply IH.
Qed.

(** [arrSet] is the JavaScript write as the reducer reads it: also past
    the end, where the write leaves holes. *)
Lemma arrSet_reads_cellsSet (a : list cell) (i : Z) (v : str) :
  readCells (cellsSet a i v) = arrSet (readCells a) i v.
Proof.
  unfold readCells, cellsSet, arrSet.
  destruct (i <? 0); [reflexivity|].
  apply (listSet_map readCell Hole a (Z.to_nat i) (Line v)).
Qed.

(** The spread copies what the reducer reads. *)
Lemma spreadCells_reads (a : list cell) :
  readCells (spreadCells a) = readCells a.
Proof.
  unfold readCells, spreadCells. rewrite map_map.
  apply map_ext. intros [| |s]; reflexivity.
Qed.

(** A dense array is the array of the strings read from it, and its
    copy is the array itself. *)
Lemma dense_reads (a : list cell) : dense a -> a = map Line (readCells a).
Proof.
  unfold dense, readCells. induction 1 as [|c a [s ->] _ IH]; simpl.
  - reflexivity.
  - f_equal. exact IH.
Qed.

Lemma spreadCells_dense (a : list cell) : dense a -> spreadCells a = a.
Proof.
  unfold dense, spreadCells. induction 1 as [|c a [s ->] _ IH]; simpl.
  - reflexivity.
  - f_equal. exact IH.
Qed.

(** A write inside a dense array or right at its end leaves it dense. *)
Lemma cellsSet_dense (a : list cell) (i : Z) (v : str) :
  dense a -> i <= len a -> dense (cellsSet a i v).
Proof.
  unfold dense, cellsSet, len. intros Ha Hi.
  destruct (i <? 0) eqn:E; [exact Ha|].
  apply Z.ltb_ge in E.
  assert (Hn : (Z.to_nat i <= length a)%nat) by lia.
  clear Hi E. revert Hn. generalize (Z.to_nat i) as n.
  induction Ha as [|c a Hc Ha IH]; intros [|n] Hn; simpl in *.
  - constructor; [exists v; reflexivity | constructor].
  - lia.
  - constructor; [exists v; reflexivity | exact Ha].
  - constructor; [exact Hc | apply IH; lia].
Qed.

(** A write further out leaves a hole at the old end of the array, and
    the copy of that array holds [undefined] there. *)
Lemma cellsSet_hole (a : list cell) (i : Z) (v : str) :
  len a < i ->
  arrGet (cellsSet a i v) (len a) = Some Hole
  /\ arrGet (spreadCells (cellsSet a i v)) (len a) = Some Undefined.
Proof.
  unfold cellsSet, arrGet, spreadCells, len. intro Hi.
  replace (i <? 0) with false by (symmetry; apply Z.ltb_ge; lia).
  replace (Z.of_nat (length a) <? 0) with false
    by (symmetry; apply Z.ltb_ge; lia).
  rewrite Nat2Z.id.
  assert (Hn : (length a < Z.to_nat i)%nat) by lia.
  clear Hi. revert Hn. generalize (Z.to_nat i) as n.
  induction a as [|c a IH]; intros [|n] Hn; simpl in *; try lia.
  - split; reflexivity.
  - apply IH. lia.
Qed.

(** Inside the array an assignment replaces one element. *)
Lemma arrSet_split (a : list str) (i : Z) (v : str) :
  0 <= i < len a ->
  arrSet a i v
  = firstn (Z.to_nat i) a ++ v :: skipn (Z.to_nat (i + 1)) a.
Proof.
  intro H. unfold arrSet, len in *.
  replace (i <? 0) with false by (symmetry; apply Z.ltb_ge; lia).
  rewrite (listSet_split (A := str)) by lia.
  replace (Z.to_nat (i + 1)) with (S (Z.to_nat i)) by lia. reflexivity.
Qed.

Lemma arrSet_len (a : list str) (i : Z) (v : str) :
  0 <= i < len a -> len (arrSet a i v) = len a.
Proof.
  intro H. unfold arrSet, len in *.
  replace (i <? 0) with false by (symmetry; apply Z.ltb_ge; lia).
  rewrite (listSet_length (A := str)) by lia. reflexivity.
Qed.

Lemma lineAt_app_l (a b : list str) (i : Z) :
  i < len a -> lineAt (a ++ b) i = lineAt a i.
Proof.
  intro H. unfold lineAt, arrGet, len in *.
  destruct (i <? 0) eqn:E; [reflexivity|]. apply Z.ltb_ge in E.
  rewrite nth_error_app1 by lia. reflexivity.
Qed.

Lemma lineAt_app_r (a b : list str) (i : Z) :
  len a <= i -> lineAt (a ++ b) i = lineAt b (i - len a).
Proof.
  intro H. pose proof (len_nonneg a). unfold lineAt, arrGet, len in *.
  replace (i <? 0) with false by (symmetry; apply Z.ltb_ge; lia).
  replace (i - Z.of_nat (length a) <? 0) with false
    by (symmetry; apply Z.ltb_ge; lia).
  rewrite nth_error_app2 by lia.
  replace (Z.to_nat (i - Z.of_nat (length a)))
    with (Z.to_nat i - length a)%nat by lia.
  reflexivity.
Qed.

Lemma lineAt_head (x : str) (l : list str) : lineAt (x :: l) 0 = x.
Proof. reflexivity. Qed.

Lemma lineAt_firstn (a : list str) (n i : Z) :
  0 <= i < n -> lineAt (firstn (Z.to_nat n) a) i = lineAt a i.
Proof.
  intro H. unfold lineAt, arrGet.
  replace (i <? 0) with false by (symmetry; apply Z.ltb_ge; lia).
  rewrite nth_error_firstn.
  replace (Z.to_nat i <? Z.to_nat n)%nat with true
    by (symmetry; apply Nat.ltb_lt; lia).
  reflexivity.
Qed.

(** The element just written is the one read back. *)
Lemma lineAt_arrSet (a : list str) (i : Z) (v : str) :
  0 <= i < len a -> lineAt (arrSet a i v) i = v.
Proof.
  intro H. rewrite arrSet_split by exact H.
  rewrite lineAt_app_r by (rewrite len_firstn; lia).
  rewrite len_firstn by lia. rewrite Z.sub_diag. reflexivity.
Qed.

Lemma lineAt_arrSet_other (a : list str) (i j : Z) (v : str) :
  0 <= i < len a -> j <> i -> lineAt (arrSet a i v) j = lineAt a j.
Proof.
  intros H Hj. rewrite arrSet_split by exact H.
  unfold lineAt, arrGet. destruct (j <? 0) eqn:E; [reflexivity|].
  apply Z.ltb_ge in E. f_equal.
  rewrite <- (firstn_skipn (Z.to_nat i) a) at 3.
  unfold len in H.
  destruct (Z_lt_ge_dec j i) as [Hlt|Hge].
  - rewrite !nth_error_app1 by (rewrite length_firstn; lia). reflexivity.
  - rewrite !nth_error_app2 by (rewrite length_firstn; lia).
    rewrite length_firstn.
    replace (Z.to_nat j - Nat.min (Z.to_nat i) (length a))%nat
      with (S (Z.to_nat j - S (Z.to_nat i)))%nat by lia.
    simpl nth_error.
    replace (Z.to_nat (i + 1)) with (1 + Z.to_nat i)%nat by lia.
    rewrite <- skipn_skipn.
    destruct (skipn (Z.to_nat i) a) as [|x rest] eqn:Es.
    + assert (Hl : length (skipn (Z.to_nat i) a) = 0%nat)
        by (rewrite Es; reflexivity).
      rewrite length_skipn in Hl. lia.
    + simpl. replace (Z.to_nat j - S (Z.to_nat i))%nat
        with (Z.to_nat j - S (Z.to_nat i))%nat by lia. reflexivity.
Qed.

(** *** Lines without line breaks *)

Lemma noLineBreak_app (a b : str) :
  noLineBreak a -> noLineBreak b -> noLineBreak (a ++ b).
Proof.
  unfold noLineBreak. intros Ha Hb H. apply in_app_or in H. tauto.
Qed.

Lemma noLineBreak_nil : noLineBreak [].
Proof. intro H. exact H. Qed.

Lemma In_firstn {A} (x : A) (n : nat) (l : list A) :
  In x (firstn n l) -> In x l.
Proof.
  intro H. rewrite <- (firstn_skipn n l). apply in_or_app. left. exact H.
Qed.

Lemma In_skipn {A} (x : A) (n : nat) (l : list A) :
  In x (skipn n l) -> In x l.
Proof.
  intro H. rewrite <- (firstn_skipn n l). apply in_or_app. right. exact H.
Qed.

Lemma noLineBreak_cpSlice (s : str) (start : Z) (stop : option Z) :
  noLineBreak s -> noLineBreak (cpSlice s start stop).
Proof.
  unfold noLineBreak, cpSlice. intros H Hin.
  apply In_firstn in Hin. apply In_skipn in Hin. exact (H Hin).
Qed.

Lemma Forall_firstn {A} (P : A -> Prop) (n : nat) (l : list A) :
  Forall P l -> Forall P (firstn n l).
Proof.
  intro H. apply Forall_forall. intros x Hx.
  apply In_firstn in Hx. revert x Hx. apply Forall_forall. exact H.
Qed.

Lemma Forall_skipn {A} (P : A -> Prop) (n : nat) (l : list A) :
  Forall P l -> Forall P (skipn n l).
Proof.
  intro H. apply Forall_forall. intros x Hx.
  apply In_skipn in Hx. revert x Hx. apply Forall_forall. exact H.
Qed.

Lemma Forall_lineAt (ls : list str) (i : Z) :
  Forall noLineBreak ls -> noLineBreak (lineAt ls i).
Proof.
  intro H. unfold lineAt, arrGet.
  destruct (i <? 0); [apply noLineBreak_nil|].
  destruct (nth_error ls (Z.to_nat i)) as [l|] eqn:E;
    [|apply noLineBreak_nil].
  apply nth_error_In in E. revert l E. apply Forall_forall. exact H.
Qed.

Lemma Forall_arrSet (ls : list str) (i : Z) (v : str) :
  0 <= i < len ls ->
  Forall noLineBreak ls -> noLineBreak v ->
  Forall noLineBreak (arrSet ls i v).
Proof.
  intros Hi Hls Hv. rewrite arrSet_split by exact Hi.
  apply Forall_app. split; [apply Forall_firstn; exact Hls|].
  constructor; [exact Hv | apply Forall_skipn; exact Hls].
Qed.

Lemma Forall_splice (ls : list str) (start deleteCount : Z)
  (items : list str) :
  Forall noLineBreak ls -> Forall noLineBreak items ->
  Forall noLineBreak (splice ls start deleteCount items).
Proof.
  intros Hls Hitems. unfold splice.
  apply Forall_app. split; [apply Forall_firstn; exact Hls|].
  apply Forall_app. split; [exact Hitems | apply Forall_skipn; exact Hls].
Qed.

Lemma splitLF_noLineBreak (s : str) : Forall noLineBreak (splitLF s).
Proof.
  induction s as [|c s IH]; simpl.
  - constructor; [apply noLineBreak_nil | constructor].
  - destruct (c =? LF) eqn:E.
    + constructor; [apply noLineBreak_nil | exact IH].
    + apply Z.eqb_neq in E.
      destruct (splitLF s) as [|l ls].
      * constructor; [|constructor].
        intros [H|[]]. congruence.
      * inversion IH as [|? ? Hl Hls]; subst.
        constructor; [|exact Hls].
        intros [H|H]; [congruence | exact (Hl H)].
Qed.

(** A text without line breaks is its own single line. *)
Lemma splitLF_single (s : str) : noLineBreak s -> splitLF s = [s].
Proof.
  induction s as [|c s IH]; intro H; [reflexivity|].
  simpl. destruct (c =? LF) eqn:E.
  - apply Z.eqb_eq in E. exfalso. apply H. left. exact E.
  - rewrite IH; [reflexivity|]. intro Hin. apply H. right. exact Hin.
Qed.

(** Splitting the joined lines gives the lines back. *)
Lemma splitLF_joinLF (ls : list str) :
  ls <> [] -> Forall noLineBreak ls -> splitLF (joinLF ls) = ls.
Proof.
  induction ls as [|l ls IH]; intros Hne Hall; [contradiction|].
  inversion Hall as [|? ? Hl Hls]; subst.
  destruct ls as [|l2 ls].
  - simpl. apply splitLF_single. exact Hl.
  - change (joinLF (l :: l2 :: ls)) with (l ++ LF :: joinLF (l2 :: ls)).
    specialize (IH ltac:(discriminate) Hls).
    clear Hall Hne. induction l as [|c l IHl].
    + cbn [app splitLF]. rewrite Z.eqb_refl, IH. reflexivity.
    + assert (Hc : c <> LF) by (intro E; apply Hl; left; exact E).
      assert (Hl' : noLineBreak l) by (intro E; apply Hl; right; exact E).
      specialize (IHl Hl').
      change ((c :: l) ++ LF :: joinLF (l2 :: ls))
        with (c :: (l ++ LF :: joinLF (l2 :: ls))).
      cbn [splitLF]. apply Z.eqb_neq in Hc. rewrite Hc.
      rewrite IHl. reflexivity.
Qed.

(** *** Code-point slices *)

Lemma clamp_range (v hi : Z) : 0 <= hi -> 0 <= clamp v 0 hi <= hi.
Proof.
  intro H. unfold clamp. destruct (v <? 0) eqn:E1; [lia|].
  destruct (hi <? v) eqn:E2; [lia|].
  apply Z.ltb_ge in E1, E2. lia.
Qed.

Lemma clamp_inside (v hi : Z) : 0 <= v <= hi -> clamp v 0 hi = v.
Proof.
  intro H. unfold clamp.
  replace (v <? 0) with false by (symmetry; apply Z.ltb_ge; lia).
  replace (hi <? v) with false by (symmetry; apply Z.ltb_ge; lia).
  reflexivity.
Qed.

Lemma cpLen_app (a b : str) : cpLen (a ++ b) = cpLen a + cpLen b.
Proof. apply len_app. Qed.

Lemma cpLen_nonneg (a : str) : 0 <= cpLen a.
Proof. apply len_nonneg. Qed.

Lemma cpSlice_prefix_len (s : str) (c : Z) :
  0 <= c <= cpLen s -> cpLen (cpSlice s 0 (Some c)) = c.
Proof.
  intro H. unfold cpSlice.
  rewrite (clamp_inside 0) by lia. rewrite (clamp_inside c) by lia.
  simpl skipn. unfold cpLen in *. rewrite Z.sub_0_r.
  apply len_firstn. exact H.
Qed.

Lemma cpSlice_suffix_len (s : str) (c : Z) :
  0 <= c <= cpLen s -> cpLen (cpSlice s c None) = cpLen s - c.
Proof.
  intro H. unfold cpSlice. rewrite (clamp_inside c) by lia.
  unfold cpLen in *. rewrite firstn_all2.
  - apply len_skipn. exact H.
  - rewrite length_skipn. unfold len in *. lia.
Qed.

(** *** Splices *)

Lemma splice_inside {A} (a : list A) (start deleteCount : Z)
  (items : list A) :
  0 <= start <= len a -> 0 <= deleteCount <= len a - start ->
  splice a start deleteCount items
  = firstn (Z.to_nat start) a ++ items
    ++ skipn (Z.to_nat (start + deleteCount)) a.
Proof.
  intros Hs Hd. unfold splice. rewrite relIndex_inside by exact Hs.
  rewrite Z.max_l by lia. rewrite Z.min_l by lia. reflexivity.
Qed.

Lemma len_splice {A} (a : list A) (start deleteCount : Z)
  (items : list A) :
  0 <= start <= len a -> 0 <= deleteCount <= len a - start ->
  len (splice a start deleteCount items)
  = len a - deleteCount + len items.
Proof.
  intros Hs Hd. rewrite splice_inside by assumption.
  rewrite !len_app, len_firstn, len_skipn by lia. lia.
Qed.

(** Left of the splice the lines stay. *)
Lemma lineAt_splice_before (a : list str) (start deleteCount : Z)
  (items : list str) (i : Z) :
  0 <= start <= len a -> 0 <= deleteCount <= len a - start ->
  0 <= i < start ->
  lineAt (splice a start deleteCount items) i = lineAt a i.
Proof.
  intros Hs Hd Hi. rewrite splice_inside by assumption.
  rewrite lineAt_app_l by (rewrite len_firstn; lia).
  apply lineAt_firstn. exact Hi.
Qed.

(** The spliced lines come first at the splice. *)
Lemma lineAt_splice_items (a : list str) (start deleteCount : Z)
  (items : list str) (i : Z) :
  0 <= start <= len a -> 0 <= deleteCount <= len a - start ->
  start <= i < start + len items ->
  lineAt (splice a start deleteCount items) i = lineAt items (i - start).
Proof.
  intros Hs Hd Hi. rewrite splice_inside by assumption.
  rewrite lineAt_app_r by (rewrite len_firstn; lia).
  rewrite len_firstn by lia.
  apply lineAt_app_l. lia.
Qed.

(** *** The buffer after an insert and after a backspace *)

Lemma bufferOk_row (ls : list str) (row col : Z) :
  bufferOk ls row col -> 0 <= row < len ls.
Proof. intros (_ & H & _). exact H. Qed.

Lemma len_tl {A} (l : list A) : l <> [] -> len (tl l) = len l - 1.
Proof.
  destruct l; [contradiction|]. intros _. rewrite len_cons. cbn [tl]. lia.
Qed.

Lemma len_removelast {A} (l : list A) :
  l <> [] -> len (removelast l) = len l - 1.
Proof.
  intro H. destruct (exists_last H) as (l' & x & ->).
  rewrite removelast_last, len_app. unfold len. simpl. lia.
Qed.

Lemma Forall_tl {A} (P : A -> Prop) (l : list A) :
  Forall P l -> Forall P (tl l).
Proof. intro H. destruct l; [exact H|]. inversion H. assumption. Qed.

Lemma Forall_removelast {A} (P : A -> Prop) (l : list A) :
  Forall P l -> Forall P (removelast l).
Proof.
  intro H. destruct l as [|x l]; [exact H|].
  destruct (exists_last (l := x :: l) ltac:(discriminate)) as (l' & y & E).
  rewrite E in *. rewrite removelast_last.
  apply Forall_app in H. tauto.
Qed.

Lemma Forall_lastElem {A} (P : A -> Prop) (l : list A) (x : A) :
  Forall P l -> lastElem l = Some x -> P x.
Proof.
  intros H E. destruct l as [|y l]; [discriminate|].
  simpl in E. injection E as <-.
  assert (Hin : In (last l y) (y :: l)).
  { clear. revert y. induction l as [|z l IH]; intro y; [left; reflexivity|].
    right. change (last (z :: l) y) with (last (z :: l) y).
    rewrite last_cons. apply IH. }
  revert Hin. apply Forall_forall. exact H.
Qed.

Lemma insertParts_ok (ls : list str) (row col : Z) (parts : list str) :
  bufferOk ls row col ->
  parts <> [] -> Forall noLineBreak parts ->
  let '(ls', row', col') := insertParts ls row col parts in
  bufferOk ls' row' col'.
Proof.
  intros (Hls & Hrow & Hcol) Hne Hparts. unfold insertParts.
  set (line := lineAt ls row) in *.
  assert (Hline : noLineBreak line) by (apply Forall_lineAt; exact Hls).
  set (before := cpSlice line 0 (Some col)).
  set (after := cpSlice line col None).
  assert (Hb : cpLen before = col) by (apply cpSlice_prefix_len; exact Hcol).
  assert (Hnb : noLineBreak before) by (apply noLineBreak_cpSlice; exact Hline).
  assert (Hna : noLineBreak after) by (apply noLineBreak_cpSlice; exact Hline).
  assert (Hp0 : noLineBreak (lineAt parts 0))
    by (apply Forall_lineAt; exact Hparts).
  pose proof (cpLen_nonneg after) as Ha.
  destruct (1 <? len parts) eqn:E.
  - apply Z.ltb_lt in E.
    set (rest := sliceFrom1 parts).
    assert (Hrest : len rest = len parts - 1) by (apply len_tl; exact Hne).
    assert (Hrne : rest <> []).
    { intro H0. rewrite H0 in Hrest. unfold len in Hrest at 1.
      simpl in Hrest. lia. }
    assert (Hfr : Forall noLineBreak rest) by (apply Forall_tl; exact Hparts).
    destruct (lastElem rest) as [lp|] eqn:Elast;
      [|destruct rest; [contradiction | discriminate]].
    assert (Hlp : noLineBreak lp)
      by (exact (Forall_lastElem _ _ _ Hfr Elast)).
    set (middle := sliceButLast rest).
    assert (Hmid : len middle = len parts - 2)
      by (unfold middle, sliceButLast;
          rewrite len_removelast by exact Hrne; lia).
    assert (Hfm : Forall noLineBreak middle)
      by (apply Forall_removelast; exact Hfr).
    set (l1 := arrSet ls row (before ++ lineAt parts 0)).
    assert (Hl1 : len l1 = len ls) by (apply arrSet_len; exact Hrow).
    assert (Hf1 : Forall noLineBreak l1).
    { apply Forall_arrSet; [exact Hrow | exact Hls|].
      apply noLineBreak_app; assumption. }
    set (l2 := splice l1 (row + 1) 0 middle).
    assert (Hl2 : len l2 = len ls + len middle).
    { unfold l2. rewrite len_splice by lia. lia. }
    assert (Hf2 : Forall noLineBreak l2)
      by (apply Forall_splice; assumption).
    pose proof (cpLen_nonneg lp) as Hlpn.
    repeat split.
    + apply Forall_splice; [exact Hf2|].
      constructor; [|constructor]. apply noLineBreak_app; assumption.
    + lia.
    + rewrite len_splice by lia.
      change (len [lp ++ after]) with 1. lia.
    + exact Hlpn.
    + rewrite lineAt_splice_items; try lia.
      * rewrite Z.sub_diag.
        change (lineAt [lp ++ after] 0) with (lp ++ after).
        rewrite cpLen_app. lia.
      * change (len [lp ++ after]) with 1. lia.
  - apply Z.ltb_ge in E.
    pose proof (cpLen_nonneg (lineAt parts 0)) as Hp.
    repeat split.
    + apply Forall_arrSet; [exact Hrow | exact Hls|].
      repeat apply noLineBreak_app; assumption.
    + lia.
    + rewrite arrSet_len by exact Hrow. lia.
    + lia.
    + rewrite lineAt_arrSet by exact Hrow. rewrite !cpLen_app. lia.
Qed.

(** The line join of backspace, DELETE and the kills: line [row + 1] is
    appended to line [row] and removed. *)
Lemma join_lines_ok (ls : list str) (row col : Z) :
  Forall noLineBreak ls ->
  0 <= row < len ls - 1 ->
  0 <= col <= cpLen (lineAt ls row ++ lineAt ls (row + 1)) ->
  bufferOk
    (splice (arrSet ls row (lineAt ls row ++ lineAt ls (row + 1)))
       (row + 1) 1 [])
    row col.
Proof.
  intros Hls Hrow Hcol.
  set (joined := lineAt ls row ++ lineAt ls (row + 1)) in *.
  assert (Hl1 : len (arrSet ls row joined) = len ls)
    by (apply arrSet_len; lia).
  repeat split.
  - apply Forall_splice; [|constructor].
    apply Forall_arrSet; [lia | exact Hls|].
    apply noLineBreak_app; apply Forall_lineAt; exact Hls.
  - lia.
  - rewrite len_splice by lia. change (len (@nil str)) with 0. lia.
  - lia.
  - rewrite lineAt_splice_before by lia.
    rewrite lineAt_arrSet by lia. lia.
Qed.

Section EngineInvariant.

Variable stripAnsi : str -> str.

Lemma applyOp_ok (ls : list str) (row col : Z) (op : UpdateOperation) :
  bufferOk ls row col ->
  let '(ls', row', col') := applyOp stripAnsi (ls, row, col) op in
  bufferOk ls' row' col'.
Proof.
  intro Hok. destruct op as [payload|]; cbn [applyOp].
  - apply insertParts_ok; [exact Hok | apply splitLF_nonempty|].
    apply splitLF_noLineBreak.
  - pose proof Hok as (Hls & Hrow & Hcol).
    destruct ((col =? 0) && (row =? 0)); [exact Hok|].
    destruct (0 <? col) eqn:Ec.
    + apply Z.ltb_lt in Ec.
      set (line := lineAt ls row) in *.
      assert (Hline : noLineBreak line) by (apply Forall_lineAt; exact Hls).
      repeat split.
      * apply Forall_arrSet; [exact Hrow | exact Hls|].
        apply noLineBreak_app; apply noLineBreak_cpSlice; exact Hline.
      * lia.
      * rewrite arrSet_len by exact Hrow. lia.
      * lia.
      * rewrite lineAt_arrSet by exact Hrow.
        rewrite cpLen_app, cpSlice_prefix_len, cpSlice_suffix_len by lia.
        lia.
    + apply Z.ltb_ge in Ec.
      destruct (0 <? row) eqn:Er; [|exact Hok].
      apply Z.ltb_lt in Er.
      pose proof (cpLen_nonneg (lineAt ls (row - 1))) as Hp.
      pose proof (cpLen_nonneg (lineAt ls row)) as Hc.
      pose proof (join_lines_ok ls (row - 1) (cpLen (lineAt ls (row - 1)))
                    Hls ltac:(lia)) as H.
      replace (row - 1 + 1) with row in H by lia.
      apply H. rewrite cpLen_app. lia.
Qed.

Lemma applyOps_ok (ops : list UpdateOperation) :
  forall (ls : list str) (row col : Z),
    bufferOk ls row col ->
    let '(ls', row', col') :=
      fold_left (applyOp stripAnsi) ops (ls, row, col) in
    bufferOk ls' row' col'.
Proof.
  induction ops as [|op ops IH]; intros ls row col Hok; [exact Hok|].
  cbn [fold_left].
  pose proof (applyOp_ok ls row col op Hok) as H.
  destruct (applyOp stripAnsi (ls, row, col) op) as [[ls1 row1] col1].
  apply IH. exact H.
Qed.

(** *** Snapshots *)

Lemma snapshotOf_ok (s : TextBufferState) :
  stateOk s -> entryOk (snapshotOf s).
Proof. intros (H & _). exact H. Qed.

Lemma pushUndo_history_ok (s : TextBufferState) :
  stateOk s -> Forall entryOk (undoStack (pushUndo s)).
Proof.
  intros Hs. pose proof Hs as (_ & Hu & _).
  unfold pushUndo. cbn [undoStack setStacks].
  assert (H : Forall entryOk (undoStack s ++ [snapshotOf s])).
  { apply Forall_app. split; [exact Hu|].
    constructor; [apply snapshotOf_ok; exact Hs | constructor]. }
  destruct (historyLimit <? len (undoStack s ++ [snapshotOf s]));
    [apply Forall_tl|]; exact H.
Qed.

(** An edit that took its snapshot keeps the invariant when it leaves a
    buffer of the data model. *)
Lemma stateOk_edit (s r : TextBufferState) :
  stateOk s ->
  undoStack r = undoStack (pushUndo s) ->
  redoStack r = [] ->
  bufferOk (lines r) (cursorRow r) (cursorCol r) ->
  stateOk r.
Proof.
  intros Hs Hu Hr Hb. split; [exact Hb|]. split.
  - rewrite Hu. apply pushUndo_history_ok. exact Hs.
  - rewrite Hr. constructor.
Qed.

Lemma joinWithNext_ok (s : TextBufferState) :
  stateOk s ->
  cursorRow s < len (lines s) - 1 ->
  stateOk (joinWithNext s).
Proof.
  intros Hs Hrow. pose proof Hs as ((Hls & Hr & Hc) & _).
  apply (stateOk_edit s); [exact Hs | reflexivity | reflexivity|].
  unfold joinWithNext.
  cbn [lines cursorRow cursorCol setPreferredCol setLines pushUndo
       setStacks].
  apply join_lines_ok; [exact Hls | lia|].
  pose proof (cpLen_nonneg (lineAt (lines s) (cursorRow s + 1))).
  rewrite cpLen_app. lia.
Qed.

Lemma joinWithPrevious_ok (s : TextBufferState) :
  stateOk s ->
  0 < cursorRow s ->
  stateOk (joinWithPrevious s).
Proof.
  intros Hs Hrow. pose proof Hs as ((Hls & Hr & Hc) & _).
  apply (stateOk_edit s); [exact Hs | reflexivity | reflexivity|].
  unfold joinWithPrevious.
  cbn [lines cursorRow cursorCol setPreferredCol setCursor setLines
       pushUndo setStacks].
  pose proof (cpLen_nonneg (lineAt (lines s) (cursorRow s - 1))) as Hp.
  pose proof (cpLen_nonneg (lineAt (lines s) (cursorRow s))) as Hcur.
  pose proof (join_lines_ok (lines s) (cursorRow s - 1)
                (cpLen (lineAt (lines s) (cursorRow s - 1)))
                Hls ltac:(lia)) as H.
  replace (cursorRow s - 1 + 1) with (cursorRow s) in H by lia.
  apply H. rewrite cpLen_app. lia.
Qed.

(** An edit of the line of the cursor: the new line must hold the new
    column. *)
Lemma edit_line_ok (s : TextBufferState) (newLine : str) (col : Z) :
  stateOk s ->
  noLineBreak newLine ->
  0 <= col <= cpLen newLine ->
  bufferOk (arrSet (lines s) (cursorRow s) newLine) (cursorRow s) col.
Proof.
  intros ((Hls & Hr & Hc) & _) Hn Hcol. repeat split.
  - apply Forall_arrSet; assumption.
  - lia.
  - rewrite arrSet_len by exact Hr. lia.
  - lia.
  - rewrite lineAt_arrSet by exact Hr. lia.
Qed.

Lemma scanLeft_le (p : option codepoint -> bool) (arr : list codepoint)
  (n : nat) : (scanLeft p arr n <= n)%nat.
Proof.
  induction n as [|n IH]; simpl; [lia|].
  destruct (p (arrGet arr (Z.of_nat n))); lia.
Qed.

Lemma wordStartLeft_range (arr : list codepoint) (col : Z) :
  0 < col -> 0 <= wordStartLeft arr col <= col.
Proof.
  intro H. unfold wordStartLeft.
  replace (0 <? col) with true by (symmetry; apply Z.ltb_lt; lia).
  destruct (negb (anyWordChar arr 0 (Z.to_nat col))); simpl; [lia|].
  pose proof (scanLeft_le notWordChar arr (Z.to_nat col)) as H1.
  pose proof (scanLeft_le isWordChar arr
                (scanLeft notWordChar arr (Z.to_nat col))) as H2.
  lia.
Qed.

End EngineInvariant.

(** *** Positions of the position mapper *)

Lemma lineAt_cons (l : str) (ls : list str) (i : Z) :
  0 < i -> lineAt (l :: ls) i = lineAt ls (i - 1).
Proof.
  intro H. change (l :: ls) with ([l] ++ ls).
  rewrite lineAt_app_r by (change (len [l]) with 1; lia).
  reflexivity.
Qed.

Lemma lineAt_last (ls : list str) (l : str) :
  lastElem ls = Some l -> lineAt ls (len ls - 1) = l.
Proof.
  induction ls as [|x ls IH]; [discriminate|].
  destruct ls as [|y ls].
  - simpl. intro H. injection H as <-. reflexivity.
  - rewrite lastElem_cons. intro H.
    rewrite lineAt_cons by (rewrite !len_cons; pose proof (len_nonneg ls); lia).
    rewrite len_cons. replace (1 + len (y :: ls) - 1 - 1)
      with (len (y :: ls) - 1) by lia.
    apply IH. exact H.
Qed.

Lemma offsetLoop_valid (rest : list str) :
  forall (n j cur off r c : Z),
    n = j + len rest ->
    cur <= off ->
    offsetLoop rest n j cur off = Some (r, c) ->
    0 <= r - j < len rest /\ 0 <= c <= cpLen (lineAt rest (r - j)).
Proof.
  induction rest as [|line rest IH]; intros n j cur off r c Hn Hcur Hrun;
    [discriminate|].
  rewrite len_cons in *. pose proof (len_nonneg rest) as Hrest.
  pose proof (cpLen_nonneg line) as Hline.
  cbn [offsetLoop] in Hrun.
  destruct (off <=? cur + cpLen line) eqn:E1.
  - apply Z.leb_le in E1. injection Hrun as <- <-.
    rewrite Z.sub_diag, lineAt_head. lia.
  - apply Z.leb_gt in E1.
    destruct (j <? n - 1) eqn:Ej.
    + apply Z.ltb_lt in Ej.
      destruct (off <=? cur + (cpLen line + 1)) eqn:E2.
      * apply Z.leb_le in E2.
        replace (off =? cur + (cpLen line + 1)) with true in Hrun
          by (symmetry; apply Z.eqb_eq; lia).
        simpl in Hrun. injection Hrun as <- <-.
        replace (j + 1 - j) with 1 by lia.
        pose proof (cpLen_nonneg (lineAt (line :: rest) 1)). lia.
      * apply Z.leb_gt in E2.
        destruct (IH n (j + 1) (cur + (cpLen line + 1)) off r c
                    ltac:(lia) ltac:(lia) Hrun) as [Hr Hc].
        split; [lia|].
        rewrite lineAt_cons by lia.
        replace (r - j - 1) with (r - (j + 1)) by lia. exact Hc.
    + apply Z.ltb_ge in Ej. rewrite Z.add_0_r in Hrun.
      replace (off <=? cur + cpLen line) with false in Hrun
        by (symmetry; apply Z.leb_gt; lia).
      destruct rest; [discriminate|].
      rewrite len_cons in *. pose proof (len_nonneg rest). lia.
Qed.

(** The position of an offset that is not negative is a position of the
    text. *)
Lemma offsetToLogicalPos_valid (text : str) (offset : Z) :
  0 <= offset ->
  validPosition (splitLF text) (offsetToLogicalPos text offset).
Proof.
  intro H. unfold offsetToLogicalPos, validPosition.
  pose proof (splitLF_nonempty text) as Hne.
  assert (Hlen : 0 < len (splitLF text)).
  { destruct (splitLF text) as [|l0 ls0]; [contradiction|].
    rewrite len_cons. pose proof (len_nonneg ls0). lia. }
  destruct (offset =? 0).
  - cbn [fst snd]. pose proof (cpLen_nonneg (lineAt (splitLF text) 0)). lia.
  - destruct (offsetLoop (splitLF text) (len (splitLF text)) 0 0 offset)
      as [[r c]|] eqn:E.
    + destruct (offsetLoop_valid (splitLF text) (len (splitLF text)) 0 0
                  offset r c ltac:(lia) H E) as [Hr Hc].
      rewrite Z.sub_0_r in *. cbn [fst snd]. lia.
    + destruct (lastElem (splitLF text)) as [l|] eqn:El;
        [|destruct (splitLF text); [contradiction | discriminate]].
      cbn [fst snd]. rewrite (lineAt_last _ _ El).
      pose proof (cpLen_nonneg l). lia.
Qed.

Lemma initialCursorLoop_valid (rest : list str) :
  forall (n row remaining r c : Z),
    n = row + len rest ->
    0 <= remaining ->
    initialCursorLoop rest n row remaining = Some (r, c) ->
    0 <= r - row < len rest /\ 0 <= c <= cpLen (lineAt rest (r - row)).
Proof.
  induction rest as [|line rest IH]; intros n row remaining r c Hn Hrem Hrun;
    [discriminate|].
  rewrite len_cons in *. pose proof (len_nonneg rest) as Hrest.
  pose proof (cpLen_nonneg line) as Hline.
  cbn [initialCursorLoop] in Hrun.
  destruct (remaining <=? cpLen line) eqn:E1.
  - apply Z.leb_le in E1. injection Hrun as <- <-.
    rewrite Z.sub_diag, lineAt_head. lia.
  - apply Z.leb_gt in E1.
    assert (Hrem' : 0 <= remaining
                         - (cpLen line + (if row <? n - 1 then 1 else 0))).
    { destruct (row <? n - 1); lia. }
    destruct (IH n (row + 1) _ r c ltac:(lia) Hrem' Hrun) as [Hr Hc].
    split; [lia|].
    rewrite lineAt_cons by lia.
    replace (r - row - 1) with (r - (row + 1)) by lia. exact Hc.
Qed.

Lemma calculateInitialCursorPosition_valid (ls : list str) (offset : Z) :
  ls <> [] -> 0 <= offset ->
  validPosition ls (calculateInitialCursorPosition ls offset).
Proof.
  intros Hne H. unfold calculateInitialCursorPosition, validPosition.
  assert (Hlen : 0 < len ls).
  { destruct ls as [|l0 ls0]; [contradiction|].
    rewrite len_cons. pose proof (len_nonneg ls0). lia. }
  destruct (initialCursorLoop ls (len ls) 0 offset) as [[r c]|] eqn:E.
  - destruct (initialCursorLoop_valid ls (len ls) 0 offset r c
                ltac:(lia) H E) as [Hr Hc].
    rewrite Z.sub_0_r in *. cbn [fst snd]. lia.
  - destruct (lastElem ls) as [l|] eqn:El;
      [|destruct ls; [contradiction | discriminate]].
    cbn [fst snd]. rewrite (lineAt_last _ _ El).
      pose proof (cpLen_nonneg l). lia.
Qed.

(** *** Rows of the layout *)


Section LayoutRows.

Variable stringWidth : str -> Z.

Lemma wrapLine_rows (n : Z) (codePoints : list codepoint) (logIndex : Z)
  (logicalCursor : Position) (viewportWidth : Z) (fuel : nat) :
  0 <= logIndex < n ->
  forall (pos : Z) (acc acc' : LayoutAcc),
    rowsBelow n (accVisualToLogical acc) ->
    wrapLine stringWidth fuel codePoints logIndex logicalCursor
      viewportWidth pos acc = Some acc' ->
    rowsBelow n (accVisualToLogical acc').
Proof.
  intro Hidx. induction fuel as [|fuel IH]; intros pos acc acc' Hacc Hrun.
  - simpl in Hrun. destruct (pos <? len codePoints); [discriminate|].
    injection Hrun as <-. exact Hacc.
  - cbn [wrapLine] in Hrun.
    destruct (pos <? len codePoints);
      [|injection Hrun as <-; exact Hacc].
    eapply IH; [|exact Hrun].
    cbn [accVisualToLogical]. apply Forall_snoc; [exact Hacc|].
    exact Hidx.
Qed.

Lemma lineEndCursor_rows (codePoints : list codepoint) (logIndex : Z)
  (logicalCursor : Position) (acc : LayoutAcc) :
  accVisualToLogical (lineEndCursor codePoints logIndex logicalCursor acc)
  = accVisualToLogical acc.
Proof.
  unfold lineEndCursor.
  destruct ((logIndex =? fst logicalCursor)
            && (snd logicalCursor =? len codePoints)); [|reflexivity].
  destruct (arrGet (accVisualLines acc) (len (accVisualLines acc) - 1));
    [|reflexivity].
  destruct (0 <=? len (accVisualLines acc) - 1); reflexivity.
Qed.

Lemma layoutLine_rows (n : Z) (logLine : str) (logIndex : Z)
  (logicalCursor : Position) (viewportWidth : Z) (acc acc' : LayoutAcc) :
  0 <= logIndex < n ->
  rowsBelow n (accVisualToLogical acc) ->
  layoutLine stringWidth logLine logIndex logicalCursor viewportWidth acc
  = Some acc' ->
  rowsBelow n (accVisualToLogical acc').
Proof.
  intros Hidx Hacc Hrun. unfold layoutLine in Hrun.
  destruct (jsLength logLine =? 0).
  - injection Hrun as <-. cbn [accVisualToLogical].
    apply Forall_snoc; [exact Hacc | exact Hidx].
  - destruct (wrapLine stringWidth (length (toCodePoints logLine))
                (toCodePoints logLine) logIndex logicalCursor viewportWidth
                0 _) as [acc1|] eqn:Hwrap; [|discriminate].
    injection Hrun as <-. rewrite lineEndCursor_rows.
    eapply wrapLine_rows; [exact Hidx | | exact Hwrap]. exact Hacc.
Qed.

Lemma layoutLines_rows (n : Z) (rest : list str) :
  forall (logIndex : Z) (logicalCursor : Position) (viewportWidth : Z)
         (acc acc' : LayoutAcc) (l2v l2v' : list (list Position)),
    0 <= logIndex -> logIndex + len rest = n ->
    rowsBelow n (accVisualToLogical acc) ->
    layoutLines stringWidth rest logIndex logicalCursor viewportWidth acc l2v
    = Some (acc', l2v') ->
    rowsBelow n (accVisualToLogical acc').
Proof.
  induction rest as [|logLine rest IH];
    intros logIndex logicalCursor viewportWidth acc acc' l2v l2v'
      Hidx Hn Hacc Hrun.
  - simpl in Hrun. injection Hrun as <- _. exact Hacc.
  - simpl in Hrun. rewrite len_cons in Hn.
    pose proof (len_nonneg rest) as Hrest.
    destruct (layoutLine stringWidth logLine logIndex logicalCursor
                viewportWidth acc) as [acc1|] eqn:Hline; [|discriminate].
    eapply IH; [| | |exact Hrun]; [lia | lia|].
    eapply layoutLine_rows; [|exact Hacc | exact Hline]. lia.
Qed.

(** The rows of [visualToLogicalMap] are rows of the logical lines. *)
Lemma calculateVisualLayout_rows (logicalLines : list str)
  (logicalCursor : Position) (viewportWidth : Z) (layout : VisualLayout) :
  logicalLines <> [] ->
  calculateVisualLayout stringWidth logicalLines logicalCursor viewportWidth
  = Some layout ->
  rowsBelow (len logicalLines) (visualToLogicalMap layout).
Proof.
  intros Hne Hrun. unfold calculateVisualLayout in Hrun.
  assert (Hlen : 0 < len logicalLines).
  { destruct logicalLines as [|l0 ls0]; [contradiction|].
    rewrite len_cons. pose proof (len_nonneg ls0). lia. }
  destruct (layoutLines stringWidth logicalLines 0 logicalCursor
              viewportWidth (mkLayoutAcc [] [] [] (0, 0)) [])
    as [[acc l2v]|] eqn:Hlines; [|discriminate].
  assert (Hacc : rowsBelow (len logicalLines) (accVisualToLogical acc)).
  { eapply layoutLines_rows; [| | |exact Hlines]; [lia | lia|].
    constructor. }
  repeat match type of Hrun with
    | context [if ?c then _ else _] => destruct c
    end; injection Hrun as <-; cbn [visualToLogicalMap];
    try exact Hacc.
  apply Forall_snoc; [exact Hacc|]. cbn [fst]. lia.
Qed.

End LayoutRows.

(** *** The invariant under each action *)

Section ActionInvariant.

Variable stripAnsi : str -> str.

Local Abbreviation reduce := (textBufferReducer stripAnsi).

Lemma stateOk_lines (s : TextBufferState) : stateOk s -> lines s <> [].
Proof.
  intros ((_ & Hr & _) & _) E. rewrite E in Hr. unfold len in Hr.
  simpl in Hr. lia.
Qed.

Lemma arrGet_In {A} (a : list A) (i : Z) (x : A) :
  arrGet a i = Some x -> In x a.
Proof.
  unfold arrGet. destruct (i <? 0); [discriminate|]. apply nth_error_In.
Qed.

Lemma move_ok (s : TextBufferState) (dir : Direction)
  (visualLayout : VisualLayout) :
  stateOk s ->
  rowsBelow (len (lines s)) (visualToLogicalMap visualLayout) ->
  stateOk (moveCursor s dir visualLayout).
Proof.
  intros Hs Hrows. unfold moveCursor.
  match goal with
  | |- stateOk (match ?t with (_, _) => _ end) =>
      destruct t as [[vr vc] pc]
  end.
  destruct (arrGet (visualToLogicalMap visualLayout) vr) as [[logRow c0]|]
    eqn:E; [|exact Hs].
  apply arrGet_In in E.
  pose proof (proj1 (Forall_forall _ _) Hrows _ E) as Hrow. cbn [fst] in Hrow.
  destruct Hs as ((Hls & _ & _) & Hu & Hr).
  split; [|split; assumption].
  cbn [lines cursorRow cursorCol setPreferredCol setCursor].
  split; [exact Hls|]. split; [exact Hrow|].
  apply clamp_range. apply cpLen_nonneg.
Qed.

Lemma moveToOffset_ok (s : TextBufferState) (offset : Z) :
  stateOk s -> 0 <= offset ->
  stateOk (reduce s (MOVE_TO_OFFSET (joinLF (lines s)) offset)).
Proof.
  intros Hs Hoff. pose proof (stateOk_lines s Hs) as Hne.
  destruct Hs as ((Hls & _ & _) & Hu & Hr).
  pose proof (offsetToLogicalPos_valid (joinLF (lines s)) offset Hoff) as Hv.
  rewrite (splitLF_joinLF _ Hne Hls) in Hv.
  cbn [textBufferReducer].
  destruct (offsetToLogicalPos (joinLF (lines s)) offset) as [r c].
  destruct Hv as [Hrow Hcol]. cbn [fst snd] in *.
  split; [|split; assumption].
  cbn [lines cursorRow cursorCol setPreferredCol setCursor].
  split; [exact Hls|]. split; assumption.
Qed.

Lemma setText_ok (s : TextBufferState) (payload : str)
  (pushToUndo : option bool) :
  stateOk s -> stateOk (reduce s (SET_TEXT payload pushToUndo)).
Proof.
  intro Hs. cbn [textBufferReducer].
  set (parts := splitLF (replaceCRLFopt payload)).
  pose proof (splitLF_nonempty (replaceCRLFopt payload)) as Hne.
  fold parts in Hne.
  assert (Hlen : 0 < len parts).
  { destruct parts as [|l0 ls0]; [contradiction|].
    rewrite len_cons. pose proof (len_nonneg ls0). lia. }
  replace (len parts =? 0) with false by (symmetry; apply Z.eqb_neq; lia).
  assert (Hb : bufferOk parts (len parts - 1)
                 (cpLen (lineAt parts (len parts - 1)))).
  { split; [apply splitLF_noLineBreak|].
    pose proof (cpLen_nonneg (lineAt parts (len parts - 1))). lia. }
  destruct pushToUndo as [[|]|];
    try (apply (stateOk_edit s); [exact Hs | reflexivity | reflexivity|];
         exact Hb).
  destruct Hs as (_ & Hu & Hr). split; [exact Hb|]. split; assumption.
Qed.

Lemma applyOperations_ok (s : TextBufferState)
  (ops : list UpdateOperation) :
  stateOk s -> stateOk (reduce s (APPLY_OPERATIONS ops)).
Proof.
  intro Hs. cbn [textBufferReducer].
  destruct (len ops =? 0); [exact Hs|].
  destruct (len (expandOps ops) =? 0); [exact Hs|].
  pose proof (applyOps_ok stripAnsi (expandOps ops) (lines s) (cursorRow s)
                (cursorCol s) (proj1 Hs)) as H.
  cbn [lines cursorRow cursorCol pushUndo setStacks].
  destruct (fold_left (applyOp stripAnsi) (expandOps ops)
              (lines s, cursorRow s, cursorCol s)) as [[ls row] col].
  apply (stateOk_edit s); [exact Hs | reflexivity | reflexivity|].
  exact H.
Qed.

Lemma paste_ok (s : TextBufferState) :
  stateOk s -> stateOk (reduce s PASTE).
Proof.
  intro Hs. cbn [textBufferReducer].
  destruct (clipboard s) as [clip|]; [|exact Hs].
  cbn [lines cursorRow cursorCol pushUndo setStacks].
  match goal with
  | |- stateOk (match insertParts _ _ _ ?p with (_, _) => _ end) =>
      pose proof (insertParts_ok (lines s) (cursorRow s) (cursorCol s) p
                    (proj1 Hs) (splitLF_nonempty _) (splitLF_noLineBreak _))
        as H;
      destruct (insertParts (lines s) (cursorRow s) (cursorCol s) p)
        as [[ls row] col]
  end.
  apply (stateOk_edit s); [exact Hs | reflexivity | reflexivity|].
  exact H.
Qed.

Lemma delete_ok (s : TextBufferState) :
  stateOk s -> stateOk (reduce s DELETE).
Proof.
  intro Hs. pose proof Hs as ((Hls & Hr & Hc) & _). cbn [textBufferReducer].
  destruct (cursorCol s <? cpLen (lineAt (lines s) (cursorRow s))) eqn:E.
  - apply Z.ltb_lt in E.
    apply (stateOk_edit s); [exact Hs | reflexivity | reflexivity|].
    cbn [lines cursorRow cursorCol setPreferredCol setLines pushUndo
         setStacks].
    pose proof (Forall_lineAt (lines s) (cursorRow s) Hls) as Hline.
    apply edit_line_ok; [exact Hs|..].
    + apply noLineBreak_app; apply noLineBreak_cpSlice; exact Hline.
    + rewrite cpLen_app, cpSlice_prefix_len, cpSlice_suffix_len by lia.
      lia.
  - destruct (cursorRow s <? len (lines s) - 1) eqn:E2; [|exact Hs].
    apply Z.ltb_lt in E2. apply joinWithNext_ok; assumption.
Qed.

Lemma deleteWordLeft_ok (s : TextBufferState) :
  stateOk s -> stateOk (reduce s DELETE_WORD_LEFT).
Proof.
  intro Hs. pose proof Hs as ((Hls & Hr & Hc) & _). cbn [textBufferReducer].
  destruct ((cursorCol s =? 0) && (cursorRow s =? 0)) eqn:E0; [exact Hs|].
  destruct (cursorCol s =? 0) eqn:E1.
  - apply joinWithPrevious_ok; [exact Hs|].
    simpl in E0. apply Z.eqb_neq in E0. lia.
  - apply Z.eqb_neq in E1.
    apply (stateOk_edit s); [exact Hs | reflexivity | reflexivity|].
    cbn [lines cursorRow cursorCol setPreferredCol setCursorCol setCursor
         setLines pushUndo setStacks].
    pose proof (Forall_lineAt (lines s) (cursorRow s) Hls) as Hline.
    pose proof (wordStartLeft_range
                  (toCodePoints (lineAt (lines s) (cursorRow s)))
                  (cursorCol s) ltac:(lia)) as Hstart.
    apply edit_line_ok; [exact Hs|..].
    + apply noLineBreak_app; apply noLineBreak_cpSlice; exact Hline.
    + rewrite cpLen_app, cpSlice_prefix_len, cpSlice_suffix_len by lia.
      lia.
Qed.

Lemma deleteWordRight_ok (s : TextBufferState) :
  stateOk s -> stateOk (reduce s DELETE_WORD_RIGHT).
Proof.
  intro Hs. pose proof Hs as ((Hls & Hr & Hc) & _). cbn [textBufferReducer].
  unfold toCodePoints.
  destruct (len (lineAt (lines s) (cursorRow s)) <=? cursorCol s) eqn:E.
  - destruct (cursorRow s =? len (lines s) - 1) eqn:E2; [exact Hs|].
    apply Z.eqb_neq in E2. cbn [andb]. apply joinWithNext_ok; [exact Hs|lia].
  - cbn [andb].
    apply (stateOk_edit s); [exact Hs | reflexivity | reflexivity|].
    cbn [lines cursorRow cursorCol setPreferredCol setLines pushUndo
         setStacks].
    pose proof (Forall_lineAt (lines s) (cursorRow s) Hls) as Hline.
    apply edit_line_ok; [exact Hs|..].
    + apply noLineBreak_app; apply noLineBreak_cpSlice; exact Hline.
    + rewrite cpLen_app, cpSlice_prefix_len by lia.
      match goal with
      | |- context [cpLen (cpSlice ?l ?e None)] =>
          pose proof (cpLen_nonneg (cpSlice l e None))
      end. lia.
Qed.

Lemma killLineRight_ok (s : TextBufferState) :
  stateOk s -> stateOk (reduce s KILL_LINE_RIGHT).
Proof.
  intro Hs. pose proof Hs as ((Hls & Hr & Hc) & _). cbn [textBufferReducer].
  destruct (cursorCol s <? cpLen (lineAt (lines s) (cursorRow s))) eqn:E.
  - apply (stateOk_edit s); [exact Hs | reflexivity | reflexivity|].
    cbn [lines cursorRow cursorCol setLines pushUndo setStacks].
    pose proof (Forall_lineAt (lines s) (cursorRow s) Hls) as Hline.
    apply edit_line_ok; [exact Hs|..].
    + apply noLineBreak_cpSlice; exact Hline.
    + rewrite cpSlice_prefix_len by lia. lia.
  - destruct (cursorRow s <? len (lines s) - 1) eqn:E2; [|exact Hs].
    apply Z.ltb_lt in E2. apply joinWithNext_ok; assumption.
Qed.

Lemma killLineLeft_ok (s : TextBufferState) :
  stateOk s -> stateOk (reduce s KILL_LINE_LEFT).
Proof.
  intro Hs. pose proof Hs as ((Hls & Hr & Hc) & _). cbn [textBufferReducer].
  destruct (0 <? cursorCol s); [|exact Hs].
  apply (stateOk_edit s); [exact Hs | reflexivity | reflexivity|].
  cbn [lines cursorRow cursorCol setPreferredCol setCursorCol setCursor
       setLines pushUndo setStacks].
  pose proof (Forall_lineAt (lines s) (cursorRow s) Hls) as Hline.
  apply edit_line_ok; [exact Hs|..].
  - apply noLineBreak_cpSlice; exact Hline.
  - match goal with
    | |- context [cpLen ?l] => pose proof (cpLen_nonneg l)
    end. lia.
Qed.

Lemma undo_ok (s : TextBufferState) : stateOk s -> stateOk (reduce s UNDO).
Proof.
  intro Hs. pose proof Hs as (Hb & Hu & Hr). cbn [textBufferReducer].
  destruct (lastElem (undoStack s)) as [e|] eqn:E; [|exact Hs].
  pose proof (Forall_lastElem _ _ _ Hu E) as He.
  split; [exact He|]. split.
  - apply Forall_removelast. exact Hu.
  - apply Forall_snoc; [exact Hr | exact Hb].
Qed.

Lemma redo_ok (s : TextBufferState) : stateOk s -> stateOk (reduce s REDO).
Proof.
  intro Hs. pose proof Hs as (Hb & Hu & Hr). cbn [textBufferReducer].
  destruct (lastElem (redoStack s)) as [e|] eqn:E; [|exact Hs].
  pose proof (Forall_lastElem _ _ _ Hr E) as He.
  split; [exact He|]. split.
  - apply Forall_snoc; [exact Hu | exact Hb].
  - apply Forall_removelast. exact Hr.
Qed.

Lemma copy_ok (s : TextBufferState) : stateOk s -> stateOk (reduce s COPY).
Proof.
  intro Hs. cbn [textBufferReducer]. unfold copySelection.
  destruct (selectionAnchor s) as [[ar ac]|]; [|exact Hs].
  destruct ((ar =? cursorRow s) && (ac =? cursorCol s)); [exact Hs|].
  match goal with
  | |- stateOk (match ?t with (_, _) => _ end) =>
      destruct t as [[[sr sc] er] ec]
  end.
  exact Hs.
Qed.

End ActionInvariant.

Lemma rangeCheck_false (ls : list str) (sr sc er ec : Z) :
  ~ rangeRejected ls sr sc er ec ->
  (er <? sr) || ((sr =? er) && (ec <? sc)) || (sr <? 0) || (sc <? 0)
  || (len ls <=? er) || ((er <? len ls) && (cpLen (lineAt ls er) <? ec))
  = false.
Proof.
  unfold rangeRejected. intro H.
  destruct (er <? sr) eqn:E1; [apply Z.ltb_lt in E1; tauto|].
  destruct (sr <? 0) eqn:E3; [apply Z.ltb_lt in E3; tauto|].
  destruct (sc <? 0) eqn:E4; [apply Z.ltb_lt in E4; tauto|].
  destruct (len ls <=? er) eqn:E5; [apply Z.leb_le in E5; tauto|].
  destruct (cpLen (lineAt ls er) <? ec) eqn:E6;
    [apply Z.ltb_lt in E6; tauto|].
  destruct (sr =? er) eqn:E2; destruct (ec <? sc) eqn:E7;
    rewrite ?andb_false_r; simpl; try reflexivity.
  apply Z.eqb_eq in E2. apply Z.ltb_lt in E7. tauto.
Qed.

Lemma rangeRejected_dec (ls : list str) (sr sc er ec : Z) :
  rangeRejected ls sr sc er ec \/ ~ rangeRejected ls sr sc er ec.
Proof. unfold rangeRejected. lia. Qed.

Lemma len_arrSlice_middle {A} (parts : list A) :
  2 <= len parts -> len (arrSlice parts 1 (-1)) = len parts - 2.
Proof.
  intro H. unfold arrSlice, relIndex.
  replace (1 <? 0) with false by reflexivity.
  replace (-1 <? 0) with true by reflexivity.
  rewrite Z.min_l, Z.max_l by lia.
  unfold len in *. rewrite length_firstn, length_skipn. lia.
Qed.

Lemma Forall_arrSlice {A} (P : A -> Prop) (l : list A) (a b : Z) :
  Forall P l -> Forall P (arrSlice l a b).
Proof.
  intro H. unfold arrSlice. apply Forall_firstn, Forall_skipn. exact H.
Qed.

Section Preservation.

Variable stripAnsi : str -> str.

Local Abbreviation reduce := (textBufferReducer stripAnsi).

(** REPLACE_RANGE over several rows, and on one row with a replacement
    that has no line break, leaves a buffer of the data model. *)
Lemma replaceRange_ok (s : TextBufferState)
  (startRow startCol endRow endCol : Z) (text : str) :
  stateOk s ->
  (startRow = endRow -> noLineBreak (replaceCR (replaceCRLF text))) ->
  stateOk (reduce s (REPLACE_RANGE startRow startCol endRow endCol text)).
Proof.
  intros Hs Hsane. pose proof Hs as ((Hls & _ & _) & _).
  destruct (rangeRejected_dec (lines s) startRow startCol endRow endCol)
    as [Hrej|Hok].
  { rewrite replaceRange_rejected by exact Hrej. exact Hs. }
  cbn [textBufferReducer]. unfold replaceRangeState.
  rewrite (rangeCheck_false _ _ _ _ _ Hok).
  apply (stateOk_edit s); [exact Hs | reflexivity | reflexivity|].
  cbn [lines cursorRow cursorCol setPreferredCol setCursor setLines
       pushUndo setStacks].
  unfold rangeRejected in Hok.
  set (normalised := replaceCR (replaceCRLF text)) in *.
  set (parts := splitLF normalised).
  pose proof (cpLen_nonneg (lineAt (lines s) startRow)) as Hsl.
  pose proof (cpLen_nonneg (lineAt (lines s) endRow)) as Hel.
  pose proof (clamp_range startCol _ Hsl) as HsCol.
  pose proof (clamp_range endCol _ Hel) as HeCol.
  set (sCol := clamp startCol 0 (cpLen (lineAt (lines s) startRow))) in *.
  set (eCol := clamp endCol 0 (cpLen (lineAt (lines s) endRow))) in *.
  set (pre := cpSlice (lineAt (lines s) startRow) 0 (Some sCol)).
  set (suf := cpSlice (lineAt (lines s) endRow) eCol None).
  assert (Hpre : cpLen pre = sCol) by (apply cpSlice_prefix_len; lia).
  assert (Hnpre : noLineBreak pre)
    by (apply noLineBreak_cpSlice, Forall_lineAt; exact Hls).
  assert (Hnsuf : noLineBreak suf)
    by (apply noLineBreak_cpSlice, Forall_lineAt; exact Hls).
  pose proof (cpLen_nonneg suf) as Hsuf.
  pose proof (splitLF_nonempty normalised) as Hne. fold parts in Hne.
  pose proof (splitLF_noLineBreak normalised) as Hparts. fold parts in Hparts.
  destruct (lastElem parts) as [lp|] eqn:Elast;
    [|destruct parts; [contradiction | discriminate]].
  assert (Hlp : noLineBreak lp) by exact (Forall_lastElem _ _ _ Hparts Elast).
  pose proof (cpLen_nonneg lp) as Hlpn.
  assert (Hp0 : noLineBreak (lineAt parts 0))
    by (apply Forall_lineAt; exact Hparts).
  assert (Hlen : 1 <= len parts).
  { destruct parts as [|p0 ps]; [contradiction|].
    rewrite len_cons. pose proof (len_nonneg ps). lia. }
  destruct (startRow =? endRow) eqn:Erow.
  - apply Z.eqb_eq in Erow. specialize (Hsane Erow).
    assert (Hsingle : parts = [normalised])
      by (apply splitLF_single; exact Hsane).
    rewrite Hsingle in Elast. simpl in Elast. injection Elast as <-.
    rewrite Hsingle. change (len [normalised]) with 1.
    change (1 <? 1) with false. cbv iota.
    replace (startRow + 1 - 1) with startRow by lia.
    pose proof (cpLen_nonneg normalised).
    repeat split.
    + apply Forall_arrSet; [lia | exact Hls|].
      repeat apply noLineBreak_app; assumption.
    + lia.
    + rewrite arrSet_len by lia. lia.
    + lia.
    + rewrite lineAt_arrSet by lia. rewrite !cpLen_app. lia.
  - apply Z.eqb_neq in Erow.
    destruct (len parts =? 1) eqn:E1.
    + apply Z.eqb_eq in E1. rewrite E1.
      change (1 <? 1) with false. cbv iota.
      assert (Hlp0 : lineAt parts 0 = lp).
      { rewrite <- (lineAt_last parts lp Elast). f_equal. lia. }
      rewrite Hlp0.
      replace (startRow + 1 - 1) with startRow by lia.
      repeat split.
      * apply Forall_splice; [exact Hls|].
        constructor; [|constructor].
        repeat apply noLineBreak_app; assumption.
      * lia.
      * rewrite len_splice by lia.
        change (len [(pre ++ lp) ++ suf]) with 1. lia.
      * lia.
      * rewrite lineAt_splice_items;
          [|lia | lia | change (len [(pre ++ lp) ++ suf]) with 1; lia].
        rewrite Z.sub_diag.
        change (lineAt [(pre ++ lp) ++ suf] 0) with ((pre ++ lp) ++ suf).
        rewrite !cpLen_app. lia.
    + apply Z.eqb_neq in E1.
      replace (1 <? len parts) with true by (symmetry; apply Z.ltb_lt; lia).
      set (middle := arrSlice parts 1 (-1)).
      assert (Hmid : len middle = len parts - 2)
        by (apply len_arrSlice_middle; lia).
      set (items := (pre ++ lineAt parts 0) :: middle ++ [lp ++ suf]).
      assert (Hitems : len items = len parts).
      { unfold items. rewrite len_cons, len_app.
        change (len [lp ++ suf]) with 1.
        unfold str, codepoint in *. lia. }
      repeat split.
      * apply Forall_splice; [exact Hls|].
        constructor; [apply noLineBreak_app; assumption|].
        apply Forall_app. split; [apply Forall_arrSlice; exact Hparts|].
        constructor; [|constructor]. apply noLineBreak_app; assumption.
      * lia.
      * rewrite len_splice by lia. unfold str, codepoint in *. lia.
      * lia.
      * rewrite lineAt_splice_items by (unfold str, codepoint in *; lia).
        replace (startRow + len parts - 1 - startRow)
          with (len parts - 1) by lia.
        unfold items.
        rewrite lineAt_cons by lia.
        rewrite lineAt_app_r by (unfold str, codepoint in *; lia).
        replace (len parts - 1 - 1 - len middle) with 0
          by (unfold str, codepoint in *; lia).
        change (lineAt [lp ++ suf] 0) with (lp ++ suf).
        rewrite cpLen_app. lia.
Qed.

(** The invariant holds after every action with a payload as the
    controller builds it, REPLACE_RANGE on one row with a replacement of
    several lines left out. *)
Theorem stateOk_preserved (s : TextBufferState) (a : TextBufferAction) :
  stateOk s -> sanePayload s a -> stateOk (reduce s a).
Proof.
  intros Hs Hsane. destruct a.
  - apply setText_ok. exact Hs.
  - apply applyOperations_ok. exact Hs.
  - destruct Hsane as (sw & cur & vw & Hlayout).
    apply move_ok; [exact Hs|].
    exact (calculateVisualLayout_rows sw (lines s) cur vw visualLayout
             (stateOk_lines s Hs) Hlayout).
  - apply delete_ok. exact Hs.
  - apply deleteWordLeft_ok. exact Hs.
  - apply deleteWordRight_ok. exact Hs.
  - apply killLineRight_ok. exact Hs.
  - apply killLineLeft_ok. exact Hs.
  - apply undo_ok. exact Hs.
  - apply redo_ok. exact Hs.
  - apply replaceRange_ok; [exact Hs | exact Hsane].
  - destruct Hsane as [-> Hoff]. apply moveToOffset_ok; assumption.
  - apply copy_ok. exact Hs.
  - apply paste_ok. exact Hs.
  - exact Hs.
Qed.

End Preservation.

Lemma initialState_ok (initialText : str) (initialCursorOffset : Z) :
  0 <= initialCursorOffset ->
  stateOk (initialState initialText initialCursorOffset).
Proof.
  intro H. unfold initialState.
  pose proof (splitLF_nonempty initialText) as Hne.
  assert (Hlen : 0 < len (splitLF initialText)).
  { destruct (splitLF initialText) as [|l0 ls0]; [contradiction|].
    rewrite len_cons. pose proof (len_nonneg ls0). lia. }
  replace (len (splitLF initialText) =? 0) with false
    by (symmetry; apply Z.eqb_neq; lia).
  pose proof (calculateInitialCursorPosition_valid (splitLF initialText)
                initialCursorOffset Hne H) as Hv.
  destruct (calculateInitialCursorPosition (splitLF initialText)
              initialCursorOffset) as [r c].
  destruct Hv as [Hr Hc]. cbn [fst snd] in *.
  split; [|split; constructor].
  cbn [lines cursorRow cursorCol].
  split; [apply splitLF_noLineBreak|]. split; assumption.
Qed.

(** *** Reachable states *)

Lemma stateOk_wellFormed (s : TextBufferState) : stateOk s -> wellFormed s.
Proof.
  intro Hs. pose proof (stateOk_lines s Hs) as Hne.
  destruct Hs as ((_ & Hr & Hc) & _).
  split; [exact Hne|]. split; assumption.
Qed.

Section Reachability.

Variable stripAnsi : str -> str.

Lemma reachable_stateOk (s : TextBufferState) :
  reachable stripAnsi s -> stateOk s.
Proof.
  induction 1 as [initialText initialCursorOffset H | s a _ IH Hsane].
  - apply initialState_ok. exact H.
  - apply stateOk_preserved; assumption.
Qed.

(** X29: in every state reached by actions with payloads as the
    controller builds them, REPLACE_RANGE on one row with a replacement of
    several lines left out, the buffer has a line and the cursor is a
    position. *)
Theorem reachable_wellFormed (s : TextBufferState) :
  reachable stripAnsi s -> wellFormed s.
Proof.
  intro H. apply stateOk_wellFormed, reachable_stateOk. exact H.
Qed.

Variable stringWidth : str -> Z.
Variable isValidPath : str -> bool.
Variable unescapePath : str -> str.

Lemma queueSane_one (s : TextBufferState) (a : TextBufferAction) :
  sanePayload s a -> queueSane s [a].
Proof. intro H. right. exists a. split; [reflexivity | exact H]. Qed.

Lemma queueSane_none (s : TextBufferState) : queueSane s [].
Proof. left. reflexivity. Qed.

Lemma move_queueSane (s : TextBufferState) (viewportWidth : Z)
  (dir : Direction) :
  queueSane s (move stringWidth s viewportWidth dir).
Proof.
  unfold move.
  destruct (calculateVisualLayout stringWidth (lines s)
              (cursorRow s, cursorCol s) viewportWidth) as [vl|] eqn:E;
    [|apply queueSane_none].
  apply queueSane_one. cbn [sanePayload]. eauto.
Qed.

(** Whatever the key, [handleInput] dispatches at most one action, with a
    payload built from the render. *)
Lemma handleInput_queueSane (s : TextBufferState) (viewportWidth : Z)
  (key : Key) :
  queueSane s
    (fst (handleInput stripAnsi stringWidth isValidPath unescapePath s
            viewportWidth key)).
Proof.
  unfold handleInput.
  destruct (keyNamed key "escape"); [apply queueSane_none|].
  cbn [fst].
  repeat match goal with
    | |- queueSane _ (if ?c then _ else _) => destruct c
    end;
    try apply move_queueSane;
    try apply queueSane_none;
    try (apply queueSane_one; exact I).
  - unfold backspace.
    destruct ((cursorCol s =? 0) && (cursorRow s =? 0));
      [apply queueSane_none | apply queueSane_one; exact I].
  - unfold insert, applyOperations.
    repeat match goal with
      | |- context [if ?c then _ else _] => destruct c
      end; apply queueSane_one; exact I.
Qed.

(** Every key keeps the invariant. *)
Theorem handleInput_keeps_invariant (s : TextBufferState)
  (viewportWidth : Z) (key : Key) :
  stateOk s ->
  stateOk
    (dispatchAll stripAnsi s
       (fst (handleInput stripAnsi stringWidth isValidPath unescapePath s
               viewportWidth key))).
Proof.
  intro Hs.
  destruct (handleInput_queueSane s viewportWidth key)
    as [-> | (a & -> & Hsane)].
  - exact Hs.
  - apply stateOk_preserved; assumption.
Qed.

End Reachability.

(** * Further properties *)

(** ** More on the history *)

Lemma historyStep_same (s r : TextBufferState) :
  undoStack r = undoStack s -> redoStack r = redoStack s -> historyStep s r.
Proof. intros H1 H2. left. split; assumption. Qed.

Lemma historyStep_pushed (s r : TextBufferState) :
  undoStack r = undoStack (pushUndo s) -> redoStack r = [] ->
  historyStep s r.
Proof. intros H1 H2. right. left. split; assumption. Qed.

Lemma lastElem_nonempty {A} (l : list A) (x : A) :
  lastElem l = Some x -> l <> [].
Proof. destruct l; [discriminate | discriminate]. Qed.

Section History.

Variable stripAnsi : str -> str.

Local Abbreviation reduce := (textBufferReducer stripAnsi).

Ltac history_branches :=
  repeat match goal with
    | |- historyStep ?s ?s => apply historyStep_same; reflexivity
    | |- historyStep _ (if ?c then _ else _) => destruct c
    | |- historyStep _ (match ?o with Some _ => _ | None => _ end) =>
        destruct o
    | |- historyStep _ (match ?t with (_, _) => _ end) => destruct t
    end;
  try (apply historyStep_same; reflexivity);
  try (apply historyStep_pushed; reflexivity).

Lemma undo_historyStep (s : TextBufferState) : historyStep s (reduce s UNDO).
Proof.
  cbn [textBufferReducer].
  destruct (lastElem (undoStack s)) as [e|] eqn:E.
  - right. right. left.
    split; [exact (lastElem_nonempty _ _ E)|]. split; reflexivity.
  - apply historyStep_same; reflexivity.
Qed.

Lemma redo_historyStep (s : TextBufferState) : historyStep s (reduce s REDO).
Proof.
  cbn [textBufferReducer].
  destruct (lastElem (redoStack s)) as [e|] eqn:E.
  - right. right. right.
    split; [exact (lastElem_nonempty _ _ E)|]. split; reflexivity.
  - apply historyStep_same; reflexivity.
Qed.

(** Every action moves the history in one of four ways. *)
Lemma reduce_historyStep (s : TextBufferState) (a : TextBufferAction) :
  historyStep s (reduce s a).
Proof.
  destruct a as [payload [[|]|] | ops | dir vl | | | | | | | | sr sc er ec t
                 | t off | | |];
    first [ apply undo_historyStep
          | apply redo_historyStep
          | cbn [textBufferReducer];
            unfold replaceRangeState, joinWithNext, joinWithPrevious,
              moveCursor, copySelection;
            history_branches ].
Qed.

Lemma len_sliceButLast {A} (l : list A) :
  l <> [] -> len (sliceButLast l) = len l - 1.
Proof.
  intro H. destruct (exists_last H) as (l' & x & ->).
  unfold sliceButLast. rewrite removelast_last, len_app.
  change (len [x]) with 1. lia.
Qed.

Lemma len_pushUndo (s : TextBufferState) :
  len (undoStack s) <= historyLimit ->
  len (undoStack (pushUndo s)) <= historyLimit.
Proof.
  intro H. unfold pushUndo. cbn [undoStack setStacks].
  assert (Hlen : len (undoStack s ++ [snapshotOf s]) = len (undoStack s) + 1)
    by (rewrite len_app; reflexivity).
  destruct (historyLimit <? len (undoStack s ++ [snapshotOf s])) eqn:E.
  - destruct (undoStack s) as [|e u]; [exact H|].
    cbn [app tl]. rewrite len_app. change (len [snapshotOf s]) with 1.
    unfold len in *. simpl length in *. lia.
  - apply Z.ltb_ge in E. exact E.
Qed.

Lemma historyBounded_step (s r : TextBufferState) :
  historyBounded s -> historyStep s r -> historyBounded r.
Proof.
  unfold historyBounded.
  intros Hs [[Hu Hr] | [[Hu Hr] | [(Hne & Hu & Hr) | (Hne & Hu & Hr)]]];
    rewrite Hu, Hr.
  - exact Hs.
  - change (len (@nil UndoHistoryEntry)) with 0. rewrite Z.add_0_r.
    apply len_pushUndo. pose proof (len_nonneg (redoStack s)). lia.
  - rewrite len_sliceButLast by exact Hne. rewrite len_app.
    change (len [snapshotOf s]) with 1. lia.
  - rewrite len_sliceButLast by exact Hne. rewrite len_app.
    change (len [snapshotOf s]) with 1. lia.
Qed.

(** X1: whatever the actions and their payloads, the undo stack and the
    redo stack of the hook never hold more than 100 snapshots together. *)
Theorem history_never_exceeds_limit (initialText : str)
  (initialCursorOffset : Z) (actions : list TextBufferAction) :
  let s := fold_left reduce actions
             (initialState initialText initialCursorOffset) in
  len (undoStack s) + len (redoStack s) <= 100
  /\ len (undoStack s) <= 100.
Proof.
  cbv zeta.
  assert (H : forall s0, historyBounded s0 ->
                historyBounded (fold_left reduce actions s0)).
  { induction actions as [|a actions IH]; intros s0 H0; [exact H0|].
    cbn [fold_left]. apply IH.
    exact (historyBounded_step s0 _ H0 (reduce_historyStep s0 a)). }
  assert (H0 : historyBounded (initialState initialText initialCursorOffset)).
  { unfold initialState, historyBounded.
    destruct (calculateInitialCursorPosition _ _) as [r c].
    cbn [undoStack redoStack]. unfold historyLimit, len. simpl. lia. }
  specialize (H _ H0). unfold historyBounded, historyLimit in H.
  split; [exact H|].
  match goal with
  | |- len (undoStack ?x) <= _ => pose proof (len_nonneg (redoStack x))
  end. lia.
Qed.

(** X2: UNDO and REDO are inverse to each other.  When the undo stack holds
    a snapshot, REDO after UNDO gives back the state, all its fields; when
    the redo stack holds one, so does UNDO after REDO. *)
Theorem undo_redo_inverse (s : TextBufferState) :
  (undoStack s <> [] -> reduce (reduce s UNDO) REDO = s)
  /\ (redoStack s <> [] -> reduce (reduce s REDO) UNDO = s).
Proof.
  destruct s as [ls row col pc undo redo clip anchor].
  split; intro Hne; cbn [undoStack redoStack] in Hne;
    destruct (exists_last Hne) as (stack & e & ->);
    destruct e as [els erow ecol];
    cbn [textBufferReducer undoStack redoStack];
    rewrite lastElem_app;
    cbn [restoreEntry setStacks setCursor setLines snapshotOf lines
         cursorRow cursorCol preferredCol undoStack redoStack clipboard
         selectionAnchor entryLines entryCursorRow entryCursorCol];
    rewrite lastElem_app;
    cbn [restoreEntry setStacks setCursor setLines snapshotOf lines
         cursorRow cursorCol preferredCol undoStack redoStack clipboard
         selectionAnchor entryLines entryCursorRow entryCursorCol];
    unfold sliceButLast; rewrite !removelast_last; reflexivity.
Qed.

(** An edit that changes the state has taken its snapshot and emptied the
    redo stack. *)
Lemma edit_resets_history (s : TextBufferState) (a : TextBufferAction) :
  takesSnapshot a = true ->
  reduce s a = s
  \/ (undoStack (reduce s a) = undoStack (pushUndo s)
      /\ redoStack (reduce s a) = []).
Proof.
  intro Ha.
  destruct a as [payload [[|]|] | ops | dir vl | | | | | | | | sr sc er ec t
                 | t off | | |];
    try discriminate Ha;
    cbn [textBufferReducer];
    unfold replaceRangeState, joinWithNext, joinWithPrevious;
    repeat match goal with
      | |- (if ?c then _ else _) = _ \/ _ => destruct c
      | |- (match ?o with Some _ => _ | None => _ end) = _ \/ _ =>
          destruct o
      | |- (match ?t with (_, _) => _ end) = _ \/ _ => destruct t
      end;
    try (left; reflexivity);
    try (right; split; reflexivity).
Qed.

(** X3: after an edit that changed the state nothing is left to redo: the
    redo stack is empty and REDO returns the state as it is. *)
Theorem edit_clears_redo (s : TextBufferState) (a : TextBufferAction) :
  takesSnapshot a = true ->
  reduce s a <> s ->
  redoStack (reduce s a) = []
  /\ reduce (reduce s a) REDO = reduce s a.
Proof.
  intros Ha Hchanged.
  destruct (edit_resets_history s a Ha) as [Hsame | [_ Hredo]];
    [contradiction|].
  split; [exact Hredo|].
  cbn [textBufferReducer]. rewrite Hredo. reflexivity.
Qed.

(** X4: [undo] and [redo] tell whether they changed anything: the value
    returned is [true] exactly when the action dispatched gives another
    state. *)
Theorem undo_redo_report_change (s : TextBufferState) :
  (snd (undo s) = true <-> reduce s UNDO <> s)
  /\ (snd (redo s) = true <-> reduce s REDO <> s).
Proof.
  split; unfold undo, redo; cbn [snd textBufferReducer].
  - destruct (undoStack s) as [|e u] eqn:E.
    + split; [intro H; discriminate H | intro H; exfalso; apply H].
      reflexivity.
    + split; [|intros _; rewrite len_cons; apply Z.ltb_lt;
                pose proof (len_nonneg u); lia].
      intros _ H. apply (f_equal undoStack) in H.
      rewrite E in H. cbn [lastElem undoStack setStacks] in H.
      apply (f_equal (@len UndoHistoryEntry)) in H.
      rewrite len_sliceButLast in H by discriminate. lia.
  - destruct (redoStack s) as [|e u] eqn:E.
    + split; [intro H; discriminate H | intro H; exfalso; apply H].
      reflexivity.
    + split; [|intros _; rewrite len_cons; apply Z.ltb_lt;
                pose proof (len_nonneg u); lia].
      intros _ H. apply (f_equal redoStack) in H.
      rewrite E in H. cbn [lastElem redoStack setStacks] in H.
      apply (f_equal (@len UndoHistoryEntry)) in H.
      rewrite len_sliceButLast in H by discriminate. lia.
Qed.

End History.

Lemma undo_redo_inverse_witness :
  let s := textBufferReducer stripCsi (initialState [] 0)
             (APPLY_OPERATIONS [OpInsert (lit "a")]) in
  undoStack s <> []
  /\ textBufferReducer stripCsi (textBufferReducer stripCsi s UNDO) REDO = s.
Proof.
  intro s.
  assert (H : undoStack s <> [])
    by (vm_compute; intro H; discriminate H).
  split; [exact H|].
  exact (proj1 (undo_redo_inverse stripCsi s) H).
Defined.

Lemma edit_clears_redo_witness :
  let s := dispatchAll stripCsi (initialState [] 0)
             [APPLY_OPERATIONS [OpInsert (lit "a")]; UNDO] in
  let a := APPLY_OPERATIONS [OpInsert (lit "b")] in
  takesSnapshot a = true
  /\ textBufferReducer stripCsi s a <> s
  /\ redoStack s <> []
  /\ redoStack (textBufferReducer stripCsi s a) = [].
Proof.
  intros s a.
  assert (Ha : takesSnapshot a = true) by reflexivity.
  assert (Hc : textBufferReducer stripCsi s a <> s)
    by (vm_compute; intro H; discriminate H).
  split; [exact Ha|]. split; [exact Hc|].
  split; [vm_compute; intro H; discriminate H|].
  exact (proj1 (edit_clears_redo stripCsi s a Ha Hc)).
Defined.

(** ** Texts and offsets *)

Lemma replaceCRLFopt_no_CR_upto (n : nat) :
  forall s, (length s <= n)%nat -> ~ In CR (replaceCRLFopt s).
Proof.
  induction n as [|n IH]; intros s Hlen.
  - destruct s; [intros []|simpl in Hlen; lia].
  - destruct s as [|c s]; [intros []|].
    simpl in Hlen. cbn [replaceCRLFopt].
    destruct (c =? CR) eqn:Ec.
    + destruct s as [|d s].
      * intros [H|[]]. discriminate H.
      * simpl in Hlen.
        destruct (d =? LF); intros [H|H]; try discriminate H;
          revert H; apply IH; simpl; lia.
    + apply Z.eqb_neq in Ec. intros [H|H]; [congruence|].
      revert H. apply IH. lia.
Qed.

(** After the normalisation of SET_TEXT no carriage return is left. *)
Lemma replaceCRLFopt_no_CR (s : str) : ~ In CR (replaceCRLFopt s).
Proof. apply (replaceCRLFopt_no_CR_upto (length s)). lia. Qed.

(** The code points of the lines of a text are code points of the text. *)
Lemma splitLF_In (t : str) :
  Forall (fun l => forall c, In c l -> In c t) (splitLF t).
Proof.
  induction t as [|c t IH]; simpl.
  - constructor; [intros c []|constructor].
  - destruct (c =? LF).
    + constructor; [intros d []|].
      apply Forall_forall. intros l Hl d Hd. right.
      exact (proj1 (Forall_forall _ _) IH l Hl d Hd).
    + destruct (splitLF t) as [|l ls]; [constructor;
        [intros d [H|[]]; left; exact H | constructor]|].
      inversion IH as [|? ? Hl Hls]; subst.
      constructor.
      * intros d [H|H]; [left; exact H | right; exact (Hl d H)].
      * apply Forall_forall. intros l' Hl' d Hd. right.
        exact (proj1 (Forall_forall _ _) Hls l' Hl' d Hd).
Qed.

Section TextRoundTrips.

Variable stripAnsi : str -> str.

Local Abbreviation reduce := (textBufferReducer stripAnsi).

(** X5: SET_TEXT normalises and keeps the text.  Read back, the text of
    the buffer is the payload with every CR LF and every lone CR turned
    into LF; no line holds a line feed or a carriage return; the cursor is
    at the end of the last line and the preferred column is unset. *)
Theorem setText_round_trip (s : TextBufferState) (payload : str)
  (pushToUndo : option bool) :
  let r := reduce s (SET_TEXT payload pushToUndo) in
  text r = replaceCRLFopt payload
  /\ Forall noLineEnd (lines r)
  /\ cursorRow r = len (lines r) - 1
  /\ cursorCol r = cpLen (lineAt (lines r) (cursorRow r))
  /\ preferredCol r = None.
Proof.
  cbv zeta. unfold text. cbn [textBufferReducer].
  pose proof (splitLF_nonempty (replaceCRLFopt payload)) as Hne.
  assert (Hlen : (len (splitLF (replaceCRLFopt payload)) =? 0) = false).
  { apply Z.eqb_neq.
    destruct (splitLF (replaceCRLFopt payload)) as [|l ls];
      [contradiction|].
    rewrite len_cons. pose proof (len_nonneg ls). lia. }
  rewrite Hlen.
  cbn [lines cursorRow cursorCol preferredCol setPreferredCol setCursor
       setLines].
  split; [apply joinLF_splitLF|].
  split; [|repeat split; reflexivity].
  apply Forall_forall. intros l Hl. split.
  - exact (proj1 (Forall_forall _ _)
             (splitLF_noLineBreak (replaceCRLFopt payload)) l Hl).
  - intro Hcr.
    exact (replaceCRLFopt_no_CR payload
             (proj1 (Forall_forall _ _) (splitLF_In _) l Hl CR Hcr)).
Qed.

End TextRoundTrips.

(** The two loops of the position mapper walk the lines alike. *)
Lemma initialCursorLoop_offsetLoop (rest : list str) :
  forall (n i cur off : Z),
    n = i + len rest ->
    initialCursorLoop rest n i (off - cur) = offsetLoop rest n i cur off.
Proof.
  induction rest as [|line rest IH]; intros n i cur off Hn; [reflexivity|].
  rewrite len_cons in Hn. pose proof (len_nonneg rest) as Hrest.
  cbn [initialCursorLoop offsetLoop].
  destruct (off - cur <=? cpLen line) eqn:E1.
  - apply Z.leb_le in E1.
    replace (off <=? cur + cpLen line) with true
      by (symmetry; apply Z.leb_le; lia).
    reflexivity.
  - apply Z.leb_gt in E1.
    replace (off <=? cur + cpLen line) with false
      by (symmetry; apply Z.leb_gt; lia).
    destruct (i <? n - 1) eqn:Ei.
    + apply Z.ltb_lt in Ei.
      destruct (off <=? cur + (cpLen line + 1)) eqn:E2.
      * apply Z.leb_le in E2.
        replace (off =? cur + (cpLen line + 1)) with true
          by (symmetry; apply Z.eqb_eq; lia).
        cbn [andb].
        destruct rest as [|next rest];
          [change (len (@nil str)) with 0 in Hn; lia|].
        cbn [initialCursorLoop].
        pose proof (cpLen_nonneg next).
        replace (off - cur - (cpLen line + 1) <=? cpLen next) with true
          by (symmetry; apply Z.leb_le; lia).
        f_equal. f_equal. lia.
      * rewrite <- (IH n (i + 1) (cur + (cpLen line + 1)) off) by lia.
        f_equal. lia.
    + apply Z.ltb_ge in Ei. rewrite !Z.add_0_r.
      replace (off <=? cur + cpLen line) with false
        by (symmetry; apply Z.leb_gt; lia).
      rewrite <- (IH n (i + 1) (cur + cpLen line) off) by lia.
      f_equal. lia.
Qed.

Lemma initialCursor_is_offsetToLogicalPos (text : str)
  (offset : Z) :
  calculateInitialCursorPosition (splitLF text) offset
  = offsetToLogicalPos text offset.
Proof.
  unfold calculateInitialCursorPosition, offsetToLogicalPos.
  pose proof (initialCursorLoop_offsetLoop (splitLF text)
                (len (splitLF text)) 0 0 offset ltac:(lia)) as H.
  rewrite Z.sub_0_r in H.
  destruct (offset =? 0) eqn:E.
  - apply Z.eqb_eq in E. subst offset.
    pose proof (splitLF_nonempty text) as Hne.
    destruct (splitLF text) as [|l ls]; [contradiction|].
    cbn [initialCursorLoop].
    pose proof (cpLen_nonneg l).
    replace (0 <=? cpLen l) with true by (symmetry; apply Z.leb_le; lia).
    reflexivity.
  - rewrite H. reflexivity.
Qed.

(** X6: the initial cursor offset and [moveToOffset] read an offset the
    same way: for every text and every offset, negative ones too,
    [calculateInitialCursorPosition] on the lines of the text gives the
    position [offsetToLogicalPos] gives. *)
Theorem calculateInitialCursorPosition_is_offsetToLogicalPos (text : str)
  (offset : Z) :
  calculateInitialCursorPosition (splitLF text) offset
  = offsetToLogicalPos text offset.
Proof. apply initialCursor_is_offsetToLogicalPos. Qed.

(** X7: the hook starts with the text it was given, and starting at a
    cursor offset is starting at offset 0 and moving to the offset. *)
Theorem initialState_is_moveToOffset (stripAnsi : str -> str)
  (initialText : str) (initialCursorOffset : Z) :
  text (initialState initialText initialCursorOffset) = initialText
  /\ initialState initialText initialCursorOffset
     = dispatchAll stripAnsi (initialState initialText 0)
         (moveToOffset (initialState initialText 0) initialCursorOffset).
Proof.
  assert (Hlines : forall o, lines (initialState initialText o)
                             = splitLF initialText).
  { intro o. unfold initialState.
    pose proof (splitLF_nonempty initialText) as Hne.
    destruct (len (splitLF initialText) =? 0) eqn:E.
    - apply Z.eqb_eq in E.
      destruct (splitLF initialText) as [|l ls]; [contradiction|].
      rewrite len_cons in E. pose proof (len_nonneg ls). lia.
    - destruct (calculateInitialCursorPosition _ _). reflexivity. }
  split.
  - unfold text. rewrite Hlines. apply joinLF_splitLF.
  - unfold moveToOffset, dispatchAll, text. cbn [fold_left].
    rewrite Hlines, joinLF_splitLF. cbn [textBufferReducer].
    rewrite <- initialCursor_is_offsetToLogicalPos.
    unfold initialState.
    pose proof (splitLF_nonempty initialText) as Hne.
    destruct (len (splitLF initialText) =? 0) eqn:E.
    + apply Z.eqb_eq in E.
      destruct (splitLF initialText) as [|l ls]; [contradiction|].
      rewrite len_cons in E. pose proof (len_nonneg ls). lia.
    + destruct (calculateInitialCursorPosition (splitLF initialText)
                  initialCursorOffset) as [r c].
      destruct (calculateInitialCursorPosition (splitLF initialText) 0)
        as [r0 c0].
      reflexivity.
Qed.

(** X8: [offsetToLogicalPos] clamps at the end of the text and not at its
    start.  An offset that is not negative gives a position of the text;
    a negative offset gives row 0 with the offset itself as column. *)
Theorem offsetToLogicalPos_range (text : str) (offset : Z) :
  (0 <= offset ->
   validPosition (splitLF text) (offsetToLogicalPos text offset))
  /\ (offset < 0 -> offsetToLogicalPos text offset = (0, offset)).
Proof.
  split; [apply offsetToLogicalPos_valid|].
  intro H. unfold offsetToLogicalPos.
  replace (offset =? 0) with false by (symmetry; apply Z.eqb_neq; lia).
  pose proof (splitLF_nonempty text) as Hne.
  destruct (splitLF text) as [|l ls]; [contradiction|].
  cbn [offsetLoop]. pose proof (cpLen_nonneg l).
  replace (offset <=? 0 + cpLen l) with true
    by (symmetry; apply Z.leb_le; lia).
  rewrite Z.sub_0_r. reflexivity.
Qed.

Lemma offsetToLogicalPos_range_witness :
  let text := [97; 98; 10; 99] in
  (0 <= 3 /\ validPosition (splitLF text) (offsetToLogicalPos text 3))
  /\ (-2 < 0 /\ offsetToLogicalPos text (-2) = (0, -2)).
Proof.
  intro text.
  assert (H3 : 0 <= 3) by lia.
  assert (Hn : -2 < 0) by lia.
  split.
  - split; [exact H3|].
    exact (proj1 (offsetToLogicalPos_range text 3) H3).
  - split; [exact Hn|].
    exact (proj2 (offsetToLogicalPos_range text (-2)) Hn).
Defined.

(** ** The buffer as one string cut at the cursor *)

Lemma joinLF_cons (l : str) (ls : list str) :
  ls <> [] -> joinLF (l :: ls) = l ++ LF :: joinLF ls.
Proof. destruct ls; [contradiction | reflexivity]. Qed.

Lemma joinLF_cut (A B : list str) (x y : str) :
  joinLF (A ++ (x ++ y) :: B) = joinLF (A ++ [x]) ++ joinLF (y :: B).
Proof.
  induction A as [|a A IH].
  - cbn [app]. destruct B as [|b B].
    + reflexivity.
    + rewrite !joinLF_cons by discriminate. cbn [joinLF].
      rewrite <- app_assoc. reflexivity.
  - cbn [app]. rewrite !joinLF_cons by (destruct A; discriminate).
    rewrite IH. rewrite <- app_assoc. reflexivity.
Qed.


Lemma joinLF_last_app (A : list str) (x y : str) :
  joinLF (A ++ [x ++ y]) = joinLF (A ++ [x]) ++ y.
Proof. exact (joinLF_cut A [] x y). Qed.

Lemma lineAt_middle (A B : list str) (x : str) :
  lineAt (A ++ x :: B) (len A) = x.
Proof.
  rewrite lineAt_app_r by lia. rewrite Z.sub_diag. reflexivity.
Qed.

Lemma firstn_middle {T} (A B : list T) :
  firstn (Z.to_nat (len A)) (A ++ B) = A.
Proof.
  unfold len. rewrite Nat2Z.id. rewrite firstn_app, Nat.sub_diag.
  rewrite firstn_all. cbn [firstn]. apply app_nil_r.
Qed.

Lemma skipn_middle {T} (A B : list T) :
  skipn (Z.to_nat (len A)) (A ++ B) = B.
Proof.
  unfold len. rewrite Nat2Z.id. rewrite skipn_app, Nat.sub_diag.
  rewrite skipn_all. reflexivity.
Qed.

Lemma skipn_after_middle {T} (A B : list T) (x : T) :
  skipn (S (Z.to_nat (len A))) (A ++ x :: B) = B.
Proof.
  unfold len. rewrite Nat2Z.id.
  induction A as [|a A IH]; [reflexivity | exact IH].
Qed.

Lemma arrSet_middle (A B : list str) (x v : str) :
  arrSet (A ++ x :: B) (len A) v = A ++ v :: B.
Proof.
  pose proof (len_nonneg A) as HA. pose proof (len_nonneg B) as HB.
  rewrite arrSet_split by (rewrite len_app, len_cons; lia).
  rewrite firstn_middle.
  replace (Z.to_nat (len A + 1)) with (S (Z.to_nat (len A))) by lia.
  rewrite skipn_after_middle. reflexivity.
Qed.

Lemma cpSlice_front (b a : str) : cpSlice (b ++ a) 0 (Some (cpLen b)) = b.
Proof.
  pose proof (cpLen_nonneg b). pose proof (cpLen_nonneg a).
  unfold cpSlice. rewrite cpLen_app.
  rewrite (clamp_inside 0) by lia. rewrite (clamp_inside (cpLen b)) by lia.
  cbn [Z.to_nat skipn]. rewrite Z.sub_0_r. apply firstn_middle.
Qed.

Lemma cpSlice_back (b a : str) : cpSlice (b ++ a) (cpLen b) None = a.
Proof.
  pose proof (cpLen_nonneg b). pose proof (cpLen_nonneg a).
  unfold cpSlice. rewrite cpLen_app.
  rewrite (clamp_inside (cpLen b)) by lia.
  unfold cpLen. rewrite skipn_middle.
  replace (len b + len a - len b) with (len a) by lia.
  unfold len. rewrite Nat2Z.id. apply firstn_all.
Qed.

(** A buffer is its lines cut at the cursor: the rows above, the line of
    the cursor in two halves, the rows below. *)
Lemma buffer_cut (ls : list str) (row col : Z) :
  0 <= row < len ls -> 0 <= col <= cpLen (lineAt ls row) ->
  exists A b a B,
    ls = A ++ (b ++ a) :: B /\ row = len A /\ col = cpLen b.
Proof.
  intros Hrow Hcol.
  exists (firstn (Z.to_nat row) ls),
    (firstn (Z.to_nat col) (lineAt ls row)),
    (skipn (Z.to_nat col) (lineAt ls row)),
    (skipn (S (Z.to_nat row)) ls).
  assert (Hnth : nth_error ls (Z.to_nat row) = Some (lineAt ls row)).
  { unfold lineAt, arrGet.
    replace (row <? 0) with false by (symmetry; apply Z.ltb_ge; lia).
    destruct (nth_error ls (Z.to_nat row)) eqn:E; [reflexivity|].
    apply nth_error_None in E. unfold len, str, codepoint in *. lia. }
  split; [|split].
  - rewrite firstn_skipn.
    rewrite <- (firstn_skipn (Z.to_nat row) ls) at 1. f_equal.
    clear Hcol. revert Hnth. generalize (lineAt ls row). intro x.
    generalize (Z.to_nat row). clear. intro n. revert ls.
    induction n as [|n IH]; intros [|y ls] H; try discriminate H.
    + simpl in H. injection H as ->. reflexivity.
    + simpl in H. cbn [skipn]. rewrite (IH ls H). reflexivity.
  - symmetry. apply len_firstn. unfold str, codepoint in *. lia.
  - symmetry. apply (len_firstn (lineAt ls row)). exact Hcol.
Qed.

Lemma textBefore_cut (A B : list str) (b a : str) :
  textBefore (A ++ (b ++ a) :: B) (len A) (cpLen b) = joinLF (A ++ [b]).
Proof.
  unfold textBefore. rewrite lineAt_middle, firstn_middle, cpSlice_front.
  reflexivity.
Qed.

Lemma textAfter_cut (A B : list str) (b a : str) :
  textAfter (A ++ (b ++ a) :: B) (len A) (cpLen b) = joinLF (a :: B).
Proof.
  unfold textAfter. rewrite lineAt_middle, skipn_after_middle, cpSlice_back.
  reflexivity.
Qed.





Ltac len_lia := unfold str, codepoint in *; lia.



Lemma len_snoc {T} (X : list T) (x : T) : len (X ++ [x]) = len X + 1.
Proof. rewrite len_app. reflexivity. Qed.



Section TypingProperties.

Variable stripAnsi : str -> str.

Local Abbreviation reduce := (textBufferReducer stripAnsi).





End TypingProperties.


(** ** DEL in an insert payload *)

Lemma jsLength_pos (s : str) : (0 <? jsLength s) = negb (len s =? 0).
Proof.
  destruct s as [|c s]; [reflexivity|].
  rewrite len_cons. pose proof (len_nonneg s).
  assert (0 <= jsLength s).
  { clear. induction s as [|d s IH]; cbn [jsLength]; [lia|].
    unfold unitLength. destruct (65535 <? d); lia. }
  cbn [jsLength]. unfold unitLength.
  replace (1 + len s =? 0) with false by (symmetry; apply Z.eqb_neq; lia).
  apply Z.ltb_lt. destruct (65535 <? c); lia.
Qed.

Lemma expandPayload_app (x y : list codepoint) :
  forall cur,
    expandPayload (x ++ y) cur
    = let (px, cx) := expandPayload x cur in
      let (py, cy) := expandPayload y cx in
      (px ++ py, cy).
Proof.
  induction x as [|c x IH]; intro cur.
  - cbn [app expandPayload]. destruct (expandPayload y cur). reflexivity.
  - cbn [app expandPayload]. destruct (c =? DEL).
    + rewrite IH. destruct (expandPayload x []) as [px cx].
      destruct (expandPayload y cx) as [py cy].
      rewrite app_assoc. reflexivity.
    + apply IH.
Qed.

Lemma expandPayload_plain (x : list codepoint) :
  ~ In DEL x -> forall cur, expandPayload x cur = ([], cur ++ x).
Proof.
  induction x as [|c x IH]; intros H cur.
  - cbn [expandPayload]. rewrite app_nil_r. reflexivity.
  - cbn [expandPayload].
    replace (c =? DEL) with false
      by (symmetry; apply Z.eqb_neq; intro E; apply H; left; exact E).
    rewrite IH by (intro Hin; apply H; right; exact Hin).
    rewrite <- app_assoc. reflexivity.
Qed.

Lemma expandOp_plain_or_split (x : str) :
  (forall y, expandOp (OpInsert (x ++ DEL :: y))
   = expandOp (OpInsert x) ++ OpBackspace :: expandOp (OpInsert y))
  /\ (~ In DEL x ->
      expandOp (OpInsert x) = if len x =? 0 then [] else [OpInsert x]).
Proof.
  split.
  - intro y. unfold expandOp, toCodePoints.
    rewrite expandPayload_app.
    destruct (expandPayload x []) as [px cx].
    cbn [expandPayload]. change (DEL =? DEL) with true. cbv iota.
    destruct (expandPayload y []) as [py cy].
    destruct (0 <? jsLength cx); destruct (0 <? jsLength cy);
      rewrite <- ?app_assoc; cbn [app]; rewrite ?app_nil_r; reflexivity.
  - intro H. unfold expandOp, toCodePoints.
    rewrite (expandPayload_plain x H). cbn [app].
    rewrite jsLength_pos. destruct (len x =? 0); reflexivity.
Qed.

(** X10: how APPLY_OPERATIONS expands an insert.  A payload without DEL is
    one insert, or nothing when it is empty; a DEL cuts the payload in two
    and stands for one backspace between the expansions of the two
    parts. *)
Theorem expandOp_splits_at_DEL (x y : str) :
  expandOp (OpInsert (x ++ DEL :: y))
  = expandOp (OpInsert x) ++ OpBackspace :: expandOp (OpInsert y)
  /\ (~ In DEL x ->
      expandOp (OpInsert x) = if len x =? 0 then [] else [OpInsert x]).
Proof.
  split; [apply expandOp_plain_or_split|].
  apply (proj2 (expandOp_plain_or_split x)).
Qed.

Lemma expandOp_splits_at_DEL_witness :
  expandOp (OpInsert ([97] ++ DEL :: [98]))
  = expandOp (OpInsert [97]) ++ OpBackspace :: expandOp (OpInsert [98])
  /\ (~ In DEL [97] /\ expandOp (OpInsert [97]) = [OpInsert [97]]).
Proof.
  assert (H : ~ In DEL [97]).
  { intros [E|[]]. discriminate E. }
  split; [exact (proj1 (expandOp_splits_at_DEL [97] [98]))|].
  split; [exact H|].
  exact (proj2 (expandOp_splits_at_DEL [97] [98]) H).
Defined.

(** ** Typing and taking back *)


Section TypingRoundTrip.

Variable stripAnsi : str -> str.

Local Abbreviation reduce := (textBufferReducer stripAnsi).



End TypingRoundTrip.


(** ** Deleting around the cursor *)



Lemma cut_wellFormed (s : TextBufferState) (A B : list str) (b a : str) :
  cutAs s A b a B -> wellFormed s.
Proof.
  intros (El & Er & Ec). unfold wellFormed, validPosition. cbn [fst snd].
  rewrite El, Er, Ec.
  pose proof (len_nonneg A). pose proof (len_nonneg B).
  pose proof (cpLen_nonneg b). pose proof (cpLen_nonneg a).
  split; [destruct A; discriminate|]. split.
  - rewrite len_app, len_cons. len_lia.
  - rewrite lineAt_middle, cpLen_app. lia.
Qed.





Section DeleteProperties.

Variable stripAnsi : str -> str.

Local Abbreviation reduce := (textBufferReducer stripAnsi).








End DeleteProperties.

(** ** Deleting words *)





Lemma existsb_Forall_false {T} (f : T -> bool) (l : list T) :
  existsb f l = false -> Forall (fun c => f c = false) l.
Proof.
  induction l as [|c l IH]; cbn [existsb]; intro H; [constructor|].
  apply orb_false_iff in H. destruct H as (Hc & Hl).
  constructor; [exact Hc | exact (IH Hl)].
Qed.

Lemma firstn_front {T} (x y z : list T) :
  firstn (length x) ((x ++ y) ++ z) = x.
Proof.
  rewrite <- app_assoc.
  pose proof (firstn_middle x (y ++ z)) as H. unfold len in H.
  rewrite Nat2Z.id in H. exact H.
Qed.

Lemma cpSlice_front_part (pre run a : list codepoint) :
  cpSlice ((pre ++ run) ++ a) 0 (Some (len pre)) = pre.
Proof.
  rewrite <- app_assoc. apply cpSlice_front.
Qed.






Section WordProperties.

Variable stripAnsi : str -> str.

Local Abbreviation reduce := (textBufferReducer stripAnsi).






End WordProperties.

(** ** Replacing a range *)

Lemma clamp_idem (v hi : Z) :
  0 <= hi -> clamp (clamp v 0 hi) 0 hi = clamp v 0 hi.
Proof. intro H. apply clamp_inside. apply clamp_range. exact H. Qed.

Lemma textBefore_clamp (ls : list str) (row col : Z) :
  textBefore ls row col
  = textBefore ls row (clamp col 0 (cpLen (lineAt ls row))).
Proof.
  unfold textBefore, cpSlice.
  rewrite clamp_idem by apply cpLen_nonneg. reflexivity.
Qed.

Lemma textAfter_clamp (ls : list str) (row col : Z) :
  textAfter ls row col
  = textAfter ls row (clamp col 0 (cpLen (lineAt ls row))).
Proof.
  unfold textAfter, cpSlice.
  rewrite clamp_idem by apply cpLen_nonneg. reflexivity.
Qed.

Lemma cpSlice_clamp_stop (l : str) (c : Z) :
  cpSlice l 0 (Some (clamp c 0 (cpLen l))) = cpSlice l 0 (Some c).
Proof.
  unfold cpSlice. rewrite clamp_idem by apply cpLen_nonneg. reflexivity.
Qed.

Lemma cpSlice_clamp_start (l : str) (c : Z) :
  cpSlice l (clamp c 0 (cpLen l)) None = cpSlice l c None.
Proof.
  unfold cpSlice. rewrite clamp_idem by apply cpLen_nonneg. reflexivity.
Qed.

Lemma arrSlice_middle {T} (x y : T) (mid : list T) :
  arrSlice (x :: mid ++ [y]) 1 (-1) = mid.
Proof.
  unfold arrSlice, relIndex.
  change (1 <? 0) with false. change (-1 <? 0) with true. cbv iota.
  rewrite len_cons, len_snoc. pose proof (len_nonneg mid).
  rewrite Z.min_l, Z.max_l by lia.
  change (Z.to_nat 1) with 1%nat. cbn [skipn].
  replace (1 + (len mid + 1) + -1 - 1) with (len mid) by lia.
  apply firstn_middle.
Qed.

Lemma splice_replace_middle {T} (X M Y items : list T) :
  splice (X ++ M ++ Y) (len X) (len M) items = X ++ items ++ Y.
Proof.
  pose proof (len_nonneg X). pose proof (len_nonneg M).
  pose proof (len_nonneg Y).
  rewrite splice_inside by (rewrite ?len_app; lia).
  rewrite firstn_middle, (app_assoc X M Y), <- len_app, skipn_middle.
  reflexivity.
Qed.

(** A range the reducer accepts cuts the lines in three: the text in
    front of the range, the range, the text behind it. *)
Lemma range_cut (ls : list str) (sr sc er ec : Z) :
  ~ rangeRejected ls sr sc er ec ->
  (sr = er
   /\ exists (A : list str) (b m a : str) (B : list str),
        ls = A ++ ((b ++ m) ++ a) :: B /\ sr = len A
        /\ sc = cpLen b /\ ec = cpLen (b ++ m))
  \/ (sr < er
      /\ exists (A : list str) (b x : str) (M : list str) (y a : str)
           (B : list str),
           ls = (A ++ (b ++ x) :: M) ++ (y ++ a) :: B /\ sr = len A
           /\ clamp sc 0 (cpLen (lineAt ls sr)) = cpLen b
           /\ er = len (A ++ (b ++ x) :: M)
           /\ clamp ec 0 (cpLen (lineAt ls er)) = cpLen y).
Proof.
  unfold rangeRejected. intro H.
  assert (Her : 0 <= er < len ls) by len_lia.
  pose proof (clamp_range ec (cpLen (lineAt ls er))
                (cpLen_nonneg _)) as Hec.
  destruct (buffer_cut ls er _ Her Hec) as (A2 & b2 & a & B & El & Er & Ec).
  destruct (Z.eq_dec sr er) as [Heq|Hneq].
  - left. split; [exact Heq|].
    assert (Hline : lineAt ls er = b2 ++ a)
      by (rewrite El, Er; apply lineAt_middle).
    assert (Hcols : 0 <= sc <= ec /\ ec <= cpLen (lineAt ls er)) by len_lia.
    rewrite clamp_inside in Ec by len_lia.
    exists A2, (firstn (Z.to_nat sc) b2), (skipn (Z.to_nat sc) b2), a, B.
    rewrite firstn_skipn. repeat split.
    + exact El.
    + len_lia.
    + unfold cpLen in *. symmetry. apply len_firstn. len_lia.
    + exact Ec.
  - right. split; [len_lia|].
    assert (Hsr : 0 <= sr < len A2) by len_lia.
    assert (Hl : lineAt ls sr = lineAt A2 sr)
      by (rewrite El; apply lineAt_app_l; len_lia).
    pose proof (clamp_range sc (cpLen (lineAt A2 sr))
                  (cpLen_nonneg _)) as Hsc.
    destruct (buffer_cut A2 sr _ Hsr Hsc)
      as (A & b & x & M & El2 & Er2 & Ec2).
    exists A, b, x, M, b2, a, B. rewrite Hl. subst A2.
    repeat split; assumption.
Qed.

Section RangeProperties.

Variable stripAnsi : str -> str.

Local Abbreviation reduce := (textBufferReducer stripAnsi).

Lemma replaceRange_halves (s : TextBufferState) (sr sc er ec : Z)
  (t : str) :
  ~ rangeRejected (lines s) sr sc er ec ->
  let r := reduce s (REPLACE_RANGE sr sc er ec t) in
  let replacement := replaceCR (replaceCRLF t) in
  text r
  = textBefore (lines s) sr sc ++ replacement ++ textAfter (lines s) er ec
  /\ (sr < er \/ noLineBreak replacement ->
      textBeforeCursor r = textBefore (lines s) sr sc ++ replacement
      /\ textAfterCursor r = textAfter (lines s) er ec).
Proof.
  intros Hok. cbv zeta.
  rewrite (textBefore_clamp (lines s) sr sc).
  rewrite (textAfter_clamp (lines s) er ec).
  unfold text, textBeforeCursor, textAfterCursor.
  cbn [textBufferReducer]. unfold replaceRangeState.
  rewrite (rangeCheck_false _ _ _ _ _ Hok).
  cbn [lines cursorRow cursorCol setPreferredCol setCursor setLines
       pushUndo setStacks].
  set (replacement := replaceCR (replaceCRLF t)).
  pose proof (joinLF_splitLF replacement) as Hjoin.
  pose proof (splitLF_nonempty replacement) as Hparts.
  destruct (range_cut _ _ _ _ _ Hok)
    as [(Heq & A & b & m & a & B & El & Er & Esc & Eec)
       | (Hlt & A & b & x & M & y & a & B & El & Er & Esc & Eer & Eec)].
  - (* one row *)
    subst er. replace (sr =? sr) with true by (symmetry; apply Z.eqb_refl).
    assert (Hline : lineAt (lines s) sr = (b ++ m) ++ a)
      by (rewrite El, Er; apply lineAt_middle).
    rewrite Hline.
    assert (Hs : clamp sc 0 (cpLen ((b ++ m) ++ a)) = cpLen b).
    { rewrite Esc. apply clamp_inside.
      pose proof (cpLen_nonneg b). pose proof (cpLen_nonneg m).
      pose proof (cpLen_nonneg a). rewrite !cpLen_app. lia. }
    assert (He : clamp ec 0 (cpLen ((b ++ m) ++ a)) = cpLen (b ++ m)).
    { rewrite Eec. apply clamp_inside.
      pose proof (cpLen_nonneg (b ++ m)). pose proof (cpLen_nonneg a).
      rewrite (cpLen_app (b ++ m) a). lia. }
    rewrite Hs, He.
    assert (Hpre : cpSlice ((b ++ m) ++ a) 0 (Some (cpLen b)) = b)
      by (rewrite <- !app_assoc; apply cpSlice_front).
    rewrite Hpre, cpSlice_back.
    rewrite El, Er, arrSet_middle.
    assert (HtB : textBefore (A ++ ((b ++ m) ++ a) :: B) (len A) (cpLen b)
                  = joinLF (A ++ [b])).
    { rewrite <- (app_assoc b m a). apply textBefore_cut. }
    rewrite HtB, textAfter_cut.
    split.
    + eapply eq_trans; [apply (joinLF_cut A B b (replacement ++ a))|].
      f_equal. apply (joinLF_cut [] B replacement a).
    + intros [Hlt | Hnb]; [lia|].
      rewrite (splitLF_single replacement Hnb).
      change (len [replacement]) with 1. change (1 <? 1) with false.
      cbn [lastElem last]. cbv iota.
      replace (len A + 1 - 1) with (len A) by lia.
      rewrite <- cpLen_app.
      rewrite (app_assoc b replacement a).
      rewrite textBefore_cut, textAfter_cut.
      split; [apply joinLF_last_app | reflexivity].
  - (* several rows *)
    replace (sr =? er) with false by (symmetry; apply Z.eqb_neq; lia).
    assert (Hls : lineAt (lines s) sr = b ++ x).
    { rewrite El, Er, <- app_assoc. cbn [app]. apply lineAt_middle. }
    assert (Hle : lineAt (lines s) er = y ++ a)
      by (rewrite El, Eer; apply lineAt_middle).
    rewrite Esc, Eec. rewrite Hls, Hle.
    rewrite cpSlice_front, cpSlice_back.
    assert (HtB : textBefore (lines s) sr (cpLen b) = joinLF (A ++ [b])).
    { rewrite El, Er, <- app_assoc. cbn [app]. apply textBefore_cut. }
    assert (HtA : textAfter (lines s) er (cpLen y) = joinLF (a :: B))
      by (rewrite El, Eer; apply textAfter_cut).
    rewrite HtB, HtA.
    assert (Hcount : er - sr + 1 = len ((b ++ x) :: M ++ [y ++ a])).
    { rewrite Eer, Er, len_app, !len_cons, len_snoc. len_lia. }
    assert (Hshape : lines s = A ++ ((b ++ x) :: M ++ [y ++ a]) ++ B).
    { rewrite El, <- !app_assoc. cbn [app]. rewrite <- app_assoc.
      reflexivity. }
    rewrite Hcount, Hshape, Er, !splice_replace_middle.
    destruct (splitLF replacement) as [|p0 rest]; [contradiction|].
    rewrite lineAt_head.
    destruct rest as [|p1 rest].
    + change (len [p0]) with 1.
      change (1 =? 1) with true. change (1 <? 1) with false.
      cbn [lastElem last]. cbv iota. cbn [joinLF] in Hjoin. subst p0.
      replace (len A + 1 - 1) with (len A) by lia.
      split.
      * cbn [app]. rewrite <- (app_assoc b replacement a).
        eapply eq_trans; [apply (joinLF_cut A B b (replacement ++ a))|].
        f_equal. apply (joinLF_cut [] B replacement a).
      * intros _. rewrite <- cpLen_app. cbn [app].
        rewrite textBefore_cut, textAfter_cut.
        split; [apply joinLF_last_app | reflexivity].
    + destruct (@exists_last _ (p1 :: rest) ltac:(discriminate))
        as (mid & pl & E).
      rewrite E in *. clear E p1 rest.
      assert (Hlen : len (p0 :: mid ++ [pl]) = len mid + 2)
        by (rewrite len_cons, len_snoc; lia).
      rewrite Hlen. pose proof (len_nonneg mid) as Hmid.
      replace (len mid + 2 =? 1) with false
        by (symmetry; apply Z.eqb_neq; lia).
      replace (1 <? len mid + 2) with true
        by (symmetry; apply Z.ltb_lt; lia).
      rewrite arrSlice_middle.
      change (p0 :: mid ++ [pl]) with ((p0 :: mid) ++ [pl]).
      rewrite lastElem_app. cbv iota.
      assert (Hnew : A ++ ((b ++ p0) :: mid ++ [pl ++ a]) ++ B
                     = (A ++ (b ++ p0) :: mid) ++ (pl ++ a) :: B).
      { rewrite <- !app_assoc. cbn [app]. rewrite <- app_assoc.
        reflexivity. }
      unfold str, codepoint in *. rewrite Hnew.
      assert (Hrow : len A + (len mid + 2) - 1
                     = len (A ++ (b ++ p0) :: mid))
        by (rewrite len_app, len_cons; len_lia).
      rewrite Hrow, Z.add_0_l.
      assert (Hfront : joinLF ((A ++ (b ++ p0) :: mid) ++ [pl])
                       = joinLF (A ++ [b]) ++ replacement).
      { rewrite <- Hjoin, <- app_assoc. cbn [app].
        apply (joinLF_cut A (mid ++ [pl]) b p0). }
      split.
      * eapply eq_trans; [apply joinLF_cut|].
        eapply eq_trans;
          [apply (f_equal (fun z => z ++ joinLF (a :: B))); exact Hfront|].
        rewrite <- app_assoc. reflexivity.
      * intros _. split.
        -- eapply eq_trans; [apply textBefore_cut | exact Hfront].
        -- apply textAfter_cut.
Qed.

(** X17: what REPLACE_RANGE does to the text.  When the range passes the
    checks of the reducer, the text of the buffer becomes the text in
    front of the start of the range, the replacement with its line ends
    normalised, and the text behind the end of the range; columns past a
    line count as its end.  When the range spans several rows, or the
    replacement holds no line break, the cursor stands right behind the
    replacement. *)
Theorem replaceRange_replaces_text (s : TextBufferState) (sr sc er ec : Z)
  (t : str) :
  ~ rangeRejected (lines s) sr sc er ec ->
  let r := reduce s (REPLACE_RANGE sr sc er ec t) in
  let replacement := replaceCR (replaceCRLF t) in
  text r
  = textBefore (lines s) sr sc ++ replacement ++ textAfter (lines s) er ec
  /\ (sr < er \/ noLineBreak replacement ->
      textBeforeCursor r = textBefore (lines s) sr sc ++ replacement
      /\ textAfterCursor r = textAfter (lines s) er ec).
Proof. apply replaceRange_halves. Qed.

End RangeProperties.

(** ** Offsets and positions *)

Lemma splitLF_app (x y : str) :
  splitLF (x ++ y)
  = removelast (splitLF x)
    ++ (last (splitLF x) [] ++ hd [] (splitLF y)) :: tl (splitLF y).
Proof.
  induction x as [|c x IH].
  - cbn [app splitLF removelast last].
    pose proof (splitLF_nonempty y) as Hne.
    destruct (splitLF y); [contradiction | reflexivity].
  - cbn [app splitLF]. rewrite IH. clear IH.
    pose proof (splitLF_nonempty x) as Hne.
    destruct (splitLF x) as [|l ls]; [contradiction|]. clear Hne.
    destruct (c =? LF).
    + change (removelast ([] :: l :: ls)) with ([] :: removelast (l :: ls)).
      change (last ([] :: l :: ls) []) with (last (l :: ls) []).
      reflexivity.
    + destruct ls as [|l2 ls].
      * reflexivity.
      * change (removelast (l :: l2 :: ls))
          with (l :: removelast (l2 :: ls)).
        change (removelast ((c :: l) :: l2 :: ls))
          with ((c :: l) :: removelast (l2 :: ls)).
        change (last ((c :: l) :: l2 :: ls) []) with (last (l2 :: ls) []).
        change (last (l :: l2 :: ls) []) with (last (l2 :: ls) []).
        reflexivity.
Qed.

Lemma lineStart_cut (A : list str) (l b : str) (B : list str) :
  lineStart (A ++ l :: B) (length A) + cpLen b = cpLen (joinLF (A ++ [b])).
Proof.
  induction A as [|a0 A IH].
  - reflexivity.
  - cbn [app length lineStart].
    rewrite joinLF_cons by (destruct A; discriminate).
    rewrite cpLen_app. unfold cpLen at 4. rewrite len_cons.
    fold (cpLen (joinLF (A ++ [b]))). rewrite <- IH. lia.
Qed.

(** The position of the offset behind [x] in the text [x ++ y] cuts the
    lines of the text into [x] and [y]. *)
Lemma offsetToLogicalPos_cut (x y : str) :
  exists (A : list str) (b a : str) (B : list str),
    splitLF (x ++ y) = A ++ (b ++ a) :: B
    /\ offsetToLogicalPos (x ++ y) (cpLen x) = (len A, cpLen b)
    /\ joinLF (A ++ [b]) = x /\ joinLF (a :: B) = y
    /\ splitLF x = A ++ [b].
Proof.
  pose proof (splitLF_nonempty x) as Hx.
  pose proof (splitLF_nonempty y) as Hy.
  pose proof (joinLF_splitLF x) as Jx.
  pose proof (joinLF_splitLF y) as Jy.
  pose proof (splitLF_app x y) as Happ.
  destruct (exists_last Hx) as (A & b & Ex).
  rewrite Ex in *. rewrite removelast_last, last_last in Happ.
  destruct (splitLF y) as [|a B]; [contradiction|]. cbn [hd tl] in Happ.
  exists A, b, a, B. split; [exact Happ|].
  split; [|split; [assumption | split; [assumption | reflexivity]]].
  assert (Hnth : nth_error (splitLF (x ++ y)) (length A) = Some (b ++ a)).
  { rewrite Happ, nth_error_app2 by lia. rewrite Nat.sub_diag. reflexivity. }
  rewrite (offsetToLogicalPos_in_body (x ++ y) (cpLen x) (length A)
             (b ++ a) Hnth).
  - f_equal. rewrite Happ. rewrite <- Jx at 1.
    rewrite <- (lineStart_cut A (b ++ a) b B). len_lia.
  - rewrite Happ. rewrite <- Jx at 1 2.
    rewrite <- (lineStart_cut A (b ++ a) b B). rewrite cpLen_app.
    pose proof (cpLen_nonneg a). pose proof (cpLen_nonneg b). len_lia.
Qed.

Lemma firstn_skipn_text (text : str) (offset : Z) :
  0 <= offset <= cpLen text ->
  text = firstn (Z.to_nat offset) text ++ skipn (Z.to_nat offset) text
  /\ cpLen (firstn (Z.to_nat offset) text) = offset.
Proof.
  intro H. split; [symmetry; apply firstn_skipn|].
  unfold cpLen in *. apply len_firstn. exact H.
Qed.

(** The position of an offset inside the text cuts the text at the
    offset. *)
Lemma offsetToLogicalPos_halves (text : str) (offset : Z) :
  0 <= offset <= cpLen text ->
  let (row, col) := offsetToLogicalPos text offset in
  validPosition (splitLF text) (row, col)
  /\ textBefore (splitLF text) row col = firstn (Z.to_nat offset) text
  /\ textAfter (splitLF text) row col = skipn (Z.to_nat offset) text.
Proof.
  intro H. destruct (firstn_skipn_text text offset H) as (Et & El).
  set (x := firstn (Z.to_nat offset) text) in *.
  set (y := skipn (Z.to_nat offset) text) in *.
  pose proof (offsetToLogicalPos_valid text offset ltac:(lia)) as Hv.
  destruct (offsetToLogicalPos_cut x y)
    as (A & b & a & B & Es & Ep & Jx & Jy & _).
  rewrite <- Et, El in Ep. rewrite <- Et in Es. rewrite Ep in *.
  split; [exact Hv|]. rewrite Es. split.
  - eapply eq_trans; [apply textBefore_cut | exact Jx].
  - eapply eq_trans; [apply textAfter_cut | exact Jy].
Qed.

Lemma text_of_buffer (s : TextBufferState) :
  stateOk s -> splitLF (text s) = lines s.
Proof.
  intros Hs. unfold text. apply splitLF_joinLF.
  - apply stateOk_lines. exact Hs.
  - destruct Hs as ((H & _) & _). exact H.
Qed.

(** A later offset is a later position. *)
Lemma offsetToLogicalPos_monotone (text : str) (so eo : Z) :
  0 <= so <= eo -> eo <= cpLen text ->
  let (sr, sc) := offsetToLogicalPos text so in
  let (er, ec) := offsetToLogicalPos text eo in
  sr < er \/ (sr = er /\ sc <= ec).
Proof.
  intros Hso Heo.
  set (x := firstn (Z.to_nat so) text).
  set (rest := skipn (Z.to_nat so) text).
  set (m := firstn (Z.to_nat (eo - so)) rest).
  set (y := skipn (Z.to_nat (eo - so)) rest).
  assert (Et : text = x ++ m ++ y).
  { unfold x, m, y, rest. rewrite !firstn_skipn. reflexivity. }
  assert (Hx : cpLen x = so).
  { unfold x, cpLen in *. apply len_firstn. lia. }
  assert (Hm : cpLen m = eo - so).
  { unfold m, rest, cpLen in *. apply len_firstn.
    rewrite len_skipn by lia. lia. }
  destruct (offsetToLogicalPos_cut x (m ++ y))
    as (A1 & b1 & a1 & B1 & _ & P1 & _ & _ & S1).
  destruct (offsetToLogicalPos_cut (x ++ m) y)
    as (A2 & b2 & a2 & B2 & _ & P2 & _ & _ & S2).
  rewrite <- Et, Hx in P1.
  rewrite <- app_assoc, <- Et, cpLen_app, Hx, Hm in P2.
  replace (so + (eo - so)) with eo in P2 by lia.
  rewrite P1, P2.
  pose proof (splitLF_app x m) as Happ.
  rewrite S1, S2, removelast_last, last_last in Happ.
  pose proof (splitLF_nonempty m) as Hne.
  destruct (splitLF m) as [|m0 M]; [contradiction|]. cbn [hd tl] in Happ.
  destruct M as [|m1 M] using (@rev_ind str).
  - right. apply app_inj_tail in Happ. destruct Happ as (-> & ->).
    split; [reflexivity|]. rewrite cpLen_app.
    pose proof (cpLen_nonneg m0). lia.
  - left. clear IHM.
    change (A1 ++ (b1 ++ m0) :: M ++ [m1])
      with (A1 ++ ((b1 ++ m0) :: M) ++ [m1]) in Happ.
    rewrite app_assoc in Happ.
    apply app_inj_tail in Happ. destruct Happ as (-> & _).
    rewrite len_app, len_cons. pose proof (len_nonneg M). len_lia.
Qed.

Section OffsetProperties.

Variable stripAnsi : str -> str.

Local Abbreviation reduce := (textBufferReducer stripAnsi).

(** X18: [moveToOffset] puts the cursor behind the first [offset] code
    points of the text, line breaks counted, and leaves the lines alone;
    an offset past the text puts it at the end of the text. *)
Theorem moveToOffset_cuts_text_at_offset (s : TextBufferState)
  (offset : Z) :
  stateOk s -> 0 <= offset ->
  let r := dispatchAll stripAnsi s (moveToOffset s offset) in
  lines r = lines s
  /\ textBeforeCursor r = firstn (Z.to_nat offset) (text s)
  /\ textAfterCursor r = skipn (Z.to_nat offset) (text s).
Proof.
  intros Hs Hoff. cbv zeta. unfold moveToOffset, dispatchAll.
  cbn [fold_left textBufferReducer].
  unfold textBeforeCursor, textAfterCursor.
  pose proof (text_of_buffer s Hs) as Hlines.
  destruct (Z_le_gt_dec offset (cpLen (text s))) as [Hin|Hout].
  - pose proof (offsetToLogicalPos_halves (text s) offset
                  (conj Hoff Hin)) as H.
    destruct (offsetToLogicalPos (text s) offset) as [row col].
    cbn [lines cursorRow cursorCol setPreferredCol setCursor].
    rewrite Hlines in H. destruct H as (_ & Hb & Ha).
    split; [reflexivity|]. split; assumption.
  - rewrite (offsetToLogicalPos_beyond (text s) offset) by lia.
    cbn [lines cursorRow cursorCol setPreferredCol setCursor].
    rewrite Hlines. split; [reflexivity|].
    pose proof (stateOk_lines s Hs) as Hne.
    destruct (exists_last Hne) as (A & l & E).
    unfold text. rewrite E, len_snoc, last_last.
    replace (len A + 1 - 1) with (len A) by lia.
    pose proof (textBefore_cut A [] l []) as Hb.
    pose proof (textAfter_cut A [] l []) as Ha.
    rewrite app_nil_r in Hb, Ha.
    assert (Hlen : (length (joinLF (A ++ [l])) <= Z.to_nat offset)%nat).
    { unfold text in Hout. rewrite E in Hout. unfold cpLen, len in Hout.
      lia. }
    split.
    + eapply eq_trans; [exact Hb|]. symmetry. apply firstn_all2. exact Hlen.
    + eapply eq_trans; [exact Ha|]. symmetry. apply skipn_all2. exact Hlen.
Qed.

(** X19: [replaceRangeByOffset] replaces a slice of the text.  For offsets
    [0 <= startOffset <= endOffset] inside the text the call is accepted,
    and the text becomes its first [startOffset] code points, the
    replacement with its line ends normalised, and the text from
    [endOffset] on. *)
Theorem replaceRangeByOffset_replaces_slice (s : TextBufferState)
  (startOffset endOffset : Z) (replacementText : str) :
  stateOk s ->
  0 <= startOffset <= endOffset -> endOffset <= cpLen (text s) ->
  let (queue, accepted) :=
    replaceRangeByOffset s startOffset endOffset replacementText in
  accepted = true
  /\ text (dispatchAll stripAnsi s queue)
     = firstn (Z.to_nat startOffset) (text s)
       ++ replaceCR (replaceCRLF replacementText)
       ++ skipn (Z.to_nat endOffset) (text s).
Proof.
  intros Hs Hso Heo. unfold replaceRangeByOffset.
  pose proof (text_of_buffer s Hs) as Hlines.
  pose proof (offsetToLogicalPos_monotone (text s) startOffset endOffset
                Hso Heo) as Hmono.
  pose proof (offsetToLogicalPos_halves (text s) startOffset
                ltac:(lia)) as H1.
  pose proof (offsetToLogicalPos_halves (text s) endOffset
                ltac:(lia)) as H2.
  destruct (offsetToLogicalPos (text s) startOffset) as [sr sc].
  destruct (offsetToLogicalPos (text s) endOffset) as [er ec].
  rewrite Hlines in H1, H2.
  destruct H1 as ((Hsr & Hsc) & Hb1 & _).
  destruct H2 as ((Her & Hec) & _ & Ha2).
  cbn [fst snd] in *.
  assert (Hok : ~ rangeRejected (lines s) sr sc er ec).
  { unfold rangeRejected. lia. }
  unfold replaceRange. rewrite (rangeCheck_false _ _ _ _ _ Hok).
  split; [reflexivity|].
  unfold dispatchAll. cbn [fold_left].
  rewrite (proj1 (replaceRange_halves stripAnsi s sr sc er ec
                    replacementText Hok)).
  rewrite Hb1, Ha2. reflexivity.
Qed.

End OffsetProperties.

(** ** Clipboard *)





Section ClipboardProperties.

Variable stripAnsi : str -> str.

Local Abbreviation reduce := (textBufferReducer stripAnsi).






End ClipboardProperties.

(** ** The layout and the lines it is made from *)

Lemma chunkShape_chunkOf (codePoints : list codepoint) (pos : Z)
  (rest : list codepoint) (i : Z) (st : Chunk) :
  chunkShape codePoints pos rest i st -> chunkOf codePoints pos st.
Proof.
  intros (Hskip & _ & Hnum & _). split; [exact Hnum|].
  rewrite Hskip, firstn_app, Nat.sub_diag, firstn_all. cbn [firstn].
  symmetry. apply app_nil_r.
Qed.

Lemma word_break_slice (codePoints : list codepoint) (pos : Z)
  (char : codepoint) (rest : list codepoint) (i : Z) (st : Chunk) :
  0 <= pos ->
  chunkShape codePoints pos (char :: rest) i st ->
  arrSlice codePoints pos (pos + numCodePointsAtLastWordBreak st)
  = firstn (Z.to_nat (numCodePointsAtLastWordBreak st)) (currentChunk st).
Proof.
  intros Hpos (Hskip & Hi & Hnum & Hbreak).
  assert (Hlen : len codePoints - pos
                 = len (currentChunk st) + 1 + len rest).
  { assert (H : length (skipn (Z.to_nat pos) codePoints)
                = length (currentChunk st ++ char :: rest))
      by (rewrite Hskip; reflexivity).
    rewrite length_skipn, length_app in H. simpl in H.
    unfold len. lia. }
  pose proof (len_nonneg rest) as Hrest.
  unfold arrSlice, relIndex.
  replace (pos <? 0) with false by (symmetry; apply Z.ltb_ge; lia).
  replace (pos + numCodePointsAtLastWordBreak st <? 0) with false
    by (symmetry; apply Z.ltb_ge; lia).
  rewrite !Z.min_l by lia.
  replace (pos + numCodePointsAtLastWordBreak st - pos)
    with (numCodePointsAtLastWordBreak st) by lia.
  rewrite Hskip. rewrite firstn_app.
  replace (Z.to_nat (numCodePointsAtLastWordBreak st)
           - length (currentChunk st))%nat with O
    by (unfold len in *; lia).
  simpl. apply app_nil_r.
Qed.

Section LayoutShape.

Variable stringWidth : str -> Z.

Lemma buildChunk_chunkOf (codePoints : list codepoint) (pos vw : Z)
  (rest : list codepoint) :
  forall (i : Z) (st : Chunk),
    0 <= pos ->
    chunkShape codePoints pos rest i st ->
    chunkOf codePoints pos
      (buildChunk stringWidth codePoints pos vw rest i st).
Proof.
  induction rest as [|char rest IH]; intros i st Hpos Hinv.
  - cbn [buildChunk]. exact (chunkShape_chunkOf _ _ _ _ _ Hinv).
  - pose proof Hinv as (Hskip & Hi & Hnum & Hbreak).
    cbn [buildChunk].
    destruct (vw <? currentChunkVisualWidth st + stringWidth [char]).
    + destruct (negb (lastWordBreakPoint st =? -1)
                && (0 <? numCodePointsAtLastWordBreak st)
                && (pos + numCodePointsAtLastWordBreak st <? i)).
      * unfold chunkOf. cbn [currentChunk numCodePointsInChunk].
        rewrite (word_break_slice codePoints pos char rest i st Hpos Hinv).
        assert (Hlen : length (firstn
                         (Z.to_nat (numCodePointsAtLastWordBreak st))
                         (currentChunk st))
                       = Z.to_nat (numCodePointsAtLastWordBreak st)).
        { rewrite length_firstn. unfold len in *. lia. }
        split.
        -- unfold len. rewrite Hlen. lia.
        -- rewrite Hlen, Hskip, firstn_app.
           replace (Z.to_nat (numCodePointsAtLastWordBreak st)
                    - length (currentChunk st))%nat with O
             by (unfold len in *; lia).
           cbn [firstn]. symmetry. apply app_nil_r.
      * destruct ((numCodePointsInChunk st =? 0)
                  && (vw <? stringWidth [char])) eqn:E.
        -- apply andb_true_iff in E. destruct E as (E & _).
           apply Z.eqb_eq in E. rewrite E in Hnum.
           destruct (currentChunk st) as [|x l] eqn:Ech;
             [|unfold len in Hnum; simpl in Hnum; lia].
           cbn [app] in Hskip.
           unfold chunkOf. cbn [currentChunk numCodePointsInChunk length].
           split; [reflexivity|]. rewrite Hskip. reflexivity.
        -- exact (chunkShape_chunkOf _ _ _ _ _ Hinv).
    + apply IH; [exact Hpos|].
      pose proof (len_nonneg (currentChunk st)) as Hc.
      assert (Hlen : len (currentChunk st ++ [char])
                     = len (currentChunk st) + 1)
        by (rewrite len_app; reflexivity).
      destruct (char =? SPACE); unfold chunkShape; cbn [currentChunk
        numCodePointsInChunk numCodePointsAtLastWordBreak];
        rewrite <- app_assoc; simpl app;
        repeat split; try assumption; lia.
Qed.

Lemma forceAdvance_chunkOf (codePoints : list codepoint) (pos : Z)
  (st : Chunk) :
  0 <= pos ->
  chunkOf codePoints pos st ->
  chunkOf codePoints pos (forceAdvance codePoints pos st).
Proof.
  intros Hpos Hst. unfold forceAdvance.
  destruct ((numCodePointsInChunk st =? 0) && (pos <? len codePoints))
    eqn:E; [|exact Hst].
  apply andb_true_iff in E. destruct E as (_ & E). apply Z.ltb_lt in E.
  unfold chunkOf, charAt, arrGet.
  cbn [currentChunk numCodePointsInChunk].
  replace (pos <? 0) with false by (symmetry; apply Z.ltb_ge; lia).
  destruct (nth_error codePoints (Z.to_nat pos)) as [c|] eqn:Enth.
  - split; [reflexivity|]. cbn [length].
    clear - Enth. revert Enth. generalize (Z.to_nat pos). intro n.
    revert codePoints. induction n as [|n IH]; intros [|x l] H;
      try discriminate H.
    + simpl in H. injection H as ->. reflexivity.
    + simpl in H. cbn [skipn]. exact (IH l H).
  - apply nth_error_None in Enth. unfold len in E. lia.
Qed.

(** The chunk of a pass of the loop over a line is the slice of the line
    the pass records. *)
Lemma chunkOf_slice (codePoints : list codepoint) (pos : Z) (st : Chunk) :
  0 <= pos < len codePoints ->
  chunkOf codePoints pos st ->
  currentChunk st
  = cpSlice codePoints pos (Some (pos + cpLen (currentChunk st))).
Proof.
  intros Hpos (_ & Hchunk).
  assert (Hle : len (currentChunk st) <= len codePoints - pos).
  { assert (H : (length (currentChunk st)
                 <= length (skipn (Z.to_nat pos) codePoints))%nat).
    { rewrite Hchunk at 1. rewrite length_firstn. lia. }
    rewrite length_skipn in H. unfold len in *. len_lia. }
  pose proof (len_nonneg (currentChunk st)) as Hc.
  unfold cpSlice, cpLen.
  rewrite (clamp_inside pos) by lia.
  rewrite (clamp_inside (pos + len (currentChunk st))) by lia.
  replace (Z.to_nat (pos + len (currentChunk st) - pos))
    with (length (currentChunk st)) by (unfold len; lia).
  exact Hchunk.
Qed.

Lemma validPosition_app (vls more : list str) (p : Position) :
  validPosition vls p -> validPosition (vls ++ more) p.
Proof.
  intros (Hr & Hc). split.
  - rewrite len_app. pose proof (len_nonneg more). lia.
  - rewrite lineAt_app_l by lia. exact Hc.
Qed.

Lemma cursorInLines_app (vls more : list str) (p : Position) :
  cursorInLines vls p -> cursorInLines (vls ++ more) p.
Proof.
  intros [H|H]; [left; exact H | right; apply validPosition_app; exact H].
Qed.

Lemma validPosition_last (vls : list str) (chunk : str) (col : Z) :
  0 <= col <= cpLen chunk ->
  validPosition (vls ++ [chunk]) (len (vls ++ [chunk]) - 1, col).
Proof.
  intro H. rewrite len_snoc. replace (len vls + 1 - 1) with (len vls) by lia.
  pose proof (len_nonneg vls). split; cbn [fst snd].
  - rewrite len_snoc. lia.
  - rewrite lineAt_middle. exact H.
Qed.

Section OneLine.

Variable ls : list str.
Variable logicalCursor : Position.
Variable viewportWidth : Z.

(** What the layouter has built so far: every visual line is the slice
    its entry of [visualToLogicalMap] names, and the visual cursor is a
    position of the visual lines. *)
Local Abbreviation built acc :=
  (Forall2 (sliceOfLine ls) (accVisualLines acc) (accVisualToLogical acc)
   /\ cursorInLines (accVisualLines acc) (accVisualCursor acc)).

Lemma wrapLine_built (codePoints : list codepoint) (logIndex : Z)
  (fuel : nat) :
  lineAt ls logIndex = codePoints ->
  forall (pos : Z) (acc acc' : LayoutAcc),
    0 <= pos ->
    built acc ->
    wrapLine stringWidth fuel codePoints logIndex logicalCursor
      viewportWidth pos acc = Some acc' ->
    built acc'
    /\ len (accVisualLines acc) <= len (accVisualLines acc')
    /\ (pos < len codePoints ->
        len (accVisualLines acc) < len (accVisualLines acc')).
Proof.
  intro Hline.
  induction fuel as [|fuel IH]; intros pos acc acc' Hpos Hacc Hrun.
  - simpl in Hrun. destruct (pos <? len codePoints) eqn:E; [discriminate|].
    injection Hrun as <-. apply Z.ltb_ge in E.
    split; [exact Hacc|]. split; lia.
  - cbn [wrapLine] in Hrun.
    destruct (pos <? len codePoints) eqn:E.
    2:{ injection Hrun as <-. apply Z.ltb_ge in E.
        split; [exact Hacc|]. split; lia. }
    apply Z.ltb_lt in E.
    set (st0 := buildChunk stringWidth codePoints pos viewportWidth
                  (skipn (Z.to_nat pos) codePoints) pos emptyChunk) in *.
    assert (Hst0 : chunkOf codePoints pos st0).
    { apply buildChunk_chunkOf; [exact Hpos|].
      unfold chunkShape, emptyChunk, len. simpl. repeat split; lia. }
    assert (H0 : 0 <= numCodePointsInChunk st0)
      by (apply buildChunk_num_nonneg; simpl; lia).
    pose proof (forceAdvance_num codePoints pos st0 H0 E) as H1.
    pose proof (forceAdvance_num_nonneg codePoints pos _ H1)
      as H2.
    pose proof (forceAdvance_chunkOf codePoints pos _ Hpos
                  (forceAdvance_chunkOf codePoints pos _ Hpos Hst0)) as Hst.
    set (st := forceAdvance codePoints pos
                 (forceAdvance codePoints pos st0)) in *.
    pose proof (chunkOf_slice codePoints pos st (conj Hpos E) Hst)
      as Hslice.
    destruct Hst as (Hnum & _).
    destruct Hacc as (Hall & Hcur).
    match type of Hrun with
    | wrapLine _ _ _ _ _ _ ?next ?acc1 = _ =>
        destruct (IH next acc1 acc') as (Hb & Hle & _);
          [ | | exact Hrun | ]
    end.
    + match goal with
      | |- context [if ?c then _ else _] => destruct c
      end; lia.
    + cbn [accVisualLines accVisualToLogical accVisualCursor]. split.
      * apply Forall2_app; [exact Hall|].
        constructor; [|constructor]. split; cbn [fst snd]; [exact Hpos|].
        rewrite Hline. exact Hslice.
      * unfold chunkCursor.
        destruct (logIndex =? fst logicalCursor);
          [|apply cursorInLines_app; exact Hcur].
        destruct ((pos <=? snd logicalCursor)
                  && (snd logicalCursor <? pos + numCodePointsInChunk st))
          eqn:Ein.
        -- right. apply validPosition_last.
           apply andb_true_iff in Ein. destruct Ein as (Ea & Eb).
           apply Z.leb_le in Ea. apply Z.ltb_lt in Eb.
           unfold cpLen. lia.
        -- destruct ((snd logicalCursor =? pos + numCodePointsInChunk st)
                     && (0 <? numCodePointsInChunk st));
             [|apply cursorInLines_app; exact Hcur].
           right. apply validPosition_last. unfold cpLen. lia.
    + cbn [accVisualLines] in Hle. rewrite len_snoc in Hle.
      split; [exact Hb|]. split; intros; lia.
Qed.

Lemma lineEndCursor_built (codePoints : list codepoint) (logIndex : Z)
  (acc : LayoutAcc) :
  built acc ->
  built (lineEndCursor codePoints logIndex logicalCursor acc).
Proof.
  intros (Hall & Hcur). unfold lineEndCursor.
  destruct ((logIndex =? fst logicalCursor)
            && (snd logicalCursor =? len codePoints));
    [|split; assumption].
  destruct (arrGet (accVisualLines acc) (len (accVisualLines acc) - 1))
    as [l|] eqn:Eget; [|split; assumption].
  destruct (0 <=? len (accVisualLines acc) - 1) eqn:E0;
    [|split; assumption].
  apply Z.leb_le in E0.
  cbn [accVisualLines accVisualToLogical accVisualCursor].
  split; [exact Hall|]. right. split; cbn [fst snd]; [lia|].
  unfold lineAt. rewrite Eget. pose proof (cpLen_nonneg l). lia.
Qed.

Lemma layoutLine_built (logLine : str) (logIndex : Z)
  (acc acc' : LayoutAcc) :
  lineAt ls logIndex = logLine ->
  built acc ->
  layoutLine stringWidth logLine logIndex logicalCursor viewportWidth acc
  = Some acc' ->
  built acc'
  /\ len (accVisualLines acc) < len (accVisualLines acc').
Proof.
  intros Hline (Hall & Hcur) Hrun. unfold layoutLine in Hrun.
  cbn [accVisualLines accVisualToLogical accVisualCursor accRowMap]
    in Hrun.
  destruct (jsLength logLine =? 0) eqn:Ejs.
  - injection Hrun as <-.
    cbn [accVisualLines accVisualToLogical accVisualCursor].
    rewrite len_snoc. split; [|lia]. split.
    + apply Forall2_app; [exact Hall|].
      constructor; [|constructor]. split; cbn [fst snd]; [lia|].
      unfold cpSlice. change (cpLen []) with 0. rewrite Z.add_0_r.
      rewrite Z.sub_diag. reflexivity.
    + destruct ((logIndex =? fst logicalCursor)
                && (snd logicalCursor =? 0));
        [|apply cursorInLines_app; exact Hcur].
      right. rewrite <- (len_snoc (accVisualLines acc) []).
      apply validPosition_last. change (cpLen []) with 0. lia.
  - destruct (wrapLine stringWidth (length (toCodePoints logLine))
                (toCodePoints logLine) logIndex logicalCursor viewportWidth
                0 _) as [acc1|] eqn:Hwrap; [|discriminate].
    injection Hrun as <-.
    assert (Hpos : 0 < len (toCodePoints logLine)).
    { unfold toCodePoints. destruct logLine as [|c l];
        [discriminate Ejs|]. rewrite len_cons. pose proof (len_nonneg l).
      lia. }
    assert (Hb0 : built (mkLayoutAcc (accVisualLines acc) []
                           (accVisualToLogical acc) (accVisualCursor acc)))
      by (split; assumption).
    destruct (wrapLine_built (toCodePoints logLine) logIndex _ Hline 0 _ acc1
                ltac:(lia) Hb0 Hwrap) as (Hb & _ & Hlt).
    cbn [accVisualLines] in Hlt. specialize (Hlt Hpos).
    split; [apply lineEndCursor_built; exact Hb|].
    rewrite lineEndCursor_lines. exact Hlt.
Qed.

End OneLine.

Lemma layoutLines_built (logicalCursor : Position) (viewportWidth : Z)
  (rest : list str) :
  forall (pre : list str) (acc acc' : LayoutAcc)
         (l2v l2v' : list (list Position)),
    Forall2 (sliceOfLine (pre ++ rest)) (accVisualLines acc)
      (accVisualToLogical acc) ->
    cursorInLines (accVisualLines acc) (accVisualCursor acc) ->
    len pre <= len (accVisualLines acc) ->
    layoutLines stringWidth rest (len pre) logicalCursor viewportWidth
      acc l2v = Some (acc', l2v') ->
    Forall2 (sliceOfLine (pre ++ rest)) (accVisualLines acc')
      (accVisualToLogical acc')
    /\ cursorInLines (accVisualLines acc') (accVisualCursor acc')
    /\ len (pre ++ rest) <= len (accVisualLines acc').
Proof.
  induction rest as [|logLine rest IH];
    intros pre acc acc' l2v l2v' Hall Hcur Hlen Hrun.
  - simpl in Hrun. injection Hrun as <- _. rewrite app_nil_r in *.
    repeat split; assumption.
  - cbn [layoutLines] in Hrun.
    destruct (layoutLine stringWidth logLine (len pre) logicalCursor
                viewportWidth acc) as [acc1|] eqn:Hline; [|discriminate].
    destruct (layoutLine_built (pre ++ logLine :: rest) logicalCursor
                viewportWidth logLine (len pre) acc acc1
                (lineAt_middle pre rest logLine) (conj Hall Hcur) Hline)
      as ((Hall1 & Hcur1) & Hlt).
    assert (Hshape : pre ++ logLine :: rest = (pre ++ [logLine]) ++ rest)
      by (rewrite <- app_assoc; reflexivity).
    rewrite Hshape in *.
    rewrite <- (len_snoc pre logLine) in Hrun.
    apply (IH (pre ++ [logLine]) acc1 acc' (l2v ++ [accRowMap acc1]) l2v'
             Hall1 Hcur1); [|exact Hrun].
    rewrite len_snoc. lia.
Qed.

Lemma calculateVisualLayout_built (logicalLines : list str)
  (logicalCursor : Position) (viewportWidth : Z) (layout : VisualLayout) :
  calculateVisualLayout stringWidth logicalLines logicalCursor viewportWidth
  = Some layout ->
  Forall2 (sliceOfLine logicalLines) (visualLines layout)
    (visualToLogicalMap layout)
  /\ validPosition (visualLines layout) (visualCursor layout)
  /\ len logicalLines <= len (visualLines layout).
Proof.
  unfold calculateVisualLayout. intro Hrun.
  destruct (layoutLines stringWidth logicalLines 0 logicalCursor
              viewportWidth (mkLayoutAcc [] [] [] (0, 0)) [])
    as [[acc l2v]|] eqn:Hlines; [|discriminate].
  pose proof (layoutLines_built logicalCursor viewportWidth logicalLines []
                (mkLayoutAcc [] [] [] (0, 0)) acc [] l2v) as Hbuilt.
  cbn [app accVisualLines accVisualToLogical accVisualCursor] in Hbuilt.
  destruct (Hbuilt (Forall2_nil _) (or_introl eq_refl) (Z.le_refl _)
              Hlines) as (Hall & Hcur & Hlen).
  clear Hbuilt.
  pose proof (len_nonneg (accVisualLines acc)) as Hv.
  assert (Horigin : accVisualLines acc <> [] ->
                    validPosition (accVisualLines acc) (0, 0)).
  { intro Hne. destruct (accVisualLines acc) as [|v vs]; [contradiction|].
    split; cbn [fst snd].
    - rewrite len_cons. pose proof (len_nonneg vs). lia.
    - rewrite lineAt_head. pose proof (cpLen_nonneg v). lia. }
  destruct ((len logicalLines =? 0)
            || ((len logicalLines =? 1)
                && match logicalLines with
                   | l :: _ => str_eqb l []
                   | [] => false
                   end)) eqn:Especial.
  - destruct (len (accVisualLines acc) =? 0) eqn:Eempty.
    + injection Hrun as <-. cbn [visualLines visualToLogicalMap visualCursor].
      apply Z.eqb_eq in Eempty.
      destruct (accVisualLines acc) as [|v vs] eqn:Evls;
        [|rewrite len_cons in Eempty; pose proof (len_nonneg vs); lia].
      inversion Hall as [Hv2l|]; subst. cbn [app].
      split; [|split].
      * constructor; [|constructor]. split; cbn [fst snd]; [lia|].
        unfold cpSlice. change (cpLen []) with 0. rewrite Z.add_0_r.
        rewrite Z.sub_diag. reflexivity.
      * split; cbn; lia.
      * change (len [[]]) with 1. change (len []) with 0 in Hlen. lia.
    + injection Hrun as <-. cbn [visualLines visualToLogicalMap visualCursor].
      apply Z.eqb_neq in Eempty.
      split; [exact Hall|]. split; [|exact Hlen].
      apply Horigin. intro E. rewrite E in Eempty. apply Eempty. reflexivity.
  - assert (Hne : accVisualLines acc <> []).
    { apply orb_false_iff in Especial. destruct Especial as (E0 & _).
      apply Z.eqb_neq in E0. pose proof (len_nonneg logicalLines).
      intro E. rewrite E in Hlen. change (len []) with 0 in Hlen. lia. }
    destruct ((fst logicalCursor =? len logicalLines - 1)
              && (snd logicalCursor
                  =? match lastElem logicalLines with
                     | Some l => cpLen l
                     | None => 0
                     end)
              && (0 <? len (accVisualLines acc))).
    + injection Hrun as <-. cbn [visualLines visualToLogicalMap visualCursor].
      split; [exact Hall|]. split; [|exact Hlen].
      destruct (exists_last Hne) as (vs & v & E). rewrite E.
      rewrite lastElem_app. apply validPosition_last.
      pose proof (cpLen_nonneg v). lia.
    + injection Hrun as <-. cbn [visualLines visualToLogicalMap visualCursor].
      split; [exact Hall|]. split; [|exact Hlen].
      destruct Hcur as [-> | Hcur]; [apply Horigin; exact Hne | exact Hcur].
Qed.

(** X23: every visual line is a slice of its logical line.  On a dense
    array of logical lines, one that holds a string at every index, the
    layouter returns a layout, whatever the cursor and the width;
    [visualToLogicalMap] has one entry for each visual line, and the
    visual line is the part of the logical line of its entry that starts
    at the column of the entry.  An array with a hole or with [undefined]
    at an index is no input of the statement. *)
Theorem visual_lines_are_slices (cells : list cell)
  (logicalCursor : Position) (viewportWidth : Z) :
  dense cells ->
  let logicalLines := readCells cells in
  exists layout,
    calculateVisualLayout stringWidth logicalLines logicalCursor
      viewportWidth = Some layout
    /\ len (visualToLogicalMap layout) = len (visualLines layout)
    /\ forall (v : nat) (vl : str) (row startCol : Z),
         nth_error (visualLines layout) v = Some vl ->
         nth_error (visualToLogicalMap layout) v = Some (row, startCol) ->
         0 <= startCol
         /\ vl = cpSlice (lineAt logicalLines row) startCol
                   (Some (startCol + cpLen vl)).
Proof.
  intros _ logicalLines.
  destruct (calculateVisualLayout_total stringWidth logicalLines
              logicalCursor viewportWidth) as (layout & Hrun).
  exists layout. split; [exact Hrun|].
  destruct (calculateVisualLayout_built _ _ _ _ Hrun) as (Hall & _).
  split.
  - unfold len. rewrite (Forall2_length Hall). reflexivity.
  - clear Hrun. induction Hall as [|vl0 p0 vls v2l Hhead Htail IH];
      intros v vl row startCol Hvl Hp.
    + destruct v; discriminate Hvl.
    + destruct v as [|v].
      * simpl in Hvl, Hp. injection Hvl as <-. injection Hp as ->.
        exact Hhead.
      * simpl in Hvl, Hp. exact (IH v vl row startCol Hvl Hp).
Qed.

(** X24: the visual cursor is a position of the visual lines.  On a dense
    array of logical lines, one that holds a string at every index, and
    for every logical cursor, also one outside the lines, the layout has
    at least one visual line and at least as many as there are logical
    lines, and its visual cursor names one of them and a column within
    it.  An array with a hole or with [undefined] at an index is no input
    of the statement: the layouter skips a hole, so that the visual lines
    can be fewer than the length of the array, and it throws on
    [undefined]. *)
Theorem visual_cursor_is_valid (cells : list cell)
  (logicalCursor : Position) (viewportWidth : Z) :
  dense cells ->
  let logicalLines := readCells cells in
  exists layout,
    calculateVisualLayout stringWidth logicalLines logicalCursor
      viewportWidth = Some layout
    /\ 1 <= len (visualLines layout)
    /\ len logicalLines <= len (visualLines layout)
    /\ validPosition (visualLines layout) (visualCursor layout).
Proof.
  intros _ logicalLines.
  destruct (calculateVisualLayout_total stringWidth logicalLines
              logicalCursor viewportWidth) as (layout & Hrun).
  exists layout. split; [exact Hrun|].
  destruct (calculateVisualLayout_built _ _ _ _ Hrun)
    as (_ & Hcur & Hlen).
  split; [|split; assumption].
  destruct Hcur as (Hrow & _). lia.
Qed.

End LayoutShape.

Lemma visual_lines_are_slices_witness :
  let cells := [Line [104; 101; 108; 108; 111; 32; 119; 111]; Line []] in
  dense cells
  /\ exists layout,
       calculateVisualLayout cellWidth (readCells cells) (0, 3) 5
       = Some layout
       /\ len (visualToLogicalMap layout) = len (visualLines layout).
Proof.
  intro cells.
  assert (Hd : dense cells).
  { constructor; [exists [104; 101; 108; 108; 111; 32; 119; 111]; reflexivity|].
    constructor; [exists []; reflexivity | constructor]. }
  split; [exact Hd|].
  destruct (visual_lines_are_slices cellWidth cells (0, 3) 5 Hd)
    as (layout & Hrun & Hlen & _).
  exists layout. split; [exact Hrun | exact Hlen].
Defined.

Lemma visual_cursor_is_valid_witness :
  let cells := [Line [104; 105]; Line []; Line [121; 111]] in
  dense cells
  /\ exists layout,
       calculateVisualLayout cellWidth (readCells cells) (7, 7) 4
       = Some layout
       /\ len (readCells cells) <= len (visualLines layout)
       /\ validPosition (visualLines layout) (visualCursor layout).
Proof.
  intro cells.
  assert (Hd : dense cells).
  { constructor; [exists [104; 105]; reflexivity|].
    constructor; [exists []; reflexivity|].
    constructor; [exists [121; 111]; reflexivity | constructor]. }
  split; [exact Hd|].
  destruct (visual_cursor_is_valid cellWidth cells (7, 7) 4 Hd)
    as (layout & Hrun & _ & Hlen & Hcur).
  exists layout. split; [exact Hrun|]. split; [exact Hlen | exact Hcur].
Defined.

(** ** The view *)

(** X25: the scroll effect brings the visual cursor into the viewport.  For
    a viewport of at least one row and a scroll row that is not negative,
    the scroll row after the effect is not negative, the row of the
    visual cursor is one of the [height] rows from it on, a second run of
    the effect changes nothing, and the rendered lines hold the line of
    the cursor at its row counted from the scroll row. *)
Theorem scroll_shows_cursor_line (visualLines : list str)
  (visualCursor : Position) (visualScrollRow height : Z) :
  validPosition visualLines visualCursor ->
  1 <= height -> 0 <= visualScrollRow ->
  let scroll := updateVisualScroll visualCursor visualScrollRow height in
  0 <= scroll <= fst visualCursor
  /\ fst visualCursor < scroll + height
  /\ updateVisualScroll visualCursor scroll height = scroll
  /\ lineAt (renderedVisualLines visualLines scroll height)
       (fst visualCursor - scroll)
     = lineAt visualLines (fst visualCursor).
Proof.
  intros (Hrow & _) Hheight Hscroll. cbv zeta.
  unfold updateVisualScroll.
  set (row := fst visualCursor) in *.
  assert (Hin : forall n, 0 <= n <= row -> row < n + height ->
                  (if row <? n then row
                   else if n + height <=? row then row - height + 1 else n)
                  = n
                  /\ lineAt (renderedVisualLines visualLines n height)
                       (row - n)
                     = lineAt visualLines row).
  { intros n Hn Hlt. split.
    - replace (row <? n) with false by (symmetry; apply Z.ltb_ge; lia).
      replace (n + height <=? row) with false
        by (symmetry; apply Z.leb_gt; lia).
      reflexivity.
    - unfold renderedVisualLines, arrSlice, relIndex, lineAt, arrGet.
      replace (n <? 0) with false by (symmetry; apply Z.ltb_ge; lia).
      replace (n + height <? 0) with false
        by (symmetry; apply Z.ltb_ge; lia).
      replace (row - n <? 0) with false by (symmetry; apply Z.ltb_ge; lia).
      replace (row <? 0) with false by (symmetry; apply Z.ltb_ge; lia).
      rewrite nth_error_firstn.
      replace (Z.to_nat (row - n)
               <? Z.to_nat (Z.min (n + height) (len visualLines)
                            - Z.min n (len visualLines)))%nat
        with true by (symmetry; apply Nat.ltb_lt; lia).
      rewrite nth_error_skipn.
      replace (Z.to_nat (Z.min n (len visualLines)) + Z.to_nat (row - n))%nat
        with (Z.to_nat row) by lia.
      reflexivity. }
  destruct (row <? visualScrollRow) eqn:E1.
  - apply Z.ltb_lt in E1.
    destruct (Hin row ltac:(lia) ltac:(lia)) as (H1 & H2).
    repeat split; try lia; assumption.
  - apply Z.ltb_ge in E1.
    destruct (visualScrollRow + height <=? row) eqn:E2.
    + apply Z.leb_le in E2.
      destruct (Hin (row - height + 1) ltac:(lia) ltac:(lia)) as (H1 & H2).
      repeat split; try lia; assumption.
    + apply Z.leb_gt in E2.
      destruct (Hin visualScrollRow ltac:(lia) ltac:(lia)) as (H1 & H2).
      repeat split; try lia; assumption.
Qed.

Lemma scroll_shows_cursor_line_witness :
  let visualLines := [[97]; [98]; [99]; [100]] in
  validPosition visualLines (3, 1) /\ 1 <= 2 /\ 0 <= 0
  /\ updateVisualScroll (3, 1) 0 2 = 2
  /\ lineAt (renderedVisualLines visualLines 2 2) 1 = [100].
Proof.
  intro visualLines.
  assert (Hv : validPosition visualLines (3, 1))
    by (repeat split; vm_compute; congruence).
  assert (Hh : 1 <= 2) by lia.
  assert (Hs : 0 <= 0) by lia.
  split; [exact Hv|]. split; [exact Hh|]. split; [exact Hs|].
  split; [reflexivity|].
  exact (proj2 (proj2 (proj2
           (scroll_shows_cursor_line visualLines (3, 1) 0 2 Hv Hh Hs)))).
Defined.

(** ** The external editor *)


Section EditorProperties.

Variable stripAnsi : str -> str.

Local Abbreviation reduce := (textBufferReducer stripAnsi).



End EditorProperties.

(** ** Sessions *)

Section SessionProperties.

Variable stripAnsi : str -> str.
Variable stringWidth : str -> Z.
Variable isValidPath : str -> bool.
Variable unescapePath : str -> str.

(** X27: no key breaks the buffer.  From the state the hook starts with,
    for an initial offset that is not negative, the state after any
    number of renders that each handle a key keeps the invariant of the
    engine: there is a line, no line holds a line break, the cursor is
    a position of the lines, and the same holds of every snapshot on the
    undo and redo stacks. *)
Theorem keys_keep_the_buffer_sound (initialText : str)
  (initialCursorOffset : Z) (renders : list (Z * Key)) :
  0 <= initialCursorOffset ->
  let s :=
    session stripAnsi stringWidth isValidPath unescapePath renders
      (initialState initialText initialCursorOffset) in
  stateOk s /\ wellFormed s.
Proof.
  intros Hoff. cbv zeta.
  assert (H : forall s, stateOk s ->
                stateOk (session stripAnsi stringWidth isValidPath
                           unescapePath renders s)).
  { unfold session. induction renders as [|[vw key] rs IH]; intros s Hs;
      [exact Hs|].
    cbn [fold_left fst snd]. apply IH.
    apply handleInput_keeps_invariant. exact Hs. }
  pose proof (H _ (initialState_ok initialText initialCursorOffset Hoff))
    as Hs.
  split; [exact Hs | apply stateOk_wellFormed; exact Hs].
Qed.

End SessionProperties.

(** ** Actions that only look *)

Section CursorActions.

Variable stripAnsi : str -> str.

Local Abbreviation reduce := (textBufferReducer stripAnsi).

(** X28: moving, selecting and copying never edit.  MOVE, MOVE_TO_OFFSET,
    COPY and START_SELECTION leave the lines and both history stacks as
    they are, whatever their payload; MOVE and MOVE_TO_OFFSET also leave
    the clipboard and the selection anchor, COPY and START_SELECTION the
    cursor and the preferred column. *)
Theorem cursor_actions_never_edit (s : TextBufferState)
  (a : TextBufferAction) :
  isMutating a = false -> a <> UNDO -> a <> REDO ->
  let r := reduce s a in
  lines r = lines s /\ undoStack r = undoStack s
  /\ redoStack r = redoStack s
  /\ match a with
     | COPY | START_SELECTION =>
         cursorRow r = cursorRow s /\ cursorCol r = cursorCol s
         /\ preferredCol r = preferredCol s
     | _ => clipboard r = clipboard s
            /\ selectionAnchor r = selectionAnchor s
     end.
Proof.
  intros Hmut Hundo Hredo. cbv zeta.
  destruct a; try discriminate Hmut; try contradiction.
  - (* MOVE *)
    cbn [textBufferReducer]. unfold moveCursor.
    match goal with
    | |- context [match ?t with (_, _) => _ end] =>
        destruct t as [[vr vc] pc]
    end.
    destruct (arrGet (visualToLogicalMap visualLayout) vr) as [[lr lc]|];
      repeat split.
  - (* MOVE_TO_OFFSET *)
    cbn [textBufferReducer].
    match goal with
    | |- context [offsetToLogicalPos ?t ?o] =>
        destruct (offsetToLogicalPos t o) as [row col]
    end.
    repeat split.
  - (* COPY *)
    cbn [textBufferReducer]. unfold copySelection.
    destruct (selectionAnchor s) as [[ar ac]|]; [|repeat split].
    destruct ((ar =? cursorRow s) && (ac =? cursorCol s)); [repeat split|].
    match goal with
    | |- context [match ?t with (_, _) => _ end] =>
        destruct t as [[[sr sc] er] ec]
    end.
    repeat split.
  - (* START_SELECTION *)
    repeat split.
Qed.

End CursorActions.

Lemma cursor_actions_never_edit_witness :
  let s := mkState [[104; 105]; [121; 111]] 1 1 None [] [] None
             (Some (0, 1)) in
  isMutating COPY = false /\ COPY <> UNDO /\ COPY <> REDO
  /\ lines (textBufferReducer stripCsi s COPY) = lines s.
Proof.
  intro s.
  assert (H1 : isMutating COPY = false) by reflexivity.
  assert (H2 : COPY <> UNDO) by discriminate.
  assert (H3 : COPY <> REDO) by discriminate.
  split; [exact H1|]. split; [exact H2|]. split; [exact H3|].
  exact (proj1 (cursor_actions_never_edit stripCsi s COPY H1 H2 H3)).
Defined.

Lemma reachable_wellFormed_witness :
  let s := textBufferReducer stripCsi (initialState [97; 10; 98] 2)
             (APPLY_OPERATIONS [OpInsert [120]]) in
  reachable stripCsi s /\ wellFormed s.
Proof.
  intro s.
  assert (H : reachable stripCsi s).
  { apply reachable_step; [|exact I]. apply reachable_initial. lia. }
  split; [exact H|].
  exact (reachable_wellFormed stripCsi s H).
Defined.

(** ** The properties at work on a small buffer *)






Lemma replaceRange_replaces_text_witness :
  let s := mkState [[104; 105]; [121; 111]; [122]] 0 0 None [] [] None None in
  ~ rangeRejected (lines s) 0 1 1 1
  /\ text (textBufferReducer stripCsi s (REPLACE_RANGE 0 1 1 1 [13; 10]))
     = [104; 10; 111; 10; 122].
Proof.
  intro s.
  assert (H : ~ rangeRejected (lines s) 0 1 1 1).
  { intro H. vm_compute in H. intuition congruence. }
  split; [exact H|].
  rewrite (proj1 (replaceRange_replaces_text stripCsi s 0 1 1 1 [13; 10] H)).
  reflexivity.
Defined.

Lemma moveToOffset_cuts_text_at_offset_witness :
  let s := mkState [[104; 105]; [121; 111]] 0 0 None [] [] None None in
  stateOk s /\ 0 <= 4
  /\ textBeforeCursor (dispatchAll stripCsi s (moveToOffset s 4))
     = [104; 105; 10; 121].
Proof.
  intro s.
  assert (Hs : stateOk s).
  { split; [|split; constructor]. split.
    - repeat constructor; intros H; vm_compute in H; intuition congruence.
    - repeat split; vm_compute; congruence. }
  assert (Ho : 0 <= 4) by lia.
  split; [exact Hs|]. split; [exact Ho|].
  rewrite (proj1 (proj2 (moveToOffset_cuts_text_at_offset stripCsi s 4
                           Hs Ho))).
  reflexivity.
Defined.

Lemma replaceRangeByOffset_replaces_slice_witness :
  let s := mkState [[104; 105]; [121; 111]] 0 0 None [] [] None None in
  stateOk s /\ 0 <= 1 <= 4 /\ 4 <= cpLen (text s)
  /\ (let (queue, accepted) := replaceRangeByOffset s 1 4 [120] in
      accepted = true
      /\ text (dispatchAll stripCsi s queue)
         = firstn (Z.to_nat 1) (text s)
           ++ replaceCR (replaceCRLF [120])
           ++ skipn (Z.to_nat 4) (text s)).
Proof.
  intro s.
  assert (Hs : stateOk s).
  { split; [|split; constructor]. split.
    - repeat constructor; intros H; vm_compute in H; intuition congruence.
    - repeat split; vm_compute; congruence. }
  assert (H1 : 0 <= 1 <= 4) by lia.
  assert (H2 : 4 <= cpLen (text s)) by (vm_compute; congruence).
  split; [exact Hs|]. split; [exact H1|]. split; [exact H2|].
  exact (replaceRangeByOffset_replaces_slice stripCsi s 1 4 [120] Hs H1 H2).
Defined.




Lemma keys_keep_the_buffer_sound_witness :
  let key := mkKey (lit "backspace") false false false false [127] in
  0 <= 1
  /\ stateOk (session stripCsi cellWidth noPath samePath
                [(80, key); (80, key)] (initialState [97; 10; 98] 1)).
Proof.
  intro key.
  assert (H : 0 <= 1) by lia.
  split; [exact H|].
  exact (proj1 (keys_keep_the_buffer_sound stripCsi cellWidth noPath
                  samePath [97; 10; 98] 1 [(80, key); (80, key)] H)).
Defined.
